(** * TranslatorApp: a shallow embedding of the translation, learning and
    temporary-audio-file logic of [translator_app v1.1.py] (and of the v1.0
    functions that differ), with the properties of its specification. *)

From Stdlib Require Import ZArith Ascii String.
From stdpp Require Import base gmap strings list sorting.

Local Open Scope Z_scope.

(* ===================================================================== *)
(** ** Python values: [str] methods, slices, exceptions                  *)
(* ===================================================================== *)

Module Py.

(** A [str] is kept as its UTF-8 bytes. *)
Definition chr (n : nat) : string := String (ascii_of_nat n) EmptyString.
Definition utf8_2 (a b : nat) : string := String (ascii_of_nat a) (chr b).
Definition utf8_3 (a b c : nat) : string := String (ascii_of_nat a) (utf8_2 b c).

Definition dquote : string := chr 34.
Definition newline : string := chr 10.

(** The code points for which [str.isspace] holds: U+0009..U+000D,
    U+001C..U+0020, U+0085, U+00A0, U+1680, U+2000..U+200A, U+2028, U+2029,
    U+202F, U+205F, U+3000. *)
Definition whitespace : list string :=
  (chr <$> [9; 10; 11; 12; 13; 28; 29; 30; 31; 32]%nat)
  ++ [utf8_2 194 133; utf8_2 194 160; utf8_3 225 154 128]
  ++ (utf8_3 226 128 <$> [128; 129; 130; 131; 132; 133; 134; 135; 136; 137; 138]%nat)
  ++ [utf8_3 226 128 168; utf8_3 226 128 169; utf8_3 226 128 175;
      utf8_3 226 129 159; utf8_3 227 128 128].

Fixpoint strip_prefix (p s : string) : option string :=
  match p with
  | EmptyString => Some s
  | String a p' =>
      match s with
      | String b s' => if Ascii.eqb a b then strip_prefix p' s' else None
      | EmptyString => None
      end
  end.

(** Drops one leading character of [chars], if [s] starts with one. *)
Fixpoint drop_leading (chars : list string) (s : string) : option string :=
  match chars with
  | [] => None
  | c :: chars' =>
      match strip_prefix c s with
      | Some s' => Some s'
      | None => drop_leading chars' s
      end
  end.

Fixpoint lstrip_fuel (chars : list string) (fuel : nat) (s : string) : string :=
  match fuel with
  | O => s
  | S fuel' =>
      match drop_leading chars s with
      | Some s' => lstrip_fuel chars fuel' s'
      | None => s
      end
  end.

Definition lstrip_chars (chars : list string) (s : string) : string :=
  lstrip_fuel chars (String.length s) s.

Definition rstrip_chars (chars : list string) (s : string) : string :=
  String.rev (lstrip_chars (String.rev <$> chars) (String.rev s)).

(** [s.strip()] *)
Definition strip (s : string) : string :=
  rstrip_chars whitespace (lstrip_chars whitespace s).

(** [s.strip(c)] for a one-character [c] *)
Definition strip_char (c : string) (s : string) : string :=
  rstrip_chars [c] (lstrip_chars [c] s).

(** Truth value of a [str]: [not s] is [is_empty s]. *)
Definition is_empty (s : string) : bool :=
  match s with EmptyString => true | String _ _ => false end.

(** [l[i:]], with a negative [i] counted from the end and the start clamped
    to the list. *)
Definition slice_from {A} (i : Z) (l : list A) : list A :=
  let n := Z.of_nat (length l) in
  let start := if i <? 0 then Z.max (n + i) 0 else Z.min i n in
  drop (Z.to_nat start) l.

(** [x in l] *)
Definition contains `{EqDecision A} (x : A) (l : list A) : bool :=
  bool_decide (x ∈ l).

(** The list after [l.remove(x)]: the first occurrence goes; [None] where
    Python raises [ValueError]. *)
Fixpoint remove {A} `{EqDecision A} (x : A) (l : list A) : option (list A) :=
  match l with
  | [] => None
  | y :: l' => if decide (x = y) then Some l' else cons y <$> remove x l'
  end.

(** Exception classes the program raises or names in an [except] clause.
    All of them derive from [Exception]. *)
Inductive ExnClass :=
| Exception | ValueError | TypeError | RuntimeError
| OSError | PermissionError | FileNotFoundError | FileExistsError.

(** [issubclass(c, OSError)] *)
Definition is_OSError (c : ExnClass) : bool :=
  match c with
  | OSError | PermissionError | FileNotFoundError | FileExistsError => true
  | _ => false
  end.

(** [issubclass(c, Exception)] *)
Definition is_Exception (c : ExnClass) : bool := true.

Record Exn := mkExn { exn_class : ExnClass; exn_str : string }.

Inductive Outcome (A : Type) :=
| Returned (a : A)
| Raised (e : Exn).
Arguments Returned {A} a.
Arguments Raised {A} e.

End Py.
Export Py.

(* ===================================================================== *)
(** ** The application object                                            *)
(* ===================================================================== *)

(** A [QTextEdit]: its document text, its read-only flag, its style sheet
    and whether a slot is connected to its [textChanged] signal.  The text
    is the string handed to [setText]/[setPlainText] and given back by
    [toPlainText]. *)
Record QTextEdit := mkTextEdit {
  toPlainText : string;
  isReadOnly : bool;
  styleSheet : string;
  textChanged_connected : bool
}.

(** One learned example, the JSON object [{"source": .., "translation": ..}]. *)
Record Example := mkExample { source : string; translation : string }.

#[global] Instance Example_eq_dec : EqDecision Example.
Proof. solve_decision. Defined.

(** A file of the temporary directory: its size, and whether another
    process (the media backend) still holds it open, which makes
    [os.unlink] raise [PermissionError]. *)
Record File := mkFile { size : Z; locked : bool }.

(** Calls that leave the process: translation providers, the OpenCC
    converter and the speech back ends. *)
Inductive Call :=
| GoogleTranslator_translate (src_lang dest_lang text : string)
| Groq_chat_completions_create (api_key model prompt : string)
| Gemini_generate_content (api_key model prompt : string)
| ts_translate_text (query_text from_language to_language translator : string)
| DeepL_translate_text (api_key text source_lang target_lang : string)
| OpenCC_convert (config text : string)
| edge_tts_save (text voice path : string)
| gTTS_save (text lang path : string)
| pyttsx3_setProperty_voice (voice_id : string)
| pyttsx3_save_to_file (text path : string).

Inductive DialogKind := Information | Warning | Critical.
Record Dialog := mkDialog { kind : DialogKind; title : string; message : string }.

Record QMediaPlayer := mkPlayer {
  playing : bool;               (* playbackState() == PlayingState *)
  media_source : option string  (* setSource(QUrl.fromLocalFile(..)) *)
}.

(** The widgets [init_ui] creates.  A combo box of fixed items is kept as
    its current index ([-1]: no current item) or its current text. *)
Record Widgets := mkWidgets {
  left_text : QTextEdit;
  right_text : QTextEdit;
  left_lang_combo : Z;
  right_lang_combo : Z;
  translator_combo : string;
  voice_combo : string;
  edge_voice_combo : string;
  pyttsx3_voice_combo : string;
  correction_input : string
}.

(** What the program does to the outside: the temporary directory, the
    calls made so far, the message boxes shown, the lines printed. *)
Record World := mkWorld {
  disk : gmap string File;
  calls : list Call;
  dialogs : list Dialog;
  stdout : list string
}.

(** What v1.0 hands to [QTimer.singleShot]: a closure that reads
    [self.current_playing_file] when it runs. *)
Inductive Deferred := cleanup_current_playing_file.

(** [self] of [TranslatorApp], with the [QSettings] key
    ['translation_examples'] held as the list its JSON text encodes
    ([json.dumps] and [json.loads] are inverse on such lists). *)
Record App := mkApp {
  translate_left_to_right : bool;
  last_source_text : string;
  temp_files : list string;
  current_playing_file : option string;
  pyttsx3_voices : gmap string string;
  api_keys : gmap string string;
  translation_examples : list Example;
  translate_timer : option Z;   (* [Some ms]: single shot pending *)
  player : QMediaPlayer;
  ui : Widgets;
  world : World;
  single_shots : list (Z * Deferred)   (* [QTimer.singleShot(ms, ..)] pending *)
}.

(** What the outside answers.  [reply] is the result of a provider or
    converter call given the calls made before it, [random_sample] is
    [random.sample], [mkstemp] the name [tempfile] picks for a new file,
    [synthesized] the size of the file a speech back end leaves at its path
    and the exception it raises, if any. *)
Record Backends := mkBackends {
  reply : list Call -> Call -> Outcome string;
  random_sample : list Example -> nat -> list Example;
  mkstemp : gmap string File -> string;
  synthesized : list Call -> Call -> Z * option Exn
}.

(** *** Field updates *)

Definition set_toPlainText (v : string) (e : QTextEdit) : QTextEdit :=
  {| toPlainText := v; isReadOnly := isReadOnly e; styleSheet := styleSheet e;
     textChanged_connected := textChanged_connected e |}.
Definition set_isReadOnly (v : bool) (e : QTextEdit) : QTextEdit :=
  {| toPlainText := toPlainText e; isReadOnly := v; styleSheet := styleSheet e;
     textChanged_connected := textChanged_connected e |}.
Definition set_styleSheet (v : string) (e : QTextEdit) : QTextEdit :=
  {| toPlainText := toPlainText e; isReadOnly := isReadOnly e; styleSheet := v;
     textChanged_connected := textChanged_connected e |}.
Definition set_textChanged_connected (v : bool) (e : QTextEdit) : QTextEdit :=
  {| toPlainText := toPlainText e; isReadOnly := isReadOnly e;
     styleSheet := styleSheet e; textChanged_connected := v |}.

Definition set_left_text (v : QTextEdit) (w : Widgets) : Widgets :=
  {| left_text := v; right_text := right_text w;
     left_lang_combo := left_lang_combo w; right_lang_combo := right_lang_combo w;
     translator_combo := translator_combo w; voice_combo := voice_combo w;
     edge_voice_combo := edge_voice_combo w;
     pyttsx3_voice_combo := pyttsx3_voice_combo w;
     correction_input := correction_input w |}.
Definition set_right_text (v : QTextEdit) (w : Widgets) : Widgets :=
  {| left_text := left_text w; right_text := v;
     left_lang_combo := left_lang_combo w; right_lang_combo := right_lang_combo w;
     translator_combo := translator_combo w; voice_combo := voice_combo w;
     edge_voice_combo := edge_voice_combo w;
     pyttsx3_voice_combo := pyttsx3_voice_combo w;
     correction_input := correction_input w |}.
Definition set_left_lang_combo (v : Z) (w : Widgets) : Widgets :=
  {| left_text := left_text w; right_text := right_text w;
     left_lang_combo := v; right_lang_combo := right_lang_combo w;
     translator_combo := translator_combo w; voice_combo := voice_combo w;
     edge_voice_combo := edge_voice_combo w;
     pyttsx3_voice_combo := pyttsx3_voice_combo w;
     correction_input := correction_input w |}.
Definition set_right_lang_combo (v : Z) (w : Widgets) : Widgets :=
  {| left_text := left_text w; right_text := right_text w;
     left_lang_combo := left_lang_combo w; right_lang_combo := v;
     translator_combo := translator_combo w; voice_combo := voice_combo w;
     edge_voice_combo := edge_voice_combo w;
     pyttsx3_voice_combo := pyttsx3_voice_combo w;
     correction_input := correction_input w |}.
Definition set_correction_input (v : string) (w : Widgets) : Widgets :=
  {| left_text := left_text w; right_text := right_text w;
     left_lang_combo := left_lang_combo w; right_lang_combo := right_lang_combo w;
     translator_combo := translator_combo w; voice_combo := voice_combo w;
     edge_voice_combo := edge_voice_combo w;
     pyttsx3_voice_combo := pyttsx3_voice_combo w;
     correction_input := v |}.

Definition set_disk (v : gmap string File) (w : World) : World :=
  {| disk := v; calls := calls w; dialogs := dialogs w; stdout := stdout w |}.
Definition set_calls (v : list Call) (w : World) : World :=
  {| disk := disk w; calls := v; dialogs := dialogs w; stdout := stdout w |}.
Definition set_dialogs (v : list Dialog) (w : World) : World :=
  {| disk := disk w; calls := calls w; dialogs := v; stdout := stdout w |}.
Definition set_stdout (v : list string) (w : World) : World :=
  {| disk := disk w; calls := calls w; dialogs := dialogs w; stdout := v |}.

Definition set_translate_left_to_right (v : bool) (s : App) : App :=
  {| translate_left_to_right := v; last_source_text := last_source_text s;
     temp_files := temp_files s; current_playing_file := current_playing_file s;
     pyttsx3_voices := pyttsx3_voices s; api_keys := api_keys s;
     translation_examples := translation_examples s;
     translate_timer := translate_timer s; player := player s;
     ui := ui s; world := world s; single_shots := single_shots s |}.
Definition set_last_source_text (v : string) (s : App) : App :=
  {| translate_left_to_right := translate_left_to_right s; last_source_text := v;
     temp_files := temp_files s; current_playing_file := current_playing_file s;
     pyttsx3_voices := pyttsx3_voices s; api_keys := api_keys s;
     translation_examples := translation_examples s;
     translate_timer := translate_timer s; player := player s;
     ui := ui s; world := world s; single_shots := single_shots s |}.
Definition set_temp_files (v : list string) (s : App) : App :=
  {| translate_left_to_right := translate_left_to_right s;
     last_source_text := last_source_text s;
     temp_files := v; current_playing_file := current_playing_file s;
     pyttsx3_voices := pyttsx3_voices s; api_keys := api_keys s;
     translation_examples := translation_examples s;
     translate_timer := translate_timer s; player := player s;
     ui := ui s; world := world s; single_shots := single_shots s |}.
Definition set_current_playing_file (v : option string) (s : App) : App :=
  {| translate_left_to_right := translate_left_to_right s;
     last_source_text := last_source_text s;
     temp_files := temp_files s; current_playing_file := v;
     pyttsx3_voices := pyttsx3_voices s; api_keys := api_keys s;
     translation_examples := translation_examples s;
     translate_timer := translate_timer s; player := player s;
     ui := ui s; world := world s; single_shots := single_shots s |}.
Definition set_translation_examples (v : list Example) (s : App) : App :=
  {| translate_left_to_right := translate_left_to_right s;
     last_source_text := last_source_text s;
     temp_files := temp_files s; current_playing_file := current_playing_file s;
     pyttsx3_voices := pyttsx3_voices s; api_keys := api_keys s;
     translation_examples := v;
     translate_timer := translate_timer s; player := player s;
     ui := ui s; world := world s; single_shots := single_shots s |}.
Definition set_translate_timer (v : option Z) (s : App) : App :=
  {| translate_left_to_right := translate_left_to_right s;
     last_source_text := last_source_text s;
     temp_files := temp_files s; current_playing_file := current_playing_file s;
     pyttsx3_voices := pyttsx3_voices s; api_keys := api_keys s;
     translation_examples := translation_examples s;
     translate_timer := v; player := player s;
     ui := ui s; world := world s; single_shots := single_shots s |}.
Definition set_player (v : QMediaPlayer) (s : App) : App :=
  {| translate_left_to_right := translate_left_to_right s;
     last_source_text := last_source_text s;
     temp_files := temp_files s; current_playing_file := current_playing_file s;
     pyttsx3_voices := pyttsx3_voices s; api_keys := api_keys s;
     translation_examples := translation_examples s;
     translate_timer := translate_timer s; player := v;
     ui := ui s; world := world s; single_shots := single_shots s |}.
Definition set_ui (v : Widgets) (s : App) : App :=
  {| translate_left_to_right := translate_left_to_right s;
     last_source_text := last_source_text s;
     temp_files := temp_files s; current_playing_file := current_playing_file s;
     pyttsx3_voices := pyttsx3_voices s; api_keys := api_keys s;
     translation_examples := translation_examples s;
     translate_timer := translate_timer s; player := player s;
     ui := v; world := world s; single_shots := single_shots s |}.
Definition set_world (v : World) (s : App) : App :=
  {| translate_left_to_right := translate_left_to_right s;
     last_source_text := last_source_text s;
     temp_files := temp_files s; current_playing_file := current_playing_file s;
     pyttsx3_voices := pyttsx3_voices s; api_keys := api_keys s;
     translation_examples := translation_examples s;
     translate_timer := translate_timer s; player := player s;
     ui := ui s; world := v; single_shots := single_shots s |}.
Definition set_single_shots (v : list (Z * Deferred)) (s : App) : App :=
  {| translate_left_to_right := translate_left_to_right s;
     last_source_text := last_source_text s;
     temp_files := temp_files s; current_playing_file := current_playing_file s;
     pyttsx3_voices := pyttsx3_voices s; api_keys := api_keys s;
     translation_examples := translation_examples s;
     translate_timer := translate_timer s; player := player s;
     ui := ui s; world := world s; single_shots := v |}.

(* ===================================================================== *)
(** ** Methods as state transformers that may raise                      *)
(* ===================================================================== *)

(** A method body: from the object before the call to what the call
    returns or raises, and the object after it (attribute writes made
    before a [raise] stay). *)
Definition M (A : Type) : Type := App -> Outcome A * App.

Definition ret {A} (a : A) : M A := fun st => (Returned a, st).

Definition bind {A B} (m : M A) (k : A -> M B) : M B :=
  fun st =>
    match m st with
    | (Returned a, st') => k a st'
    | (Raised e, st') => (Raised e, st')
    end.

Definition raise {A} (c : ExnClass) (msg : string) : M A :=
  fun st => (Raised (mkExn c msg), st).

(** [try: body except <classes> as e: handler e] *)
Definition try_except {A} (body : M A) (catches : ExnClass -> bool)
    (handler : Exn -> M A) : M A :=
  fun st =>
    match body st with
    | (Returned a, st') => (Returned a, st')
    | (Raised e, st') =>
        if catches (exn_class e) then handler e st' else (Raised e, st')
    end.

Definition get : M App := fun st => (Returned st, st).
Definition modify (f : App -> App) : M unit := fun st => (Returned tt, f st).

Notation "'let!' x ':=' m 'in' k" := (bind m (fun x => k))
  (at level 10, x name, m at level 100, k at level 200).
Notation "m1 '>>' m2" := (bind m1 (fun _ => m2))
  (at level 100, m2 at level 200, right associativity).

Fixpoint for_each {A} (l : list A) (body : A -> M unit) : M unit :=
  match l with
  | [] => ret tt
  | x :: l' => body x >> for_each l' body
  end.

Definition pass : M unit := ret tt.

(** The object after running a method, and what the method gave. *)
Definition exec {A} (m : M A) (st : App) : App := snd (m st).
Definition outcome {A} (m : M A) (st : App) : Outcome A := fst (m st).

(* ===================================================================== *)
(** ** Widgets and signals                                               *)
(* ===================================================================== *)

Definition pane (is_left : bool) (st : App) : QTextEdit :=
  if is_left then left_text (ui st) else right_text (ui st).

Definition set_pane (is_left : bool) (e : QTextEdit) (st : App) : App :=
  if is_left then set_ui (set_left_text e (ui st)) st
  else set_ui (set_right_text e (ui st)) st.

Definition lang_combo (is_left : bool) (st : App) : Z :=
  if is_left then left_lang_combo (ui st) else right_lang_combo (ui st).

Definition set_lang_combo (is_left : bool) (i : Z) (st : App) : App :=
  if is_left then set_ui (set_left_lang_combo i (ui st)) st
  else set_ui (set_right_lang_combo i (ui st)) st.

(** [lang_combo.addItems(["中文", "英文", "日文"])] *)
Definition lang_items : list string := ["中文"; "英文"; "日文"].

(** [QComboBox.currentText()] *)
Definition currentText (items : list string) (i : Z) : string :=
  if i <? 0 then "" else default "" (items !! Z.to_nat i).

(** [translate_timer.start(ms)]: a single-shot timer, restarted when it is
    already pending. *)
Definition timer_start (ms : Z) : M unit :=
  modify (set_translate_timer (Some ms)).

(** [trigger_translation], v1.1 line 420 *)
Definition trigger_translation : M unit := timer_start 50.

(** [setText], [setPlainText] and [clear] of a text pane: the document
    changes, then [textChanged] runs the slot connected to it, here
    [on_textChanged] with the side of the pane. *)
Definition setPlainText_with (on_textChanged : bool -> M unit)
    (is_left : bool) (txt : string) : M unit :=
  modify (fun st => set_pane is_left (set_toPlainText txt (pane is_left st)) st) >>
  let! st := get in
  if textChanged_connected (pane is_left st) then on_textChanged is_left else pass.

(** [handle_text_changed], v1.1 line 409, with the slot its own
    [target_widget.clear()] reaches left open. *)
Definition handle_text_changed_with (on_textChanged : bool -> M unit)
    (is_left : bool) : M unit :=
  let! st := get in
  if negb (Bool.eqb is_left (translate_left_to_right st)) then pass
  else
    if is_empty (strip (toPlainText (pane is_left st))) then
      setPlainText_with on_textChanged (negb is_left) ""
    else timer_start 1200.

(** The slot as connected by [_connect_signals]: clearing the target pane
    re-enters the handler for the other side, which returns at once
    (lemma [handle_text_changed_nesting]), so two levels are all of it. *)
Definition handle_text_changed : bool -> M unit :=
  handle_text_changed_with (handle_text_changed_with (fun _ => pass)).

Definition setPlainText : bool -> string -> M unit :=
  setPlainText_with handle_text_changed.

(** [textChanged.disconnect()]: PyQt raises [TypeError] when nothing is
    connected. *)
Definition textChanged_disconnect (is_left : bool) : M unit :=
  let! st := get in
  if textChanged_connected (pane is_left st) then
    modify (fun st => set_pane is_left (set_textChanged_connected false (pane is_left st)) st)
  else raise TypeError "disconnect() failed between 'textChanged' and all its connections".

Definition textChanged_connect (is_left : bool) : M unit :=
  modify (fun st => set_pane is_left (set_textChanged_connected true (pane is_left st)) st).

(** [lang_combo.setCurrentIndex(i)]: an index outside the items gives no
    current item; when the current text changes, [currentTextChanged] runs
    [trigger_translation] (v1.1 lines 261-262).  The items are distinct, so
    the text changes exactly when the index does. *)
Definition checked_index (items : list string) (i : Z) : Z :=
  if (0 <=? i) && (i <? Z.of_nat (length items)) then i else -1.

Definition lang_combo_setCurrentIndex (is_left : bool) (i : Z) : M unit :=
  let! st := get in
  let new := checked_index lang_items i in
  if lang_combo is_left st =? new then pass
  else modify (set_lang_combo is_left new) >> trigger_translation.

(** [stop_audio], v1.1 line 638 *)
Definition stop_audio : M unit :=
  let! st := get in
  if playing (player st) then
    modify (set_player {| playing := false; media_source := media_source (player st) |})
  else pass.

(** [update_editor_states], v1.1 line 530 *)
Definition update_editor_states : M unit :=
  let! st := get in
  let restyle (ro : bool) (css : string) (e : QTextEdit) :=
    set_styleSheet css (set_isReadOnly ro e) in
  if translate_left_to_right st then
    modify (fun st => set_pane true (restyle false "background-color: white;" (pane true st)) st) >>
    modify (fun st => set_pane false (restyle true "background-color: #f0f0f0;" (pane false st)) st)
  else
    modify (fun st => set_pane true (restyle true "background-color: #f0f0f0;" (pane true st)) st) >>
    modify (fun st => set_pane false (restyle false "background-color: white;" (pane false st)) st).

(** [swap_languages], v1.1 line 514 *)
Definition swap_languages : M unit :=
  stop_audio >>
  let! st := get in
  let left_idx := lang_combo true st in
  let right_idx := lang_combo false st in
  lang_combo_setCurrentIndex true right_idx >>
  lang_combo_setCurrentIndex false left_idx >>
  textChanged_disconnect true >>
  textChanged_disconnect false >>
  let! st := get in
  let left_content := toPlainText (pane true st) in
  let right_content := toPlainText (pane false st) in
  setPlainText true right_content >>
  setPlainText false left_content >>
  modify (fun st => set_translate_left_to_right (negb (translate_left_to_right st)) st) >>
  update_editor_states >>
  textChanged_connect true >>
  textChanged_connect false.

(* ===================================================================== *)
(** ** Translation dispatch                                              *)
(* ===================================================================== *)

Record LangCodes := mkLangCodes { google : string; deepl : string }.

(** [get_lang_code], v1.1 line 661 *)
Definition get_lang_code (language : string) : LangCodes :=
  if String.eqb language "中文" then mkLangCodes "zh-TW" "ZH"
  else if String.eqb language "英文" then mkLangCodes "en" "EN-US"
  else if String.eqb language "日文" then mkLangCodes "ja" "JA"
  else mkLangCodes "en" "EN".

(** [lang_map.get(name, fallback)] of the Translators branch, line 493 *)
Definition translators_lang_map_get (name fallback : string) : string :=
  if String.eqb name "中文" then "zh"
  else if String.eqb name "英文" then "en"
  else if String.eqb name "日文" then "ja"
  else fallback.

Definition Google_service : string := "Google翻譯 (免費)".
Definition Groq_service : string := "Groq Llama3 (免費)".
Definition Gemini_service : string := "Gemini Pro API (付費)".
Definition Translators_service : string := "Translators 聚合翻譯 (免費)".
Definition DeepL_service : string := "DeepL API (付費)".

(** The lines [examples_str] gets for the sampled examples, line 460 *)
Definition examples_lines (selected : list Example) : string :=
  foldl (fun acc ex =>
           acc +:+ "- Source: " +:+ dquote +:+ source ex +:+ dquote +:+ newline
               +:+ "  Preferred Translation: " +:+ dquote +:+ translation ex
               +:+ dquote +:+ newline)
        ("Here are some examples of my preferred final translation style. "
         +:+ "Use them as a style guide:" +:+ newline)
        selected.

Definition tc_instruction (dest_lang_name : string) : string :=
  if String.eqb dest_lang_name "中文"
  then "Your response MUST BE in Traditional Chinese (繁體中文) for Taiwan."
  else "".

(** [refinement_prompt], line 465 *)
Definition refinement_prompt (src_lang_name dest_lang_name examples_str source_text : string)
    : string :=
  "You are a world-class localization expert translating from " +:+ src_lang_name
    +:+ " to " +:+ dest_lang_name +:+ "." +:+ newline
  +:+ "Critically review and provide the best, most natural-sounding translation "
  +:+ "for the text below. "
  +:+ "It must be perfectly idiomatic for a native speaker of " +:+ dest_lang_name
    +:+ "." +:+ newline
  +:+ tc_instruction dest_lang_name +:+ newline +:+ newline +:+ examples_str
    +:+ newline +:+ newline
  +:+ "--- TASK ---" +:+ newline +:+ "Translate the following text:" +:+ newline
    +:+ dquote +:+ source_text +:+ dquote +:+ newline +:+ newline
  +:+ "Provide ONLY the final, improved translation:".

(** The Gemini [prompt], line 487 *)
Definition gemini_prompt (src_lang_name dest_lang_name source_text : string) : string :=
  "請將以下「" +:+ src_lang_name +:+ "」文本翻譯成「" +:+ dest_lang_name
  +:+ "」，只需要提供翻譯後的文本即可，不要包含任何額外的解釋或標籤："
  +:+ newline +:+ newline +:+ source_text.

Section Translation.

Variable env : Backends.

(** A call that leaves the process: it is recorded, and the outside
    returns a string or raises. *)
Definition call (c : Call) : M string :=
  fun st =>
    (reply env (calls (world st)) c,
     set_world (set_calls (calls (world st) ++ [c]) (world st)) st).

(** [api_key = self.api_keys.get(service); if not api_key: raise ValueError(msg)] *)
Definition require_api_key (service msg : string) : M string :=
  let! st := get in
  match api_keys st !! service with
  | Some api_key => if is_empty api_key then raise ValueError msg else ret api_key
  | None => raise ValueError msg
  end.

(** [cc = opencc.OpenCC('s2twp'); cc.convert(text)] *)
Definition s2twp (text : string) : M string := call (OpenCC_convert "s2twp" text).

(** [examples_str], lines 457-462: up to three sampled examples, or
    nothing when none is stored. *)
Definition examples_str_of (examples : list Example) : string :=
  match examples with
  | [] => ""
  | _ :: _ => examples_lines (random_sample env examples (Nat.min (length examples) 3))
  end.

(** The [if]/[elif] chain inside the [try] of [translate_text], lines
    446-508: the value of [translation] when the chain is left. *)
Definition provider_translate (service src_lang_name dest_lang_name source_text : string)
    : M string :=
  if String.eqb service Google_service then
    let src_lang := google (get_lang_code src_lang_name) in
    let dest_lang := google (get_lang_code dest_lang_name) in
    call (GoogleTranslator_translate src_lang dest_lang source_text)
  else if String.eqb service Groq_service then
    let! api_key := require_api_key service "請先在設定中保存 Groq API Key" in
    let! st := get in
    let examples := translation_examples st in
    let examples_str := examples_str_of examples in
    let! content :=
      call (Groq_chat_completions_create api_key "llama3-70b-8192"
              (refinement_prompt src_lang_name dest_lang_name examples_str source_text)) in
    let translation := strip_char dquote (strip content) in
    if String.eqb dest_lang_name "中文" then s2twp translation else ret translation
  else if String.eqb service Gemini_service then
    let! api_key := require_api_key service "請先保存 Gemini Pro API Key" in
    call (Gemini_generate_content api_key "gemini-1.5-pro-latest"
            (gemini_prompt src_lang_name dest_lang_name source_text))
  else if String.eqb service Translators_service then
    let src_code := translators_lang_map_get src_lang_name "auto" in
    let dest_code := translators_lang_map_get dest_lang_name "en" in
    let! translation := call (ts_translate_text source_text src_code dest_code "bing") in
    if String.eqb dest_code "zh" then s2twp translation else ret translation
  else if String.eqb service DeepL_service then
    let! api_key := require_api_key service "請先設置 DeepL API Key" in
    let src_lang := deepl (get_lang_code src_lang_name) in
    let dest_lang := deepl (get_lang_code dest_lang_name) in
    call (DeepL_translate_text api_key source_text src_lang dest_lang)
  else ret "".

(** The text [translate_text] works on: the stripped text of the pane the
    direction makes the source. *)
Definition source_text_of (st : App) : string :=
  strip (toPlainText (pane (translate_left_to_right st) st)).

Definition src_lang_name_of (st : App) : string :=
  currentText lang_items (lang_combo (translate_left_to_right st) st).

Definition dest_lang_name_of (st : App) : string :=
  currentText lang_items (lang_combo (negb (translate_left_to_right st)) st).

(** The pane the direction makes the target, as a side. *)
Definition target_side (st : App) : bool := negb (translate_left_to_right st).

(** [translate_text], v1.1 line 424 *)
Definition translate_text : M unit :=
  let! st := get in
  let source_text := source_text_of st in
  let src_lang_name := src_lang_name_of st in
  let dest_lang_name := dest_lang_name_of st in
  let target_widget := target_side st in
  if is_empty source_text then setPlainText target_widget ""
  else
    modify (set_last_source_text source_text) >>
    let service := translator_combo (ui st) in
    try_except
      (let! translation :=
         provider_translate service src_lang_name dest_lang_name source_text in
       setPlainText target_widget translation)
      is_Exception
      (fun e => setPlainText target_widget ("翻譯錯誤: " +:+ exn_str e)).

(** The single-shot [translate_timer] fires: [timeout] is connected to
    [translate_text] (line 132). *)
Definition translate_timer_timeout : M unit :=
  modify (set_translate_timer None) >> translate_text.

End Translation.

(* ===================================================================== *)
(** ** Learning a correction                                             *)
(* ===================================================================== *)

(** [QMessageBox.warning/information/critical(self, title, text)] *)
Definition message_box (k : DialogKind) (title text : string) : M unit :=
  modify (fun st =>
    set_world (set_dialogs (dialogs (world st) ++ [mkDialog k title text]) (world st)) st).

Definition correction_input_clear : M unit :=
  modify (fun st => set_ui (set_correction_input "" (ui st)) st).

(** [save_correction], v1.1 line 388 *)
Definition save_correction : M unit :=
  let! st := get in
  let source_text := strip (last_source_text st) in
  let corrected_translation := strip (correction_input (ui st)) in
  if is_empty source_text || is_empty corrected_translation then
    message_box Warning "錯誤" "必須有原文和您修正後的譯文才能學習！"
  else
    let examples := translation_examples st in
    let new_example := mkExample source_text corrected_translation in
    let examples :=
      if contains new_example examples then examples else examples ++ [new_example] in
    let examples := slice_from (-10) examples in
    modify (set_translation_examples examples) >>
    correction_input_clear >>
    message_box Information "成功" "這個範例將在未來使用 Llama3 翻譯時作為參考。".


(* ===================================================================== *)
(** ** Temporary audio files                                             *)
(* ===================================================================== *)

Definition set_disk_of (f : gmap string File -> gmap string File) (st : App) : App :=
  set_world (set_disk (f (disk (world st))) (world st)) st.

(** [print(line)] *)
Definition print (line : string) : M unit :=
  modify (fun st => set_world (set_stdout (stdout (world st) ++ [line]) (world st)) st).

(** [os.unlink(path)] *)
Definition os_unlink (path : string) : M unit :=
  let! st := get in
  match disk (world st) !! path with
  | None =>
      raise FileNotFoundError
        ("[Errno 2] No such file or directory: '" +:+ path +:+ "'")
  | Some f =>
      if locked f then
        raise PermissionError
          ("[WinError 32] The process cannot access the file because it is "
           +:+ "being used by another process: '" +:+ path +:+ "'")
      else modify (set_disk_of (delete path))
  end.

(** [os.path.getsize(path)] *)
Definition os_path_getsize (path : string) : M Z :=
  let! st := get in
  match disk (world st) !! path with
  | None =>
      raise FileNotFoundError
        ("[Errno 2] No such file or directory: '" +:+ path +:+ "'")
  | Some f => ret (size f)
  end.

(** [self.temp_files.remove(path)] *)
Definition temp_files_remove (path : string) : M unit :=
  let! st := get in
  match Py.remove path (temp_files st) with
  | Some l => modify (set_temp_files l)
  | None => raise ValueError "list.remove(x): x not in list"
  end.

(** [cleanup_single_file], v1.1 line 549 *)
Definition cleanup_single_file (file_path : string) : M unit :=
  let! st := get in
  if contains file_path (temp_files st) then
    try_except
      (os_unlink file_path >> temp_files_remove file_path)
      is_OSError
      (fun e => print ("清理文件 " +:+ file_path +:+ " 時出錯: " +:+ exn_str e))
  else pass.

(** [cleanup_all_temp_files], v1.1 line 558: the loop runs over a copy of
    the list taken before the first deletion. *)
Definition cleanup_all_temp_files : M unit :=
  stop_audio >>
  let! st := get in
  for_each (temp_files st) cleanup_single_file >>
  print "所有臨時文件已清理。".

(** [handle_media_status_changed(EndOfMedia)], v1.1 line 543 *)
Definition handle_end_of_media : M unit :=
  let! st := get in
  match current_playing_file st with
  | Some p =>
      if is_empty p then pass
      else cleanup_single_file p >> modify (set_current_playing_file None)
  | None => pass
  end.

Section Speech.

Variable env : Backends.

(** [tempfile.NamedTemporaryFile(delete=False, suffix='.mp3')]: a new,
    empty file under a name that is not in use. *)
Definition NamedTemporaryFile : M string :=
  let! st := get in
  let name := mkstemp env (disk (world st)) in
  match disk (world st) !! name with
  | Some _ => raise FileExistsError "[Errno 17] No usable temporary file name found"
  | None => modify (set_disk_of (insert name (mkFile 0 false))) >> ret name
  end.

(** A speech back end saving to [path]: the call is recorded, the file
    holds what the back end wrote, and the back end may raise. *)
Definition synthesize (c : Call) (path : string) : M unit :=
  fun st =>
    let '(written, err) := synthesized env (calls (world st)) c in
    let st' :=
      set_disk_of (insert path (mkFile (Z.max 0 written) false))
        (set_world (set_calls (calls (world st) ++ [c]) (world st)) st) in
    match err with
    | Some e => (Raised e, st')
    | None => (Returned tt, st')
    end.

Definition record_call (c : Call) : M unit :=
  modify (fun st => set_world (set_calls (calls (world st) ++ [c]) (world st)) st).

(** The [except Exception] clause of [text_to_speech], line 605, for the
    value [temp_file_path] has when the exception arrives. *)
Definition text_to_speech_except (temp_file_path : option string) (e : Exn)
    : M (option string) :=
  message_box Critical "TTS Error" ("生成語音時發生錯誤: " +:+ exn_str e) >>
  match temp_file_path with
  | Some p => if is_empty p then pass else cleanup_single_file p
  | None => pass
  end >>
  ret None.

(** The [try] body of [text_to_speech] after [temp_file_path] is bound,
    lines 580-603 *)
Definition text_to_speech_body (text : string) (language_codes : LangCodes)
    (temp_file_path : string) : M (option string) :=
  let! st := get in
  let service := voice_combo (ui st) in
  (if String.eqb service "Edge TTS" then
     let voice := edge_voice_combo (ui st) in
     if is_empty voice then raise ValueError "請先在 Edge TTS 選項中選擇一個語音"
     else synthesize (edge_tts_save text voice temp_file_path) temp_file_path
   else if String.eqb service "Google TTS" then
     synthesize (gTTS_save text (google language_codes) temp_file_path) temp_file_path
   else if String.eqb service "System TTS (pyttsx3)" then
     let voice_name := pyttsx3_voice_combo (ui st) in
     match (if is_empty voice_name then None else pyttsx3_voices st !! voice_name) with
     | Some voice_id => record_call (pyttsx3_setProperty_voice voice_id)
     | None => pass
     end >>
     synthesize (pyttsx3_save_to_file text temp_file_path) temp_file_path
   else pass) >>
  let! nonempty :=
    (if is_empty temp_file_path then ret false
     else let! sz := os_path_getsize temp_file_path in ret (0 <? sz)) in
  if nonempty then
    modify (fun st => set_temp_files (temp_files st ++ [temp_file_path]) st) >>
    ret (Some temp_file_path)
  else
    (if is_empty temp_file_path then pass else cleanup_single_file temp_file_path) >>
    ret None.

(** [text_to_speech], v1.1 line 565.  [temp_file_path] is [None] until
    [NamedTemporaryFile] has returned, so the [try] is split there. *)
Definition text_to_speech (text : string) (language_codes : LangCodes)
    : M (option string) :=
  if is_empty text then ret None
  else
    let! created :=
      try_except
        (let! name := NamedTemporaryFile in ret (inl name))
        is_Exception
        (fun e => let! r := text_to_speech_except None e in ret (inr r)) in
    match created with
    | inl temp_file_path =>
        try_except
          (text_to_speech_body text language_codes temp_file_path)
          is_Exception
          (text_to_speech_except (Some temp_file_path))
    | inr r => ret r
    end.

(** The [except Exception] clause of [speak_text], line 634 *)
Definition speak_text_except (temp_file : option string) (e : Exn) : M unit :=
  message_box Critical "Playback Error" ("播放音訊時發生錯誤: " +:+ exn_str e) >>
  match temp_file with
  | Some p => if is_empty p then pass else cleanup_single_file p
  | None => pass
  end.

(** [self.player.setSource(..); self.player.play()] *)
Definition player_play (path : string) : M unit :=
  modify (set_player {| playing := true; media_source := Some path |}).

(** [speak_text], v1.1 line 610; [run_until_complete] waits for
    [text_to_speech] to finish. *)
Definition speak_text (text : string) (language_codes : LangCodes) : M unit :=
  if is_empty text then pass
  else
    stop_audio >>
    let! synthesis :=
      try_except
        (let! temp_file := text_to_speech text language_codes in ret (Some temp_file))
        is_Exception
        (fun e => speak_text_except None e >> ret None) in
    match synthesis with
    | Some (Some temp_file) =>
        if is_empty temp_file then pass
        else
          try_except
            (modify (set_current_playing_file (Some temp_file)) >>
             player_play temp_file)
            is_Exception
            (speak_text_except (Some temp_file))
    | _ => pass
    end.

End Speech.

(* ===================================================================== *)
(** ** The same methods in v1.0, where they differ                       *)
(* ===================================================================== *)

Module V10.

(** [save_correction] of v1.0, line 217 *)
Definition save_correction : M unit :=
  let! st := get in
  let source_text := strip (last_source_text st) in
  let corrected_translation := strip (correction_input (ui st)) in
  if is_empty source_text || is_empty corrected_translation then
    message_box Warning "錯誤" "必須有原文和您修正後的譯文才能學習！"
  else
    let examples := translation_examples st in
    let new_example := mkExample source_text corrected_translation in
    let examples :=
      if contains new_example examples then examples else examples ++ [new_example] in
    let examples :=
      if (10 <? Z.of_nat (length examples)) then slice_from (-10) examples
      else examples in
    modify (set_translation_examples examples) >>
    correction_input_clear >>
    message_box Information "成功" "學習成功！這個範例將在未來的翻譯中作為參考。".

(** [cleanup_single_file] of v1.0, line 645; [None] is Python's [None]. *)
Definition cleanup_single_file (file_path : option string) : M unit :=
  match file_path with
  | None => pass
  | Some path =>
      let! st := get in
      if negb (is_empty path) && bool_decide (is_Some (disk (world st) !! path)) then
        try_except
          (os_unlink path >>
           let! st := get in
           if contains path (temp_files st) then temp_files_remove path else pass)
          is_OSError
          (fun e => print ("清理文件 " +:+ path +:+ " 時出錯: " +:+ exn_str e))
      else pass
  end.

(** [stop_audio] of v1.0, line 635 *)
Definition stop_audio : M unit :=
  let! st := get in
  if playing (player st) then
    modify (set_player {| playing := false; media_source := media_source (player st) |}) >>
    match current_playing_file st with
    | Some p =>
        if is_empty p then pass
        else
          modify (fun st =>
            set_single_shots (single_shots st ++ [(100, cleanup_current_playing_file)]) st) >>
          modify (set_current_playing_file None)
    | None => pass
    end
  else pass.

(** The single shot of [stop_audio] fires. *)
Definition run_deferred (d : Deferred) : M unit :=
  match d with
  | cleanup_current_playing_file =>
      let! st := get in cleanup_single_file (current_playing_file st)
  end.

(** [cleanup_all_temp_files] of v1.0, line 549 *)
Definition cleanup_all_temp_files : M unit :=
  stop_audio >>
  let! st := get in
  for_each (temp_files st) (fun temp_file =>
    try_except
      (let! st := get in
       if bool_decide (is_Some (disk (world st) !! temp_file)) then os_unlink temp_file
       else pass)
      is_OSError
      (fun e => print ("程序退出清理時出錯: " +:+ exn_str e))).

(** [try: body finally: final] *)
Definition try_finally {A} (body : M A) (final : M unit) : M A :=
  fun st =>
    match body st with
    | (r, st') =>
        match final st' with
        | (Returned _, st'') => (r, st'')
        | (Raised e, st'') => (Raised e, st'')
        end
    end.

(** [if os.path.exists(path): os.unlink(path)] *)
Definition unlink_if_exists (path : string) : M unit :=
  let! st := get in
  if bool_decide (is_Some (disk (world st) !! path)) then os_unlink path else pass.

(** [handle_media_status_changed(EndOfMedia)] of v1.0, line 522 *)
Definition handle_end_of_media : M unit :=
  let! st := get in
  match current_playing_file st with
  | Some p =>
      if is_empty p then pass
      else
        try_finally
          (try_except
             (unlink_if_exists p >>
              let! st := get in
              if contains p (temp_files st) then temp_files_remove p else pass)
             is_OSError
             (fun e => print ("清理臨時文件時出錯: " +:+ exn_str e)))
          (modify (set_current_playing_file None))
  | None => pass
  end.

(** [cleanup_temp_files] of v1.0, line 537: the slot of the one-minute
    [cleanup_timer]; the loop runs over a copy of the list. *)
Definition cleanup_temp_files : M unit :=
  let! st := get in
  for_each (temp_files st) (fun temp_file =>
    let! st := get in
    if bool_decide (Some temp_file <> current_playing_file st) then
      try_except
        (unlink_if_exists temp_file >> temp_files_remove temp_file)
        is_OSError
        (fun e => print ("定期清理時出錯: " +:+ exn_str e))
    else pass).

(** [voice_map.get(language_codes["google"], "en-US-JennyNeural")], line 574 *)
Definition voice_map_get (google_code : string) : string :=
  if String.eqb google_code "zh-TW" then "zh-TW-HsiaoChenNeural"
  else if String.eqb google_code "en" then "en-US-JennyNeural"
  else if String.eqb google_code "ja" then "ja-JP-NanamiNeural"
  else "en-US-JennyNeural".

(** The [except Exception] clause of [text_to_speech] of v1.0, line 596,
    for the value [temp_file] has when the exception arrives. *)
Definition text_to_speech_except (temp_file : option string) (e : Exn)
    : M (option string) :=
  print ("TTS 錯誤: " +:+ exn_str e) >>
  match temp_file with
  | Some p =>
      let! st := get in
      if negb (is_empty p) && bool_decide (is_Some (disk (world st) !! p)) then
        try_except (os_unlink p) is_OSError (fun _ => pass)
      else pass
  | None => pass
  end >>
  ret None.

Section Speech.

Variable env : Backends.

(** One branch of [text_to_speech] of v1.0 from its [NamedTemporaryFile]
    on: the file is created, the back end saves to it, and the path is
    tracked and returned (lines 576-578 and 592-594).  [temp_file] is
    [None] until the file is created, so the [try] is split there. *)
Definition save_to_temp_file (request : string -> Call) : M (option string) :=
  let! created :=
    try_except
      (let! name := NamedTemporaryFile env in ret (inl name))
      is_Exception
      (fun e => let! r := text_to_speech_except None e in ret (inr r)) in
  match created with
  | inl temp_file =>
      try_except
        (synthesize env (request temp_file) temp_file >>
         (if is_empty temp_file then pass
          else modify (fun st => set_temp_files (temp_files st ++ [temp_file]) st)) >>
         ret (Some temp_file))
        is_Exception
        (text_to_speech_except (Some temp_file))
  | inr r => ret r
  end.

(** [text_to_speech] of v1.0, line 560 *)
Definition text_to_speech (text : string) (language_codes : LangCodes)
    : M (option string) :=
  if is_empty text then ret None
  else
    let! st := get in
    let service := voice_combo (ui st) in
    if String.eqb service "Edge TTS" then
      save_to_temp_file (edge_tts_save text (voice_map_get (google language_codes)))
    else if String.eqb service "Google TTS" then
      save_to_temp_file (gTTS_save text (google language_codes))
    else if String.eqb service "System TTS (pyttsx3)" then
      save_to_temp_file (pyttsx3_save_to_file text)
    else ret None.

(** The [except Exception] clause of [speak_text] of v1.0, line 623 *)
Definition speak_text_except (e : Exn) : M unit :=
  message_box Warning "錯誤" ("播放音頻時發生錯誤: " +:+ exn_str e) >>
  let! st := get in
  match current_playing_file st with
  | Some p =>
      if is_empty p then pass
      else
        unlink_if_exists p >>
        (let! st := get in
         if contains p (temp_files st) then temp_files_remove p else pass) >>
        modify (set_current_playing_file None)
  | None => pass
  end.

(** [speak_text] of v1.0, line 605 *)
Definition speak_text (text : string) (language_codes : LangCodes) : M unit :=
  if is_empty text then pass
  else
    let! temp_file := text_to_speech text language_codes in
    match temp_file with
    | Some p =>
        if is_empty p then message_box Warning "錯誤" "無法生成語音文件。"
        else
          try_except
            (modify (set_current_playing_file (Some p)) >> player_play p)
            is_Exception
            speak_text_except
    | None => message_box Warning "錯誤" "無法生成語音文件。"
    end.

(** [handle_speak_button] of v1.0, line 655 *)
Definition handle_speak_button (text : string) (language : LangCodes) : M unit :=
  stop_audio >> speak_text text language.

End Speech.

End V10.

(* ===================================================================== *)
(** ** Start-up state and sample states                                  *)
(* ===================================================================== *)

(** The object when [__init__] returns: the settings are loaded, the
    panes are empty, the target combo shows its second item, the signals
    are connected and [update_editor_states] has run (line 178). *)
Definition init_app (keys : gmap string string) (examples : list Example)
    (files : gmap string File) : App :=
  {| translate_left_to_right := true;
     last_source_text := "";
     temp_files := [];
     current_playing_file := None;
     pyttsx3_voices := ∅;
     api_keys := keys;
     translation_examples := examples;
     translate_timer := None;
     player := {| playing := false; media_source := None |};
     ui := {| left_text :=
                {| toPlainText := ""; isReadOnly := false;
                   styleSheet := "background-color: white;";
                   textChanged_connected := true |};
              right_text :=
                {| toPlainText := ""; isReadOnly := true;
                   styleSheet := "background-color: #f0f0f0;";
                   textChanged_connected := true |};
              left_lang_combo := 0;
              right_lang_combo := 1;
              translator_combo := Groq_service;
              voice_combo := "Edge TTS";
              edge_voice_combo := "";
              pyttsx3_voice_combo := "";
              correction_input := "" |};
     world := {| disk := files; calls := []; dialogs := []; stdout := [] |};
     single_shots := [] |}.

(** The user types or pastes [txt] into a pane. *)
Definition with_text (is_left : bool) (txt : string) (st : App) : App :=
  set_pane is_left (set_toPlainText txt (pane is_left st)) st.

Definition with_correction (txt : string) (st : App) : App :=
  set_ui (set_correction_input txt (ui st)) st.

Definition with_translator (service : string) (st : App) : App :=
  set_ui {| left_text := left_text (ui st); right_text := right_text (ui st);
            left_lang_combo := left_lang_combo (ui st);
            right_lang_combo := right_lang_combo (ui st);
            translator_combo := service; voice_combo := voice_combo (ui st);
            edge_voice_combo := edge_voice_combo (ui st);
            pyttsx3_voice_combo := pyttsx3_voice_combo (ui st);
            correction_input := correction_input (ui st) |} st.

Definition with_voice_service (service : string) (st : App) : App :=
  set_ui {| left_text := left_text (ui st); right_text := right_text (ui st);
            left_lang_combo := left_lang_combo (ui st);
            right_lang_combo := right_lang_combo (ui st);
            translator_combo := translator_combo (ui st); voice_combo := service;
            edge_voice_combo := edge_voice_combo (ui st);
            pyttsx3_voice_combo := pyttsx3_voice_combo (ui st);
            correction_input := correction_input (ui st) |} st.

(** What holds of the object between two events: both [textChanged]
    signals are connected, each language combo has a current item, and the
    read-only flags follow the direction. *)
Definition valid_state (st : App) : Prop :=
  textChanged_connected (pane true st) = true /\
  textChanged_connected (pane false st) = true /\
  (0 <= lang_combo true st < 3) /\
  (0 <= lang_combo false st < 3) /\
  isReadOnly (pane true st) = negb (translate_left_to_right st) /\
  isReadOnly (pane false st) = translate_left_to_right st.

(** The list [save_correction] writes back to the settings when both texts
    are there (v1.1 lines 396-399). *)
Definition learned (examples : list Example) (new_example : Example) : list Example :=
  slice_from (-10)
    (if contains new_example examples then examples else examples ++ [new_example]).

(** Ten stored examples, oldest first. *)
Definition ten_examples : list Example :=
  [mkExample "one" "一"; mkExample "two" "二"; mkExample "three" "三";
   mkExample "four" "四"; mkExample "five" "五"; mkExample "six" "六";
   mkExample "seven" "七"; mkExample "eight" "八"; mkExample "nine" "九";
   mkExample "ten" "十"].

(** After a translation of "Hello" the user types a correction. *)
Definition learning_state (examples : list Example) (correction : string) : App :=
  with_correction correction (set_last_source_text "Hello" (init_app ∅ examples ∅)).

(** The object [swap_languages] leaves behind when it is run between two
    events (lemma [swap_languages_run]). *)
Definition swapped (st : App) : App :=
  let dir' := negb (translate_left_to_right st) in
  set_ui
    {| left_text :=
         {| toPlainText := toPlainText (right_text (ui st));
            isReadOnly := negb dir';
            styleSheet :=
              if dir' then "background-color: white;" else "background-color: #f0f0f0;";
            textChanged_connected := true |};
       right_text :=
         {| toPlainText := toPlainText (left_text (ui st));
            isReadOnly := dir';
            styleSheet :=
              if dir' then "background-color: #f0f0f0;" else "background-color: white;";
            textChanged_connected := true |};
       left_lang_combo := right_lang_combo (ui st);
       right_lang_combo := left_lang_combo (ui st);
       translator_combo := translator_combo (ui st);
       voice_combo := voice_combo (ui st);
       edge_voice_combo := edge_voice_combo (ui st);
       pyttsx3_voice_combo := pyttsx3_voice_combo (ui st);
       correction_input := correction_input (ui st) |}
    (set_translate_left_to_right dir'
      (set_translate_timer
         (if left_lang_combo (ui st) =? right_lang_combo (ui st)
          then translate_timer st else Some 50)
         (set_player {| playing := false; media_source := media_source (player st) |}
            st))).

(** The object with the calls [cs] added to the record of calls. *)
Definition with_calls (cs : list Call) (st : App) : App :=
  set_world (set_calls (calls (world st) ++ cs) (world st)) st.

(** A swap that schedules and runs no translation: the timer and the record
    of calls are as before. *)
Definition swap_triggers_nothing (st : App) : Prop :=
  translate_timer (exec swap_languages st) = translate_timer st /\
  calls (world (exec swap_languages st)) = calls (world st).

Definition is_provider_call (c : Call) : bool :=
  match c with
  | GoogleTranslator_translate _ _ _ | Groq_chat_completions_create _ _ _
  | Gemini_generate_content _ _ _ | ts_translate_text _ _ _ _
  | DeepL_translate_text _ _ _ _ => true
  | _ => false
  end.

(** The text an exception leaves in the target pane (line 512). *)
Definition error_text (e : Exn) : string := "翻譯錯誤: " +:+ exn_str e.

(** During [translate_text], every provider call that returns [out] is
    followed by exactly one call, the OpenCC [s2twp] conversion of
    [post out], and the target pane ends with what that conversion returns
    (or with its error). *)
Definition normalized_via (env : Backends) (post : string -> string) (st : App) : Prop :=
  let st' := exec (translate_text env) st in
  forall pre c rest out,
    calls (world st') = calls (world st) ++ pre ++ c :: rest ->
    is_provider_call c = true ->
    reply env (calls (world st) ++ pre) c = Returned out ->
    rest = [OpenCC_convert "s2twp" (post out)] /\
    toPlainText (pane (target_side st) st') =
      match reply env (calls (world st) ++ pre ++ [c])
              (OpenCC_convert "s2twp" (post out)) with
      | Returned converted => converted
      | Raised e => error_text e
      end.

(** The provider's output goes through the conversion before it is
    written, whatever trimming [post] comes in between. *)
Definition normalized_before_written (env : Backends) (st : App) : Prop :=
  exists post, normalized_via env post st.

(** Back ends for the sample runs: the providers answer in simplified
    script, OpenCC turns it into the Taiwanese forms, DeepL is out of
    quota, and no speech back end writes anything. *)
Definition sample_reply (history : list Call) (c : Call) : Outcome string :=
  match c with
  | OpenCC_convert _ text =>
      Returned (if String.eqb text "简体" then "簡體" else text)
  | Groq_chat_completions_create _ _ _ =>
      Returned (" " +:+ dquote +:+ "简体" +:+ dquote +:+ newline)
  | Gemini_generate_content _ _ _ => Returned "简体"
  | ts_translate_text _ _ _ _ => Returned "简体"
  | GoogleTranslator_translate _ _ _ => Returned "你好"
  | DeepL_translate_text _ _ _ _ => Raised (mkExn Exception "Quota Exceeded")
  | _ => Returned ""
  end.

Definition sample_env : Backends :=
  {| reply := sample_reply;
     random_sample := fun examples k => take k examples;
     mkstemp := fun _ => "/tmp/tmpk3v9q1.mp3";
     synthesized := fun _ _ => (0, None) |}.

Definition sample_keys : gmap string string :=
  <[Groq_service := "gsk-1"]> (<[Gemini_service := "AIza-1"]> ∅).

(** English on the left, Chinese on the right, "Hello" typed on the left. *)
Definition english_to_chinese (service : string) : App :=
  with_translator service
    (with_text true "Hello"
       (set_lang_combo false 0 (set_lang_combo true 1 (init_app sample_keys [] ∅)))).

(** The three ways a provider branch that ends in the [s2twp] conversion
    can go, from the object [st]: it raises before any call (no key), its
    provider call raises, or the provider call returns [content] and
    [post content] is handed to OpenCC, whose answer is the result. *)
Inductive normalizing_run (env : Backends) (post : string -> string) (st : App)
    : Outcome string * App -> Prop :=
| run_refused (e : Exn) :
    normalizing_run env post st (Raised e, st)
| run_failed (c : Call) (e : Exn) :
    is_provider_call c = true ->
    reply env (calls (world st)) c = Raised e ->
    normalizing_run env post st (Raised e, with_calls [c] st)
| run_converted (c : Call) (content : string) :
    is_provider_call c = true ->
    reply env (calls (world st)) c = Returned content ->
    normalizing_run env post st
      (reply env (calls (world st) ++ [c]) (OpenCC_convert "s2twp" (post content)),
       with_calls [c; OpenCC_convert "s2twp" (post content)] st).

(** [os.unlink(path)] succeeds on the disk [d]: the file is there and no
    other process holds it. *)
Definition deletable (d : gmap string File) (path : string) : bool :=
  match d !! path with
  | Some f => negb (locked f)
  | None => false
  end.

(** The object after [print(line)]. *)
Definition printed (line : string) (st : App) : App :=
  set_world (set_stdout (stdout (world st) ++ [line]) (world st)) st.


(** After shutdown nothing is tracked and no path that was tracked is
    still on disk. *)
Definition shutdown_leaves_nothing (st : App) : Prop :=
  let st' := exec cleanup_all_temp_files st in
  temp_files st' = [] /\
  forall p, p ∈ temp_files st -> disk (world st') !! p = None.

(** [lines] are the lines printed for the paths [paths], one each and in
    their order: for a path, [report] of the path and of what [os.unlink]
    raises for it in [st]. *)
Definition unlink_errors_printed (st : App) (report : string -> Exn -> string)
    (paths lines : list string) : Prop :=
  Forall2 (fun p line =>
             exists e, os_unlink p st = (Raised e, st) /\ line = report p e)
          paths lines.

(** Two tracked files; the second is being played and the media back end
    still holds it open. *)
Definition sample_disk : gmap string File :=
  <["/tmp/tmpa1.mp3" := mkFile 4096 false]>
    (<["/tmp/tmpb2.mp3" := mkFile 8192 true]> ∅).

Definition playing_second_file : App :=
  set_player {| playing := true; media_source := Some "/tmp/tmpb2.mp3" |}
    (set_current_playing_file (Some "/tmp/tmpb2.mp3")
       (set_temp_files ["/tmp/tmpa1.mp3"; "/tmp/tmpb2.mp3"]
          (init_app ∅ [] sample_disk))).


(* ===================================================================== *)
(** ** Events and reachable states                                       *)
(* ===================================================================== *)

Definition with_edge_voice (voice : string) (st : App) : App :=
  set_ui {| left_text := left_text (ui st); right_text := right_text (ui st);
            left_lang_combo := left_lang_combo (ui st);
            right_lang_combo := right_lang_combo (ui st);
            translator_combo := translator_combo (ui st);
            voice_combo := voice_combo (ui st);
            edge_voice_combo := voice;
            pyttsx3_voice_combo := pyttsx3_voice_combo (ui st);
            correction_input := correction_input (ui st) |} st.

(** What the user, the timer, the media player and the media back end can
    make happen between two runs of the event loop. *)
Inductive Event :=
| UserTypes (is_left : bool) (txt : string)
| UserTypesCorrection (txt : string)
| UserPicksLanguage (is_left : bool) (i : Z)
| UserPicksTranslator (service : string)
| UserPicksVoiceService (service : string)
| UserPicksEdgeVoice (voice : string)
| TimerFires
| ClicksTranslate
| ClicksSwap
| ClicksLearn
| ClicksSpeak (is_left : bool)
| MediaEnds
| WindowCloses
| BackendHolds (path : string) (held : bool).

Section Events.

Variable env : Backends.

(** The slot each event runs, as [_connect_signals] and [__init__] wire
    them.  A read-only pane takes no typing; a combo only offers its items;
    the media back end opens and releases files on its own. *)
Definition on_event (ev : Event) : M unit :=
  match ev with
  | UserTypes is_left txt =>
      let! st := get in
      if isReadOnly (pane is_left st) then pass else setPlainText is_left txt
  | UserTypesCorrection txt => modify (with_correction txt)
  | UserPicksLanguage is_left i =>
      if (0 <=? i) && (i <? 3) then lang_combo_setCurrentIndex is_left i else pass
  | UserPicksTranslator service =>
      let! st := get in
      if String.eqb service (translator_combo (ui st)) then pass
      else modify (with_translator service) >> trigger_translation
  | UserPicksVoiceService service => modify (with_voice_service service)
  | UserPicksEdgeVoice voice => modify (with_edge_voice voice)
  | TimerFires =>
      let! st := get in
      match translate_timer st with
      | Some _ => translate_timer_timeout env
      | None => pass
      end
  | ClicksTranslate => translate_text env
  | ClicksSwap => swap_languages
  | ClicksLearn => save_correction
  | ClicksSpeak is_left =>
      let! st := get in
      speak_text env (toPlainText (pane is_left st))
        (get_lang_code (currentText lang_items (lang_combo is_left st)))
  | MediaEnds =>
      modify (fun st =>
        set_player {| playing := false; media_source := media_source (player st) |} st) >>
      handle_end_of_media
  | WindowCloses => cleanup_all_temp_files
  | BackendHolds path held =>
      modify (set_disk_of (alter (fun f => mkFile (size f) held) path))
  end.

(** The states the program can be in between two events, whatever keys
    and examples the settings hold and whatever files are on disk when it
    starts: [load_settings] takes the saved keys as they are, and nothing
    reads the stored examples before [translate_text] or [save_correction]
    does. *)
Inductive reachable : App -> Prop :=
| reachable_init (keys : gmap string string) (examples : list Example)
    (files : gmap string File) :
    reachable (init_app keys examples files)
| reachable_step (st : App) (ev : Event) :
    reachable st -> reachable (exec (on_event ev) st).

End Events.

(** The tracked paths are pairwise distinct and their files exist. *)
Definition tracked_files_ok (st : App) : Prop :=
  NoDup (temp_files st) /\
  forall p, p ∈ temp_files st -> is_Some (disk (world st) !! p).

(** What the events keep: the widgets are as between two events, the
    tracked files are distinct and on disk, and the stored examples are at
    most 10, or at most [bound] when the settings held more than 10 at
    start-up (theorem [reachable_invariant]). *)
Definition invariant (bound : nat) (st : App) : Prop :=
  valid_state st /\
  (length (translation_examples st) <= Nat.max 10 bound)%nat /\
  tracked_files_ok st.

(** [m], started where [P] holds, ends where [Q a] holds when it returns
    [a] and where [E] holds when it raises. *)
Definition hoare {A} (P : App -> Prop) (m : M A) (Q : A -> App -> Prop)
    (E : App -> Prop) : Prop :=
  forall st, P st ->
    match m st with
    | (Returned a, st') => Q a st'
    | (Raised _, st') => E st'
    end.

(** [st'] has the widgets, the direction, the stored examples, the tracked
    list and the disk of [st]. *)
Definition same_core (st st' : App) : Prop :=
  ui st' = ui st /\
  translate_left_to_right st' = translate_left_to_right st /\
  translation_examples st' = translation_examples st /\
  temp_files st' = temp_files st /\
  disk (world st') = disk (world st).

(** The invariant, with the file at [p] on disk. *)
Definition kept_file (bound : nat) (p : string) (st : App) : Prop :=
  invariant bound st /\ is_Some (disk (world st) !! p).

(** The invariant, with the file at [p] on disk and not tracked: the state
    of [text_to_speech] between the creation of the temporary file and the
    [append]. *)
Definition untracked_file (bound : nat) (p : string) (st : App) : Prop :=
  invariant bound st /\ is_Some (disk (world st) !! p) /\ p ∉ temp_files st.

(** The object after a sequence of events. *)
Fixpoint run_events (env : Backends) (evs : list Event) (st : App) : App :=
  match evs with
  | [] => st
  | ev :: evs' => run_events env evs' (exec (on_event env ev) st)
  end.

(** A session: English to Chinese with the free Google service; "Hello"
    is typed and the debounce timer fires. *)
Definition translated_hello : App :=
  run_events sample_env
    [UserPicksLanguage true 1; UserPicksLanguage false 0;
     UserPicksTranslator Google_service; UserTypes true "Hello"; TimerFires]
    (init_app sample_keys [] ∅).

(** Eleven stored examples: the settings are read as they are, and no
    more than what [save_correction] wrote need be in them. *)
Definition eleven_examples : list Example := mkExample "zero" "零" :: ten_examples.

(** A session started with these eleven: "seven" is translated, and the
    user types the translation that is already stored for it. *)
Definition relearning_seven : App :=
  run_events sample_env
    [UserTypes true "seven"; ClicksTranslate; UserTypesCorrection "七"]
    (init_app ∅ eleven_examples ∅).

(** The same session with Gemini Pro selected, before the timer fires. *)
Definition typed_hello_for_Gemini : App :=
  run_events sample_env
    [UserPicksLanguage true 1; UserPicksLanguage false 0;
     UserPicksTranslator Gemini_service; UserTypes true "Hello"]
    (init_app sample_keys [] ∅).

(** Back ends whose speech service writes 4 KiB; [tempfile] picks the
    first of two names that is free. *)
Definition speech_env : Backends :=
  {| reply := sample_reply;
     random_sample := fun examples k => take k examples;
     mkstemp := fun d =>
       match d !! "/tmp/tmpa1.mp3" with
       | None => "/tmp/tmpa1.mp3"
       | Some _ => "/tmp/tmpb2.mp3"
       end;
     synthesized := fun _ _ => (4096, None) |}.

(** A session: "Hello" is spoken twice with Google TTS; the second file is
    playing and the media back end holds it open. *)
Definition speaking_twice : App :=
  run_events speech_env
    [UserPicksVoiceService "Google TTS"; UserTypes true "Hello";
     ClicksSpeak true; ClicksSpeak true; BackendHolds "/tmp/tmpb2.mp3" true]
    (init_app ∅ [] ∅).

(* ===================================================================== *)
(** ** Saved keys                                                        *)
(* ===================================================================== *)

Definition set_api_keys (v : gmap string string) (s : App) : App :=
  {| translate_left_to_right := translate_left_to_right s;
     last_source_text := last_source_text s;
     temp_files := temp_files s; current_playing_file := current_playing_file s;
     pyttsx3_voices := pyttsx3_voices s; api_keys := v;
     translation_examples := translation_examples s;
     translate_timer := translate_timer s; player := player s;
     ui := ui s; world := world s; single_shots := single_shots s |}.

(** [save_api_key], v1.1 line 380, for the text [api_key_input] the key
    field holds; the dictionary written to the settings is the one kept in
    [self.api_keys]. *)
Definition save_api_key (api_key_input : string) : M unit :=
  let! st := get in
  let service := translator_combo (ui st) in
  let api_key := strip api_key_input in
  modify (set_api_keys (<[service := api_key]> (api_keys st))) >>
  message_box Information "成功" (service +:+ " 的 API Key 已保存").

(** [handle_translator_service_changed], v1.1 line 404; what it returns
    here is the text it puts into the key field. *)
Definition handle_translator_service_changed (service : string) : M string :=
  let! st := get in
  let shown := default "" (api_keys st !! service) in
  trigger_translation >> ret shown.

(** The services whose branch of [translate_text] asks for a saved key,
    with the message raised without one. *)
Definition key_services : list (string * string) :=
  [(Groq_service, "請先在設定中保存 Groq API Key");
   (Gemini_service, "請先保存 Gemini Pro API Key");
   (DeepL_service, "請先設置 DeepL API Key")].

(* ===================================================================== *)
(** ** What a method leaves alone                                        *)
(* ===================================================================== *)

(** No exception escapes [m]: from every state it returns. *)
Definition never_raises {A} (m : M A) : Prop :=
  forall st, exists a st', m st = (Returned a, st').

(** [st'] tracks what [st] tracks and has every file of [st] as it was. *)
Definition same_files (st st' : App) : Prop :=
  temp_files st' = temp_files st /\
  forall p f, disk (world st) !! p = Some f -> disk (world st') !! p = Some f.

(** [st'] still tracks what [st] tracked, in the same order and ahead of
    anything new, and has every file of [st] as it was. *)
Definition keeps_files (st st' : App) : Prop :=
  (exists new, temp_files st' = temp_files st ++ new /\ (length new <= 1)%nat) /\
  forall p f, disk (world st) !! p = Some f -> disk (world st') !! p = Some f.

(** The media back end holds the file at [path] open. *)
Definition held (d : gmap string File) (path : string) : bool :=
  match d !! path with
  | Some f => locked f
  | None => false
  end.

(** A session: "Hello" is spoken once with Google TTS and is playing. *)
Definition spoken_once : App :=
  run_events speech_env
    [UserPicksVoiceService "Google TTS"; UserTypes true "Hello"; ClicksSpeak true]
    (init_app ∅ [] ∅).

(** Back ends whose speech service fails after the file was created. *)
Definition failing_speech_env : Backends :=
  {| reply := sample_reply;
     random_sample := fun examples k => take k examples;
     mkstemp := fun _ => "/tmp/tmpk3v9q1.mp3";
     synthesized := fun _ _ => (0, Some (mkExn RuntimeError "No audio was received")) |}.

(* ===================================================================== *)
(** ** The voices of Edge TTS and the combos that offer them             *)
(* ===================================================================== *)

(** One entry of [voices.voices], with the keys the loader reads. *)
Record Voice := mkVoice { Locale : string; Gender : string; ShortName : string }.

(** [self.edge_tts_voices]: language group, then region, then gender, then
    the short names in the order they were appended. *)
Abbreviation Catalog := (gmap string (gmap string (gmap string (list string)))).

(** [s.split(sep)] for a one-character [sep] *)
Fixpoint str_split (sep : ascii) (s : string) : list string :=
  match s with
  | EmptyString => [EmptyString]
  | String c s' =>
      if Ascii.eqb c sep then EmptyString :: str_split sep s'
      else
        match str_split sep s' with
        | [] => [String c EmptyString]
        | part :: parts => String c part :: parts
        end
  end.

(** [lang_map.get(lang_code, lang_code)], line 78 *)
Definition lang_map_get (lang_code : string) : string :=
  if String.eqb lang_code "zh" then "中文"
  else if String.eqb lang_code "en" then "英文"
  else if String.eqb lang_code "ja" then "日文"
  else if String.eqb lang_code "ko" then "韓文"
  else if String.eqb lang_code "fr" then "法文"
  else if String.eqb lang_code "de" then "德文"
  else if String.eqb lang_code "es" then "西班牙文"
  else lang_code.

(** [region_map.get(region_code, region_code)], line 79 *)
Definition region_map_get (region_code : string) : string :=
  if String.eqb region_code "CN" then "中國"
  else if String.eqb region_code "TW" then "台灣"
  else if String.eqb region_code "HK" then "香港"
  else if String.eqb region_code "US" then "美國"
  else if String.eqb region_code "GB" then "英國"
  else if String.eqb region_code "AU" then "澳洲"
  else if String.eqb region_code "CA" then "加拿大"
  else if String.eqb region_code "IN" then "印度"
  else region_code.

(** The three keys a voice is filed under, lines 75-81; [None] where
    [locale_parts[1]] raises [IndexError]. *)
Definition catalog_keys (voice : Voice) : option (string * string * string) :=
  match str_split "-" (Locale voice) with
  | lang_code :: region_code :: _ =>
      let lang_group := lang_map_get lang_code in
      let region_name := region_map_get region_code in
      let full_region_name := region_name +:+ " (" +:+ Locale voice +:+ ")" in
      Some (lang_group, full_region_name, Gender voice)
  | _ => None
  end.

(** [catalog[lang_group][region][gender].append(name)] on the nested
    [defaultdict]s *)
Definition catalog_append (lang_group region gender name : string) (catalog : Catalog)
    : Catalog :=
  let regions := default ∅ (catalog !! lang_group) in
  let genders := default ∅ (regions !! region) in
  let names := default [] (genders !! gender) in
  <[lang_group := <[region := <[gender := names ++ [name]]> genders]> regions]> catalog.

(** The loop of [_fetch_edge_voices_async], lines 74-83 *)
Fixpoint file_voices (voices : list Voice) (catalog : Catalog) : option Catalog :=
  match voices with
  | [] => Some catalog
  | voice :: voices' =>
      match catalog_keys voice with
      | Some (lang_group, region, gender) =>
          file_voices voices' (catalog_append lang_group region gender (ShortName voice) catalog)
      | None => None
      end
  end.

(** The signals of [VoiceLoader] *)
Inductive Signal :=
| edge_voices_loaded (voices : Catalog)
| pyttsx3_voices_loaded (voices : list (string * string))
| error_occurred (title message : string).

(** [_fetch_edge_voices_async], v1.1 line 64, for what
    [edge_tts.VoicesManager.create()] gives: the signal it emits. *)
Definition fetch_edge_voices (created : Outcome (list Voice)) : Signal :=
  let failed (e : string) :=
    error_occurred "Edge TTS 載入失敗"
      ("無法獲取線上語音列表，請檢查網路連線。" +:+ newline +:+ e) in
  match created with
  | Returned voices =>
      match file_voices voices ∅ with
      | Some catalog => edge_voices_loaded catalog
      | None => failed "list index out of range"
      end
  | Raised e => failed (exn_str e)
  end.

(** [catalog.get(lang_group, {}).get(region, {}).get(gender, [])], line 373 *)
Definition voices_of (catalog : Catalog) (lang_group region gender : string) : list string :=
  default [] (default ∅ (default ∅ (catalog !! lang_group) !! region) !! gender).

(** No key of the catalog is the empty string and nothing in it is empty:
    what the nested [defaultdict]s give when every voice has a language
    code and a gender. *)
Definition well_formed (catalog : Catalog) : Prop :=
  forall lang_group regions, catalog !! lang_group = Some regions ->
    lang_group <> "" /\ regions <> ∅ /\
    forall region genders, regions !! region = Some genders ->
      region <> "" /\ genders <> ∅ /\
      forall gender names, genders !! gender = Some names ->
        gender <> "" /\ names <> [].

(** Five voices of the service, as [voices.voices] lists them. *)
Definition sample_voices : list Voice :=
  [mkVoice "zh-TW" "Female" "zh-TW-HsiaoChenNeural";
   mkVoice "en-US" "Female" "en-US-JennyNeural";
   mkVoice "zh-TW" "Male" "zh-TW-YunJheNeural";
   mkVoice "zh-CN" "Female" "zh-CN-XiaoxiaoNeural";
   mkVoice "zh-TW" "Female" "zh-TW-HsiaoYuNeural"].

Definition sample_catalog : Catalog := default ∅ (file_voices sample_voices ∅).

Module VoiceOptions.

(** A [QComboBox] that is not editable: its items, its current index
    ([-1]: no current item) and whether it is enabled. *)
Record QComboBox := mkComboBox {
  items : list string;
  currentIndex : Z;
  isEnabled : bool
}.

(** [QComboBox()] *)
Definition new_combo : QComboBox :=
  {| items := []; currentIndex := -1; isEnabled := true |}.

Definition setEnabled (v : bool) (c : QComboBox) : QComboBox :=
  {| items := items c; currentIndex := currentIndex c; isEnabled := v |}.

Definition text (c : QComboBox) : string := currentText (items c) (currentIndex c).

(** [clear()] *)
Definition clear (c : QComboBox) : QComboBox :=
  {| items := []; currentIndex := -1; isEnabled := isEnabled c |}.

(** [addItems(new)]: the first item put into an empty combo becomes the
    current one. *)
Definition addItems (new : list string) (c : QComboBox) : QComboBox :=
  match new with
  | [] => c
  | _ :: _ =>
      {| items := items c ++ new;
         currentIndex := if bool_decide (items c = []) then 0 else currentIndex c;
         isEnabled := isEnabled c |}
  end.

(** [setCurrentIndex(i)] *)
Definition setCurrentIndex (i : Z) (c : QComboBox) : QComboBox :=
  {| items := items c; currentIndex := checked_index (items c) i;
     isEnabled := isEnabled c |}.

(** [findText(t)]: the index of the first item equal to [t], or [-1]. *)
Fixpoint findText (t : string) (l : list string) : Z :=
  match l with
  | [] => -1
  | x :: l' =>
      if String.eqb x t then 0
      else let i := findText t l' in if i <? 0 then -1 else i + 1
  end.

(** [setCurrentText(t)] of a combo that is not editable: the item with
    that text becomes current, if there is one. *)
Definition setCurrentText (t : string) (c : QComboBox) : QComboBox :=
  let i := findText t (items c) in
  if (0 <=? i) || is_empty t then setCurrentIndex i c else c.

(** [sorted(l)] of a list of [str]: by code point, which is the byte order
    of the UTF-8 encodings. *)
Definition sorted (l : list string) : list string := merge_sort String.le l.

(** [d.keys()], as a list in some order *)
Definition keys {A} (d : gmap string A) : list string := (map_to_list d).*1.

(** The part of [self] behind the voice options: the current text of the
    voice service combo, the loaded voices and the four combos that
    [_create_edge_tts_options] makes. *)
Record Options := mkOptions {
  voice_combo : string;
  edge_tts_voices : Catalog;
  edge_lang_group_combo : QComboBox;
  edge_region_combo : QComboBox;
  edge_gender_combo : QComboBox;
  edge_voice_combo : QComboBox;
  pyttsx3_voices : list (string * string);   (* a [dict]: its items, in the order of its keys *)
  pyttsx3_voice_combo : QComboBox
}.

Definition set_edge_tts_voices (v : Catalog) (w : Options) : Options :=
  {| voice_combo := voice_combo w; edge_tts_voices := v;
     edge_lang_group_combo := edge_lang_group_combo w;
     edge_region_combo := edge_region_combo w;
     edge_gender_combo := edge_gender_combo w;
     edge_voice_combo := edge_voice_combo w;
     pyttsx3_voices := pyttsx3_voices w;
     pyttsx3_voice_combo := pyttsx3_voice_combo w |}.
Definition set_edge_lang_group_combo (v : QComboBox) (w : Options) : Options :=
  {| voice_combo := voice_combo w; edge_tts_voices := edge_tts_voices w;
     edge_lang_group_combo := v;
     edge_region_combo := edge_region_combo w;
     edge_gender_combo := edge_gender_combo w;
     edge_voice_combo := edge_voice_combo w;
     pyttsx3_voices := pyttsx3_voices w;
     pyttsx3_voice_combo := pyttsx3_voice_combo w |}.
Definition set_edge_region_combo (v : QComboBox) (w : Options) : Options :=
  {| voice_combo := voice_combo w; edge_tts_voices := edge_tts_voices w;
     edge_lang_group_combo := edge_lang_group_combo w;
     edge_region_combo := v;
     edge_gender_combo := edge_gender_combo w;
     edge_voice_combo := edge_voice_combo w;
     pyttsx3_voices := pyttsx3_voices w;
     pyttsx3_voice_combo := pyttsx3_voice_combo w |}.
Definition set_edge_gender_combo (v : QComboBox) (w : Options) : Options :=
  {| voice_combo := voice_combo w; edge_tts_voices := edge_tts_voices w;
     edge_lang_group_combo := edge_lang_group_combo w;
     edge_region_combo := edge_region_combo w;
     edge_gender_combo := v;
     edge_voice_combo := edge_voice_combo w;
     pyttsx3_voices := pyttsx3_voices w;
     pyttsx3_voice_combo := pyttsx3_voice_combo w |}.
Definition set_edge_voice_combo (v : QComboBox) (w : Options) : Options :=
  {| voice_combo := voice_combo w; edge_tts_voices := edge_tts_voices w;
     edge_lang_group_combo := edge_lang_group_combo w;
     edge_region_combo := edge_region_combo w;
     edge_gender_combo := edge_gender_combo w;
     edge_voice_combo := v;
     pyttsx3_voices := pyttsx3_voices w;
     pyttsx3_voice_combo := pyttsx3_voice_combo w |}.

(** A combo is changed; when its current text is another one afterwards,
    [currentTextChanged] runs the connected slot with the new text. *)
Definition change_combo (combo : Options -> QComboBox)
    (set_combo : QComboBox -> Options -> Options)
    (slot : string -> Options -> Options)
    (f : QComboBox -> QComboBox) (w : Options) : Options :=
  let before := text (combo w) in
  let w' := set_combo (f (combo w)) w in
  let after := text (combo w') in
  if String.eqb before after then w' else slot after w'.

(** [update_edge_voices], v1.1 line 367; nothing is connected to the
    signals of the voice combo. *)
Definition update_edge_voices (gender : string) (w : Options) : Options :=
  let lang_group := text (edge_lang_group_combo w) in
  let region := text (edge_region_combo w) in
  if is_empty lang_group || is_empty region || is_empty gender then w
  else
    let w := set_edge_voice_combo (clear (edge_voice_combo w)) w in
    let voices := sorted (voices_of (edge_tts_voices w) lang_group region gender) in
    set_edge_voice_combo (addItems voices (edge_voice_combo w)) w.

Definition change_gender_combo : (QComboBox -> QComboBox) -> Options -> Options :=
  change_combo edge_gender_combo set_edge_gender_combo update_edge_voices.

(** [update_edge_genders], v1.1 line 359 *)
Definition update_edge_genders (region : string) (w : Options) : Options :=
  let lang_group := text (edge_lang_group_combo w) in
  if is_empty lang_group || is_empty region then w
  else
    let w := change_gender_combo clear w in
    let genders :=
      sorted (keys (default ∅ (default ∅ (edge_tts_voices w !! lang_group) !! region))) in
    change_gender_combo (addItems genders) w.

Definition change_region_combo : (QComboBox -> QComboBox) -> Options -> Options :=
  change_combo edge_region_combo set_edge_region_combo update_edge_genders.

(** [update_edge_regions], v1.1 line 352 *)
Definition update_edge_regions (lang_group : string) (w : Options) : Options :=
  if is_empty lang_group then w
  else
    let w := change_region_combo clear w in
    let regions := sorted (keys (default ∅ (edge_tts_voices w !! lang_group))) in
    change_region_combo (addItems regions) w.

Definition change_lang_group_combo : (QComboBox -> QComboBox) -> Options -> Options :=
  change_combo edge_lang_group_combo set_edge_lang_group_combo update_edge_regions.

(** [update_edge_lang_groups], v1.1 line 345 *)
Definition update_edge_lang_groups (w : Options) : Options :=
  let w := change_lang_group_combo clear w in
  let w := change_lang_group_combo (addItems (sorted (keys (edge_tts_voices w)))) w in
  if bool_decide (is_Some (edge_tts_voices w !! "中文")) then
    change_lang_group_combo (setCurrentText "中文") w
  else w.

(** [_create_edge_tts_options], v1.1 line 299 *)
Definition _create_edge_tts_options (w : Options) : Options :=
  {| voice_combo := voice_combo w; edge_tts_voices := edge_tts_voices w;
     edge_lang_group_combo := setEnabled false new_combo;
     edge_region_combo := new_combo;
     edge_gender_combo := new_combo;
     edge_voice_combo := new_combo;
     pyttsx3_voices := pyttsx3_voices w;
     pyttsx3_voice_combo := pyttsx3_voice_combo w |}.

(** [on_edge_voices_loaded], v1.1 line 327 *)
Definition on_edge_voices_loaded (voices : Catalog) (w : Options) : Options :=
  let w := set_edge_tts_voices voices w in
  if String.eqb (voice_combo w) "Edge TTS" then
    update_edge_lang_groups
      (set_edge_lang_group_combo (setEnabled true (edge_lang_group_combo w)) w)
  else w.

Definition set_voice_combo (v : string) (w : Options) : Options :=
  {| voice_combo := v; edge_tts_voices := edge_tts_voices w;
     edge_lang_group_combo := edge_lang_group_combo w;
     edge_region_combo := edge_region_combo w;
     edge_gender_combo := edge_gender_combo w;
     edge_voice_combo := edge_voice_combo w;
     pyttsx3_voices := pyttsx3_voices w;
     pyttsx3_voice_combo := pyttsx3_voice_combo w |}.
Definition set_pyttsx3_voices (v : list (string * string)) (w : Options) : Options :=
  {| voice_combo := voice_combo w; edge_tts_voices := edge_tts_voices w;
     edge_lang_group_combo := edge_lang_group_combo w;
     edge_region_combo := edge_region_combo w;
     edge_gender_combo := edge_gender_combo w;
     edge_voice_combo := edge_voice_combo w;
     pyttsx3_voices := v;
     pyttsx3_voice_combo := pyttsx3_voice_combo w |}.
Definition set_pyttsx3_voice_combo (v : QComboBox) (w : Options) : Options :=
  {| voice_combo := voice_combo w; edge_tts_voices := edge_tts_voices w;
     edge_lang_group_combo := edge_lang_group_combo w;
     edge_region_combo := edge_region_combo w;
     edge_gender_combo := edge_gender_combo w;
     edge_voice_combo := edge_voice_combo w;
     pyttsx3_voices := pyttsx3_voices w;
     pyttsx3_voice_combo := v |}.

(** [_create_pyttsx3_options], v1.1 line 320 *)
Definition _create_pyttsx3_options (w : Options) : Options :=
  set_pyttsx3_voice_combo (setEnabled false new_combo) w.

(** [on_pyttsx3_voices_loaded], v1.1 line 334 *)
Definition on_pyttsx3_voices_loaded (voices : list (string * string)) (w : Options)
    : Options :=
  let w := set_pyttsx3_voices voices w in
  if String.eqb (voice_combo w) "System TTS (pyttsx3)" then
    let w := set_pyttsx3_voice_combo (addItems voices.*1 (pyttsx3_voice_combo w)) w in
    set_pyttsx3_voice_combo (setEnabled true (pyttsx3_voice_combo w)) w
  else w.

(** [handle_voice_service_changed], v1.1 line 281; the widgets of the
    options it replaces are deleted and no longer reached. *)
Definition handle_voice_service_changed (w : Options) : Options :=
  let service := voice_combo w in
  if String.eqb service "Edge TTS" then
    let w := _create_edge_tts_options w in
    if bool_decide (edge_tts_voices w <> ∅) then update_edge_lang_groups w else w
  else if String.eqb service "System TTS (pyttsx3)" then
    let w := _create_pyttsx3_options w in
    match pyttsx3_voices w with
    | [] => w
    | _ :: _ =>
        set_pyttsx3_voice_combo (addItems (pyttsx3_voices w).*1 (pyttsx3_voice_combo w)) w
    end
  else w.

(** The options when [init_ui] returns (line 179): the service combo shows
    its first item and no voices are loaded yet. *)
Definition init_options : Options :=
  handle_voice_service_changed
    {| voice_combo := "Edge TTS"; edge_tts_voices := ∅;
       edge_lang_group_combo := new_combo; edge_region_combo := new_combo;
       edge_gender_combo := new_combo; edge_voice_combo := new_combo;
       pyttsx3_voices := []; pyttsx3_voice_combo := new_combo |}.

(** What the user and the voice loader can make happen. *)
Inductive VoiceEvent :=
| PicksService (service : string)
| PicksLangGroup (i : Z)
| PicksRegion (i : Z)
| PicksGender (i : Z)
| PicksVoice (i : Z)
| EdgeVoicesLoaded (voices : Catalog)
| Pyttsx3VoicesLoaded (voices : list (string * string)).

(** A combo lets the user pick one of its items, when it is enabled. *)
Definition can_pick (i : Z) (c : QComboBox) : bool :=
  isEnabled c && (0 <=? i) && (i <? Z.of_nat (length (items c))).

(** The slots the events run (lines 257, 277-278 and 315-317). *)
Definition on_voice_event (ev : VoiceEvent) (w : Options) : Options :=
  match ev with
  | PicksService service =>
      if String.eqb service (voice_combo w) then w
      else handle_voice_service_changed (set_voice_combo service w)
  | PicksLangGroup i =>
      if can_pick i (edge_lang_group_combo w)
      then change_lang_group_combo (setCurrentIndex i) w else w
  | PicksRegion i =>
      if can_pick i (edge_region_combo w)
      then change_region_combo (setCurrentIndex i) w else w
  | PicksGender i =>
      if can_pick i (edge_gender_combo w)
      then change_gender_combo (setCurrentIndex i) w else w
  | PicksVoice i =>
      if can_pick i (edge_voice_combo w)
      then set_edge_voice_combo (setCurrentIndex i (edge_voice_combo w)) w else w
  | EdgeVoicesLoaded voices => on_edge_voices_loaded voices w
  | Pyttsx3VoicesLoaded voices => on_pyttsx3_voices_loaded voices w
  end.

(** The combo [c] lists the sorted [l] and one of them is current. *)
Definition shows (c : QComboBox) (l : list string) : Prop :=
  items c = sorted l /\ 0 <= currentIndex c < Z.of_nat (length (items c)).

(** Each combo lists what the loaded voices hold under the texts selected
    above it. *)
Definition consistent (w : Options) : Prop :=
  let catalog := edge_tts_voices w in
  let lang_group := text (edge_lang_group_combo w) in
  let region := text (edge_region_combo w) in
  let gender := text (edge_gender_combo w) in
  shows (edge_lang_group_combo w) (keys catalog) /\
  shows (edge_region_combo w) (keys (default ∅ (catalog !! lang_group))) /\
  shows (edge_gender_combo w)
    (keys (default ∅ (default ∅ (catalog !! lang_group) !! region))) /\
  shows (edge_voice_combo w) (voices_of catalog lang_group region gender).

(** The combo [c] after [clear()] and [addItems(l)]. *)
Definition refilled (l : list string) (c : QComboBox) : QComboBox :=
  {| items := l; currentIndex := if bool_decide (l = []) then -1 else 0;
     isEnabled := isEnabled c |}.

(** The first of the sorted [l], the text a combo refilled with them shows. *)
Definition first (l : list string) : string := default "" (head (sorted l)).

(** The options after [update_edge_voices], [update_edge_genders] and
    [update_edge_regions] have refilled the combos below a selection. *)
Definition shown_voices (lang_group region gender : string) (w : Options) : Options :=
  set_edge_voice_combo
    (refilled (sorted (voices_of (edge_tts_voices w) lang_group region gender))
       (edge_voice_combo w)) w.

Definition shown_genders (lang_group region : string) (w : Options) : Options :=
  let genders := keys (default ∅ (default ∅ (edge_tts_voices w !! lang_group) !! region)) in
  shown_voices lang_group region (first genders)
    (set_edge_gender_combo (refilled (sorted genders) (edge_gender_combo w)) w).

Definition shown_regions (lang_group : string) (w : Options) : Options :=
  let regions := keys (default ∅ (edge_tts_voices w !! lang_group)) in
  shown_genders lang_group (first regions)
    (set_edge_region_combo (refilled (sorted regions) (edge_region_combo w)) w).

(** The catalog an [EdgeVoicesLoaded] event hands over is well formed. *)
Definition loads_well_formed (ev : VoiceEvent) : Prop :=
  match ev with
  | EdgeVoicesLoaded voices => well_formed voices
  | _ => True
  end.

(** The options the program can be in between two events. *)
Inductive reachable_options : Options -> Prop :=
| reachable_options_init : reachable_options init_options
| reachable_options_step (w : Options) (ev : VoiceEvent) :
    reachable_options w -> loads_well_formed ev -> reachable_options (on_voice_event ev w).

(** What every reachable_options [Options] satisfies. *)
Definition options_invariant (w : Options) : Prop :=
  well_formed (edge_tts_voices w) /\
  (voice_combo w = "Edge TTS" -> edge_tts_voices w <> ∅ -> consistent w).

(** The options after the voices arrived and the user picked the second
    region. *)
Definition sample_options : Options :=
  on_voice_event (PicksRegion 1) (on_voice_event (EdgeVoicesLoaded sample_catalog) init_options).

End VoiceOptions.

(* ===================================================================== *)
(** ** Python values: facts                                              *)
(* ===================================================================== *)

Example strip_whitespace :
  strip (" " +:+ utf8_3 227 128 128 +:+ "你 好" +:+ utf8_2 194 160 +:+ newline) = "你 好".
Proof. reflexivity. Qed.

Example strip_blank : strip (" " +:+ newline +:+ chr 9) = "".
Proof. reflexivity. Qed.

Example strip_char_quotes :
  strip_char dquote (dquote +:+ dquote +:+ "a" +:+ dquote +:+ "b" +:+ dquote)
    = "a" +:+ dquote +:+ "b".
Proof. reflexivity. Qed.

Example slice_from_short : slice_from (-10) [1; 2; 3]%nat = [1; 2; 3]%nat.
Proof. reflexivity. Qed.

Example slice_from_long :
  slice_from (-10) [0; 1; 2; 3; 4; 5; 6; 7; 8; 9; 10; 11]%nat
    = [2; 3; 4; 5; 6; 7; 8; 9; 10; 11]%nat.
Proof. reflexivity. Qed.

Example remove_first_occurrence :
  Py.remove "a" ["b"; "a"; "c"; "a"] = Some ["b"; "c"; "a"].
Proof. reflexivity. Qed.

Lemma is_empty_true (s : string) : is_empty s = true <-> s = "".
Proof. destruct s; simpl; split; intros H; congruence. Qed.

Lemma is_empty_false (s : string) : is_empty s = false <-> s <> "".
Proof. destruct s; simpl; split; intros H; congruence. Qed.

Lemma contains_true `{EqDecision A} (x : A) (l : list A) :
  contains x l = true <-> x ∈ l.
Proof. unfold contains. rewrite bool_decide_eq_true. reflexivity. Qed.

Lemma contains_false `{EqDecision A} (x : A) (l : list A) :
  contains x l = false <-> x ∉ l.
Proof. unfold contains. rewrite bool_decide_eq_false. reflexivity. Qed.

(** [l[-k:]] drops all but the last [k] elements. *)
Lemma slice_from_neg {A} (k : nat) (l : list A) :
  (0 < k)%nat -> slice_from (- Z.of_nat k) l = drop (length l - k) l.
Proof.
  intros Hk. unfold slice_from.
  destruct (Z.ltb_spec (- Z.of_nat k) 0) as [_|H]; [|lia].
  f_equal. lia.
Qed.

Lemma slice_last10 {A} (l : list A) : slice_from (-10) l = drop (length l - 10) l.
Proof. apply (slice_from_neg 10). lia. Qed.

Lemma slice_last10_short {A} (l : list A) :
  (length l <= 10)%nat -> slice_from (-10) l = l.
Proof.
  intros H. rewrite slice_last10.
  replace (length l - 10)%nat with 0%nat by lia. reflexivity.
Qed.

Lemma slice_last10_length {A} (l : list A) :
  (length (slice_from (-10) l) <= 10)%nat.
Proof. rewrite slice_last10, length_drop. lia. Qed.

(* ===================================================================== *)
(** ** Learning a correction: properties                                 *)
(* ===================================================================== *)

Lemma save_correction_rejected (st : App) :
  is_empty (strip (last_source_text st))
    || is_empty (strip (correction_input (ui st))) = true ->
  save_correction st =
    (Returned tt,
     set_world (set_dialogs
       (dialogs (world st) ++ [mkDialog Warning "錯誤" "必須有原文和您修正後的譯文才能學習！"])
       (world st)) st).
Proof.
  intros H. unfold save_correction, bind, get. simpl. rewrite H. reflexivity.
Qed.

Lemma save_correction_accepted (st : App) :
  is_empty (strip (last_source_text st))
    || is_empty (strip (correction_input (ui st))) = false ->
  outcome save_correction st = Returned tt /\
  translation_examples (exec save_correction st) =
    learned (translation_examples st)
      (mkExample (strip (last_source_text st)) (strip (correction_input (ui st)))) /\
  correction_input (ui (exec save_correction st)) = "".
Proof.
  intros H. unfold outcome, exec, save_correction, bind, get. simpl. rewrite H.
  repeat split.
Qed.

Lemma V10_save_correction_accepted (st : App) :
  is_empty (strip (last_source_text st))
    || is_empty (strip (correction_input (ui st))) = false ->
  outcome V10.save_correction st = Returned tt /\
  translation_examples (exec V10.save_correction st) =
    (let new_example :=
       mkExample (strip (last_source_text st)) (strip (correction_input (ui st))) in
     let examples :=
       if contains new_example (translation_examples st) then translation_examples st
       else translation_examples st ++ [new_example] in
     if 10 <? Z.of_nat (length examples) then slice_from (-10) examples else examples) /\
  correction_input (ui (exec V10.save_correction st)) = "".
Proof.
  intros H. unfold outcome, exec, V10.save_correction, bind, get. simpl. rewrite H.
  repeat split.
Qed.

Lemma both_given (a b : string) :
  a <> "" -> b <> "" -> is_empty a || is_empty b = false.
Proof.
  intros Ha Hb. apply is_empty_false in Ha, Hb. rewrite Ha, Hb. reflexivity.
Qed.

(** Whatever the settings held before, a save leaves at most 10 examples. *)
Lemma learned_length (examples : list Example) (new_example : Example) :
  (length (learned examples new_example) <= 10)%nat.
Proof. apply slice_last10_length. Qed.

(** C2, as it holds.  For every stored list and every source text and
    correction that are both non-empty after stripping, [save_correction]
    stores the last 10 entries of the stored list when the pair is already
    in it, and of the stored list with the pair appended when it is not.
    So a stored list of at most 10 entries that holds the pair stays as it
    is, a new pair is appended and the oldest entries are dropped from the
    front, and at most 10 entries are stored afterwards.  The method of
    v1.0 stores the same list. *)
Theorem save_correction_dedup_fifo_bound (st : App) :
  strip (last_source_text st) <> "" ->
  strip (correction_input (ui st)) <> "" ->
  let new_example :=
    mkExample (strip (last_source_text st)) (strip (correction_input (ui st))) in
  let stored := translation_examples st in
  let stored' := translation_examples (exec save_correction st) in
  (new_example ∈ stored -> stored' = drop (length stored - 10) stored) /\
  (new_example ∈ stored -> (length stored <= 10)%nat -> stored' = stored) /\
  (new_example ∉ stored ->
     stored' = drop (length stored + 1 - 10) (stored ++ [new_example])) /\
  (length stored' <= 10)%nat /\
  translation_examples (exec V10.save_correction st) = stored'.
Proof.
  intros Hsrc Hcorr new_example stored stored'.
  destruct (save_correction_accepted st (both_given _ _ Hsrc Hcorr)) as (_ & Hst & _).
  destruct (V10_save_correction_accepted st (both_given _ _ Hsrc Hcorr)) as (_ & Hst10 & _).
  subst stored'. rewrite Hst, Hst10. fold new_example. fold stored. unfold learned.
  split; [|split; [|split; [|split]]].
  - intros Hin. apply contains_true in Hin. rewrite Hin. apply slice_last10.
  - intros Hin Hlen. apply contains_true in Hin. rewrite Hin.
    apply slice_last10_short. exact Hlen.
  - intros Hnin. apply contains_false in Hnin. rewrite Hnin.
    rewrite slice_last10, length_app. reflexivity.
  - apply slice_last10_length.
  - cbv zeta. set (examples := if contains _ _ then _ else _).
    destruct (Z.ltb_spec 10 (Z.of_nat (length examples))) as [Hgt|Hle].
    + reflexivity.
    + symmetry. apply slice_last10_short. lia.
Qed.

Lemma save_correction_dedup_fifo_bound_witness :
  let st := learning_state ten_examples " 你好 " in
  let st2 := learning_state ten_examples "七" in
  (strip (last_source_text st) <> "" /\
   strip (correction_input (ui st)) <> "" /\
   (mkExample "Hello" "你好" ∉ translation_examples st) /\
   translation_examples (exec save_correction st) =
     drop 1 ten_examples ++ [mkExample "Hello" "你好"]) /\
  (strip (last_source_text (set_last_source_text " seven" st2)) <> "" /\
   strip (correction_input (ui (set_last_source_text " seven" st2))) <> "" /\
   (mkExample "seven" "七" ∈ translation_examples (set_last_source_text " seven" st2)) /\
   (length (translation_examples (set_last_source_text " seven" st2)) <= 10)%nat /\
   translation_examples (exec save_correction (set_last_source_text " seven" st2)) =
     ten_examples).
Proof.
  cbv zeta. split.
  - assert (H1 : strip (last_source_text (learning_state ten_examples " 你好 ")) <> "")
      by (vm_compute; discriminate).
    assert (H2 : strip (correction_input (ui (learning_state ten_examples " 你好 "))) <> "")
      by (vm_compute; discriminate).
    assert (H3 : mkExample "Hello" "你好"
                   ∉ translation_examples (learning_state ten_examples " 你好 ")).
    { apply contains_false. vm_compute. reflexivity. }
    destruct (save_correction_dedup_fifo_bound _ H1 H2) as (_ & _ & Hnew & _).
    split; [exact H1|]. split; [exact H2|]. split; [exact H3|].
    rewrite Hnew; [reflexivity|exact H3].
  - set (st2 := set_last_source_text " seven" (learning_state ten_examples "七")).
    assert (H1 : strip (last_source_text st2) <> "") by (vm_compute; discriminate).
    assert (H2 : strip (correction_input (ui st2)) <> "") by (vm_compute; discriminate).
    assert (H3 : mkExample "seven" "七" ∈ translation_examples st2).
    { apply contains_true. vm_compute. reflexivity. }
    assert (H4 : (length (translation_examples st2) <= 10)%nat) by (vm_compute; lia).
    destruct (save_correction_dedup_fifo_bound _ H1 H2) as (_ & Hdup & _ & _).
    split; [exact H1|]. split; [exact H2|]. split; [exact H3|]. split; [exact H4|].
    rewrite Hdup; [reflexivity|exact H3|exact H4].
Defined.

(** Counterexample to C2 as stated.  The settings hold eleven examples
    when the program starts; "seven" is translated and the stored
    translation "七" is typed as the correction.  The pair is in the
    stored list, and the click on the learn button does not leave the list
    as it is: it stores the last ten, in v1.1 and in v1.0. *)
Lemma save_correction_cuts_overfull_list :
  let st := relearning_seven in
  let stored := translation_examples st in
  reachable sample_env st /\
  strip (last_source_text st) = "seven" /\
  strip (correction_input (ui st)) = "七" /\
  mkExample "seven" "七" ∈ stored /\
  length stored = 11%nat /\
  translation_examples (exec save_correction st) = ten_examples /\
  translation_examples (exec V10.save_correction st) = ten_examples /\
  translation_examples (exec save_correction st) <> stored.
Proof.
  cbv zeta. split.
  { unfold relearning_seven. cbn [run_events].
    do 3 apply reachable_step. apply reachable_init. }
  split; [vm_compute; reflexivity|]. split; [vm_compute; reflexivity|].
  split; [apply contains_true; vm_compute; reflexivity|].
  split; [vm_compute; reflexivity|]. split; [vm_compute; reflexivity|].
  split; [vm_compute; reflexivity|].
  intros H. apply (f_equal length) in H. vm_compute in H. discriminate H.
Qed.

(** C9. When the last recorded source text or the correction is empty
    after stripping, [save_correction] shows the warning box and returns;
    nothing else changes: the stored examples and the correction input
    are as before. *)
Theorem save_correction_rejects_empty (st : App) :
  strip (last_source_text st) = "" \/ strip (correction_input (ui st)) = "" ->
  outcome save_correction st = Returned tt /\
  exec save_correction st =
    set_world (set_dialogs
      (dialogs (world st) ++ [mkDialog Warning "錯誤" "必須有原文和您修正後的譯文才能學習！"])
      (world st)) st /\
  translation_examples (exec save_correction st) = translation_examples st /\
  correction_input (ui (exec save_correction st)) = correction_input (ui st) /\
  last_source_text (exec save_correction st) = last_source_text st.
Proof.
  intros H.
  assert (Hrej : is_empty (strip (last_source_text st))
                 || is_empty (strip (correction_input (ui st))) = true).
  { apply orb_true_iff. destruct H as [H|H]; [left|right]; apply is_empty_true; exact H. }
  unfold outcome, exec. rewrite (save_correction_rejected st Hrej). simpl.
  repeat split.
Qed.

Lemma save_correction_rejects_empty_witness :
  let st := learning_state ten_examples "   " in
  (strip (last_source_text st) = "" \/ strip (correction_input (ui st)) = "") /\
  translation_examples (exec save_correction st) = ten_examples /\
  correction_input (ui (exec save_correction st)) = "   " /\
  dialogs (world (exec save_correction st)) =
    [mkDialog Warning "錯誤" "必須有原文和您修正後的譯文才能學習！"].
Proof.
  assert (H : strip (last_source_text (learning_state ten_examples "   ")) = "" \/
              strip (correction_input (ui (learning_state ten_examples "   "))) = "")
    by (right; vm_compute; reflexivity).
  destruct (save_correction_rejects_empty (learning_state ten_examples "   ") H)
    as (_ & Hst & Hex & Hin & _).
  split; [exact H|]. split; [exact Hex|]. split; [exact Hin|].
  rewrite Hst. reflexivity.
Defined.

(** C10. For every stored list and every source text and correction that
    are non-empty after stripping, [save_correction] of v1.0 and of v1.1
    store the same list: cutting to the last 10 only when there are more
    than 10 entries is the same as always taking the last 10. *)
Theorem save_correction_v10_v11_agree (st : App) :
  strip (last_source_text st) <> "" ->
  strip (correction_input (ui st)) <> "" ->
  translation_examples (exec V10.save_correction st) =
  translation_examples (exec save_correction st).
Proof.
  intros Hsrc Hcorr.
  destruct (save_correction_accepted st (both_given _ _ Hsrc Hcorr)) as (_ & H11 & _).
  destruct (V10_save_correction_accepted st (both_given _ _ Hsrc Hcorr)) as (_ & H10 & _).
  rewrite H10, H11. unfold learned. cbv zeta.
  set (examples := if contains _ _ then _ else _).
  destruct (Z.ltb_spec 10 (Z.of_nat (length examples))) as [Hgt|Hle].
  - reflexivity.
  - symmetry. apply slice_last10_short. lia.
Qed.

Lemma save_correction_v10_v11_agree_witness :
  let st := learning_state (mkExample "zero" "零" :: ten_examples) "你好" in
  strip (last_source_text st) <> "" /\
  strip (correction_input (ui st)) <> "" /\
  translation_examples (exec V10.save_correction st) =
    drop 2 (mkExample "zero" "零" :: ten_examples) ++ [mkExample "Hello" "你好"] /\
  translation_examples (exec save_correction st) =
    drop 2 (mkExample "zero" "零" :: ten_examples) ++ [mkExample "Hello" "你好"].
Proof.
  assert (H1 : strip (last_source_text
                 (learning_state (mkExample "zero" "零" :: ten_examples) "你好")) <> "")
    by (vm_compute; discriminate).
  assert (H2 : strip (correction_input (ui
                 (learning_state (mkExample "zero" "零" :: ten_examples) "你好"))) <> "")
    by (vm_compute; discriminate).
  pose proof (save_correction_v10_v11_agree _ H1 H2) as H.
  split; [exact H1|]. split; [exact H2|].
  split; [rewrite H|]; vm_compute; reflexivity.
Defined.

(* ===================================================================== *)
(** ** Text panes, signals and the swap: properties                      *)
(* ===================================================================== *)

Lemma bind_returned {A B} (m : M A) (k : A -> M B) (st st' : App) (a : A) :
  m st = (Returned a, st') -> bind m k st = k a st'.
Proof. intros H. unfold bind. rewrite H. reflexivity. Qed.

Lemma run_events_reachable (env : Backends) (evs : list Event) (st : App) :
  reachable env st -> reachable env (run_events env evs st).
Proof.
  revert st. induction evs as [|ev evs IH]; intros st H; [exact H|].
  simpl. apply IH. apply reachable_step. exact H.
Qed.

(** An edit of the pane that is not the source is ignored (line 411). *)
Lemma handle_text_changed_other_side (h : bool -> M unit) (is_left : bool) (st : App) :
  is_left <> translate_left_to_right st ->
  handle_text_changed_with h is_left st = (Returned tt, st).
Proof.
  intros H. unfold handle_text_changed_with, bind, get.
  destruct is_left, (translate_left_to_right st) eqn:E; simpl;
    try reflexivity; exfalso; apply H; reflexivity.
Qed.

Lemma direction_set_pane (side : bool) (e : QTextEdit) (st : App) :
  translate_left_to_right (set_pane side e st) = translate_left_to_right st.
Proof. destruct side; reflexivity. Qed.

(** Writing into the target pane only changes its text: the slot its
    [textChanged] reaches returns at once, whatever is connected below. *)
Lemma setPlainText_with_target (h : bool -> M unit) (side : bool) (txt : string)
    (st : App) :
  side = negb (translate_left_to_right st) ->
  setPlainText_with (handle_text_changed_with h) side txt st
    = (Returned tt, with_text side txt st).
Proof.
  intros Hside. unfold setPlainText_with, bind, modify, get, pass, ret. simpl.
  fold (with_text side txt st).
  destruct (textChanged_connected (pane side (with_text side txt st))); [|reflexivity].
  apply handle_text_changed_other_side.
  unfold with_text. rewrite direction_set_pane. subst side.
  destruct (translate_left_to_right st); discriminate.
Qed.

Lemma setPlainText_target (side : bool) (txt : string) (st : App) :
  side = negb (translate_left_to_right st) ->
  setPlainText side txt st = (Returned tt, with_text side txt st).
Proof. apply setPlainText_with_target. Qed.

(** The handler nests no deeper than its own [clear()]: whatever slot is
    put below the second level is never reached. *)
Lemma handle_text_changed_nesting (h : bool -> M unit) (is_left : bool) (st : App) :
  handle_text_changed_with (handle_text_changed_with h) is_left st
    = handle_text_changed is_left st.
Proof.
  unfold handle_text_changed, handle_text_changed_with at 1 3, bind, get.
  destruct (negb (Bool.eqb is_left (translate_left_to_right st))) eqn:Hdir; [reflexivity|].
  destruct (is_empty (strip (toPlainText (pane is_left st)))); [|reflexivity].
  apply negb_false_iff, eqb_prop in Hdir.
  rewrite !setPlainText_with_target by (rewrite <- Hdir; reflexivity).
  reflexivity.
Qed.

(** A pane whose signal is disconnected takes a text without any slot
    running. *)
Lemma setPlainText_disconnected (side : bool) (txt : string) (st : App) :
  textChanged_connected (pane side st) = false ->
  setPlainText side txt st = (Returned tt, with_text side txt st).
Proof.
  intros H. unfold setPlainText, setPlainText_with, bind, modify, get, pass, ret. simpl.
  fold (with_text side txt st).
  replace (textChanged_connected (pane side (with_text side txt st))) with false;
    [reflexivity|].
  destruct side; simpl in *; congruence.
Qed.

(** With the signal connected, a non-blank text put into the source pane
    starts the 1.2 s timer: this is what the swap switches off. *)
Lemma setPlainText_source_schedules (side : bool) (txt : string) (st : App) :
  textChanged_connected (pane side st) = true ->
  side = translate_left_to_right st ->
  strip txt <> "" ->
  setPlainText side txt st
    = (Returned tt, set_translate_timer (Some 1200) (with_text side txt st)).
Proof.
  intros Hc Hside Htxt.
  unfold setPlainText, setPlainText_with, bind, modify, get, pass, ret. simpl.
  fold (with_text side txt st).
  assert (Hc' : textChanged_connected (pane side (with_text side txt st)) = true).
  { destruct side; simpl in *; congruence. }
  rewrite Hc'.
  unfold handle_text_changed, handle_text_changed_with at 1, bind, get.
  unfold with_text at 1. rewrite direction_set_pane. rewrite <- Hside.
  rewrite eqb_reflx. simpl negb. cbv iota.
  assert (Htext : toPlainText (pane side (with_text side txt st)) = txt).
  { destruct side; reflexivity. }
  rewrite Htext. apply is_empty_false in Htxt. rewrite Htxt. reflexivity.
Qed.

Lemma valid_index_kept (i : Z) : 0 <= i < 3 -> checked_index lang_items i = i.
Proof.
  intros H. unfold checked_index. simpl length.
  destruct (Z.leb_spec 0 i); [|lia].
  destruct (Z.ltb_spec i (Z.of_nat 3)); [|lia]. reflexivity.
Qed.

#[local] Arguments checked_index : simpl never.

(** What [swap_languages] does, in one equation. *)
Lemma swap_languages_run (st : App) :
  valid_state st -> swap_languages st = (Returned tt, swapped st).
Proof.
  intros (Hl & Hr & Hli & Hri & Hrol & Hror).
  destruct st as [dir lst tf cpf pv ak te tt [pl ms] [lt rt ll rl tc vc evc pvc ci] w ss].
  destruct lt as [ltxt lro lss lc], rt as [rtxt rro rss rc].
  simpl in *. subst.
  assert (E : (ll =? rl) = (rl =? ll)) by apply Z.eqb_sym.
  unfold swap_languages, swapped, lang_combo_setCurrentIndex, stop_audio, bind, get.
  destruct (Z.eqb_spec rl ll) as [->|Hne]; [rewrite Z.eqb_refl in E|];
    destruct pl, dir; simpl.
  all: rewrite ?valid_index_kept by assumption.
  all: rewrite ?Z.eqb_refl, ?E; simpl.
  all: rewrite ?valid_index_kept by assumption.
  all: rewrite ?Z.eqb_refl; simpl.
  all: try (apply Z.eqb_neq in Hne; rewrite Hne; simpl).
  all: reflexivity.
Qed.

Lemma swapped_valid (st : App) : valid_state st -> valid_state (swapped st).
Proof.
  intros (Hl & Hr & Hli & Hri & Hrol & Hror).
  unfold valid_state, swapped. simpl. rewrite negb_involutive.
  repeat split; try assumption; try reflexivity; simpl in *; lia.
Qed.

Lemma init_app_valid keys examples files : valid_state (init_app keys examples files).
Proof. unfold valid_state. simpl. repeat split; lia. Qed.

(** C5. Between two events, two swaps in a row return and restore the
    direction, the text of both panes, the language of both combos and the
    read-only flag of both panes. *)
Theorem swap_languages_twice (st : App) :
  valid_state st ->
  let st2 := exec (swap_languages >> swap_languages) st in
  outcome (swap_languages >> swap_languages) st = Returned tt /\
  translate_left_to_right st2 = translate_left_to_right st /\
  toPlainText (left_text (ui st2)) = toPlainText (left_text (ui st)) /\
  toPlainText (right_text (ui st2)) = toPlainText (right_text (ui st)) /\
  left_lang_combo (ui st2) = left_lang_combo (ui st) /\
  right_lang_combo (ui st2) = right_lang_combo (ui st) /\
  isReadOnly (left_text (ui st2)) = isReadOnly (left_text (ui st)) /\
  isReadOnly (right_text (ui st2)) = isReadOnly (right_text (ui st)).
Proof.
  intros Hvalid st2. subst st2. unfold outcome, exec.
  rewrite (bind_returned _ _ _ _ _ (swap_languages_run st Hvalid)).
  rewrite (swap_languages_run _ (swapped_valid st Hvalid)).
  destruct Hvalid as (_ & _ & _ & _ & Hrol & Hror). simpl in Hrol, Hror.
  simpl. rewrite !negb_involutive.
  repeat split; congruence.
Qed.

Lemma swap_languages_twice_witness :
  let st := with_text false "你好" (english_to_chinese Google_service) in
  let st2 := exec (swap_languages >> swap_languages) st in
  valid_state st /\
  translate_left_to_right st2 = true /\
  toPlainText (left_text (ui st2)) = "Hello" /\
  toPlainText (right_text (ui st2)) = "你好" /\
  left_lang_combo (ui st2) = 1 /\
  right_lang_combo (ui st2) = 0 /\
  isReadOnly (left_text (ui st2)) = false /\
  isReadOnly (right_text (ui st2)) = true.
Proof.
  assert (Hvalid : valid_state (with_text false "你好" (english_to_chinese Google_service))).
  { unfold valid_state. simpl. repeat split; lia. }
  destruct (swap_languages_twice _ Hvalid) as (_ & H1 & H2 & H3 & H4 & H5 & H6 & H7).
  cbv zeta. split; [exact Hvalid|].
  rewrite H1, H2, H3, H4, H5, H6, H7. repeat split.
Defined.

(** C6, as it holds.  Between two events a swap returns, makes no call
    and leaves the last source text alone; the exchange of the pane texts
    starts no timer, the [textChanged] slots being disconnected; the timer
    is started, at 50 ms, exactly when the two language combos differ,
    through their [currentTextChanged] signal. *)
Theorem swap_languages_schedules_on_language_change (st : App) :
  valid_state st ->
  let st' := exec swap_languages st in
  outcome swap_languages st = Returned tt /\
  calls (world st') = calls (world st) /\
  last_source_text st' = last_source_text st /\
  translate_timer st' =
    (if left_lang_combo (ui st) =? right_lang_combo (ui st)
     then translate_timer st else Some 50).
Proof.
  intros Hvalid st'. subst st'. unfold outcome, exec.
  rewrite (swap_languages_run st Hvalid). simpl. repeat split.
Qed.

Lemma swap_languages_schedules_on_language_change_witness :
  let st := with_text true "Hello" (init_app sample_keys [] ∅) in
  let st' := exec swap_languages (set_lang_combo false 0 st) in
  valid_state (set_lang_combo false 0 st) /\
  calls (world st') = [] /\
  translate_timer st' = None.
Proof.
  assert (Hvalid : valid_state
            (set_lang_combo false 0 (with_text true "Hello" (init_app sample_keys [] ∅)))).
  { unfold valid_state. simpl. repeat split; lia. }
  destruct (swap_languages_schedules_on_language_change _ Hvalid) as (_ & H1 & _ & H2).
  cbv zeta. split; [exact Hvalid|]. rewrite H1, H2. split; reflexivity.
Defined.

(** Counterexample to C6 as stated.  In a session with English on the left
    and Chinese on the right, after "Hello" has been translated, the swap
    leaves the timer pending at 50 ms, and when it fires the provider is
    called again with the text of the source pane. *)
Lemma swap_languages_triggers_translation :
  let st := translated_hello in
  reachable sample_env st /\
  toPlainText (left_text (ui st)) = "Hello" /\
  toPlainText (right_text (ui st)) = "你好" /\
  translate_timer st = None /\
  calls (world st) = [GoogleTranslator_translate "en" "zh-TW" "Hello"] /\
  translate_timer (exec swap_languages st) = Some 50 /\
  calls (world (exec (swap_languages >> translate_timer_timeout sample_env) st))
    = [GoogleTranslator_translate "en" "zh-TW" "Hello";
       GoogleTranslator_translate "en" "zh-TW" "Hello"] /\
  ~ swap_triggers_nothing st.
Proof.
  cbv zeta. split; [|repeat split; try (vm_compute; reflexivity)].
  - apply run_events_reachable. apply reachable_init.
  - intros [H _]. vm_compute in H. discriminate H.
Qed.

(* ===================================================================== *)
(** ** Translation dispatch: properties                                  *)
(* ===================================================================== *)

Lemma pane_with_text (side : bool) (txt : string) (st : App) :
  toPlainText (pane side (with_text side txt st)) = txt.
Proof. destruct side; reflexivity. Qed.

Lemma with_calls_nil (st : App) : with_calls [] st = st.
Proof.
  destruct st as [? ? ? ? ? ? ? ? ? ? [d c g o] ?]. unfold with_calls. simpl.
  rewrite app_nil_r. reflexivity.
Qed.

Lemma with_calls_app (cs1 cs2 : list Call) (st : App) :
  with_calls cs2 (with_calls cs1 st) = with_calls (cs1 ++ cs2) st.
Proof. unfold with_calls. simpl. rewrite app_assoc. reflexivity. Qed.

Lemma call_run (env : Backends) (c : Call) (st : App) :
  call env c st = (reply env (calls (world st)) c, with_calls [c] st).
Proof. reflexivity. Qed.

Lemma calls_with_calls (cs : list Call) (st : App) :
  calls (world (with_calls cs st)) = calls (world st) ++ cs.
Proof. reflexivity. Qed.

(** [translate_text] on a blank source: the target pane is cleared and the
    method returns (lines 436-438). *)
Lemma translate_text_blank (env : Backends) (st : App) :
  source_text_of st = "" ->
  translate_text env st = (Returned tt, with_text (target_side st) "" st).
Proof.
  intros H. unfold translate_text, bind, get. rewrite H. simpl is_empty. cbv iota.
  apply setPlainText_target. reflexivity.
Qed.

(** [translate_text] on any other source: the provider chain runs on the
    object with the source recorded, and what it returns, or the text of
    what it raises, is put into the target pane. *)
Lemma translate_text_run (env : Backends) (st : App) :
  source_text_of st <> "" ->
  let r := provider_translate env (translator_combo (ui st)) (src_lang_name_of st)
             (dest_lang_name_of st) (source_text_of st)
             (set_last_source_text (source_text_of st) st) in
  translate_left_to_right (snd r) = translate_left_to_right st ->
  translate_text env st =
    (Returned tt,
     with_text (target_side st)
       (match fst r with Returned t => t | Raised e => error_text e end) (snd r)).
Proof.
  intros Hsrc r Hdir. subst r.
  unfold translate_text, bind at 1, get.
  apply is_empty_false in Hsrc. rewrite Hsrc.
  unfold bind at 1, modify.
  unfold try_except, bind at 1.
  destruct (provider_translate _ _ _ _ _ _) as [[t|e] st2] eqn:Hr; simpl in Hdir |- *.
  - rewrite setPlainText_target; [reflexivity|].
    unfold target_side. rewrite Hdir. reflexivity.
  - rewrite setPlainText_target; [reflexivity|].
    unfold target_side. rewrite Hdir. reflexivity.
Qed.

(** The provider chain only adds to the record of calls. *)
Lemma provider_translate_adds_calls (env : Backends)
    (service src dest text : string) (st : App) :
  exists cs, snd (provider_translate env service src dest text st) = with_calls cs st.
Proof.
  unfold provider_translate.
  repeat match goal with |- context [if String.eqb ?a ?b then _ else _] =>
    destruct (String.eqb a b) end;
  unfold require_api_key, s2twp, bind, get, ret, raise;
  repeat (rewrite ?call_run; cbv beta iota;
          match goal with
          | |- context [api_keys st !! ?k] => destruct (api_keys st !! k) as [key|]
          | |- context [is_empty ?k] => destruct (is_empty k)
          | |- context [reply ?e ?h ?c] => destruct (reply e h c)
          | |- context [if String.eqb ?a ?b then _ else _] => destruct (String.eqb a b)
          end);
  rewrite ?call_run; cbv beta iota; unfold snd;
  first [ exists []; symmetry; apply with_calls_nil
        | eexists; reflexivity
        | eexists; rewrite with_calls_app; reflexivity ].
Qed.

Lemma provider_translate_frame (env : Backends)
    (service src dest text : string) (st : App) :
  translate_left_to_right (snd (provider_translate env service src dest text st))
    = translate_left_to_right st /\
  translation_examples (snd (provider_translate env service src dest text st))
    = translation_examples st /\
  ui (snd (provider_translate env service src dest text st)) = ui st.
Proof.
  destruct (provider_translate_adds_calls env service src dest text st) as [cs ->].
  repeat split.
Qed.

(** C3. When the text of the source pane is empty after stripping, the
    text-changed handler of that pane and [translate_text] both return
    after clearing the target pane: the timer is as before (nothing is
    scheduled) and no call to a provider is made. *)
Theorem blank_source_reaches_no_provider (env : Backends) (st : App) :
  source_text_of st = "" ->
  let cleared := with_text (target_side st) "" st in
  handle_text_changed (translate_left_to_right st) st = (Returned tt, cleared) /\
  translate_text env st = (Returned tt, cleared) /\
  toPlainText (pane (target_side st) cleared) = "" /\
  translate_timer cleared = translate_timer st /\
  calls (world cleared) = calls (world st).
Proof.
  intros Hblank cleared. subst cleared. split; [|split; [|split; [|split]]].
  - unfold handle_text_changed, handle_text_changed_with at 1, bind, get.
    rewrite eqb_reflx. simpl negb. cbv iota.
    unfold source_text_of in Hblank. rewrite Hblank. simpl is_empty. cbv iota.
    apply setPlainText_with_target. reflexivity.
  - apply translate_text_blank. exact Hblank.
  - apply pane_with_text.
  - unfold with_text, target_side. destruct (translate_left_to_right st); reflexivity.
  - unfold with_text, target_side. destruct (translate_left_to_right st); reflexivity.
Qed.

Lemma blank_source_reaches_no_provider_witness :
  let st := with_text false "你好"
              (with_text true (" " +:+ newline) (english_to_chinese Google_service)) in
  source_text_of st = "" /\
  toPlainText (right_text (ui (exec (handle_text_changed true) st))) = "" /\
  translate_timer (exec (handle_text_changed true) st) = None /\
  toPlainText (right_text (ui (exec (translate_text sample_env) st))) = "" /\
  calls (world (exec (translate_text sample_env) st)) = [].
Proof.
  assert (Hblank : source_text_of
            (with_text false "你好"
               (with_text true (" " +:+ newline) (english_to_chinese Google_service))) = "")
    by (vm_compute; reflexivity).
  destruct (blank_source_reaches_no_provider sample_env _ Hblank) as (H1 & H2 & _).
  cbv zeta. split; [exact Hblank|].
  unfold exec. simpl translate_left_to_right in H1. rewrite H1, H2.
  repeat split.
Defined.

(** C1. With a source text that is not empty after stripping,
    [translate_text] returns for every service and every behaviour of the
    back ends; the target pane then holds the string the provider chain
    returned (which may be empty), or ['翻譯錯誤: '] followed by the text
    of the exception the chain raised. *)
Theorem translate_text_never_raises (env : Backends) (st : App) :
  source_text_of st <> "" ->
  let st' := exec (translate_text env) st in
  outcome (translate_text env) st = Returned tt /\
  toPlainText (pane (target_side st) st') =
    match outcome (provider_translate env (translator_combo (ui st)) (src_lang_name_of st)
                     (dest_lang_name_of st) (source_text_of st))
                  (set_last_source_text (source_text_of st) st) with
    | Returned translation => translation
    | Raised e => "翻譯錯誤: " +:+ exn_str e
    end.
Proof.
  intros Hsrc st'. subst st'. unfold outcome, exec.
  pose proof (provider_translate_frame env (translator_combo (ui st)) (src_lang_name_of st)
                (dest_lang_name_of st) (source_text_of st)
                (set_last_source_text (source_text_of st) st)) as (Hdir & _).
  rewrite (translate_text_run env st Hsrc Hdir). simpl fst. simpl snd.
  split; [reflexivity|]. apply pane_with_text.
Qed.

Lemma translate_text_never_raises_witness :
  let st := english_to_chinese DeepL_service in
  source_text_of st <> "" /\
  outcome (translate_text sample_env) st = Returned tt /\
  toPlainText (pane (target_side st) (exec (translate_text sample_env) st))
    = "翻譯錯誤: 請先設置 DeepL API Key".
Proof.
  assert (H1 : source_text_of (english_to_chinese DeepL_service) <> "")
    by (vm_compute; discriminate).
  destruct (translate_text_never_raises sample_env _ H1) as (Hret & Htext).
  cbv zeta. split; [exact H1|]. split; [exact Hret|].
  rewrite Htext. vm_compute. reflexivity.
Defined.

(** *** Script normalization *)

Lemma provider_translate_Groq_chinese (env : Backends) (src text : string) (st : App) :
  normalizing_run env (fun content => strip_char dquote (strip content)) st
    (provider_translate env Groq_service src "中文" text st).
Proof.
  unfold provider_translate.
  change (String.eqb Groq_service Google_service) with false.
  change (String.eqb Groq_service Groq_service) with true.
  change (String.eqb "中文" "中文") with true. cbv iota.
  unfold require_api_key, s2twp, bind, get, ret, raise.
  destruct (api_keys st !! Groq_service) as [key|]; [|apply run_refused].
  destruct (is_empty key); [apply run_refused|].
  rewrite call_run.
  destruct (reply env (calls (world st)) _) as [content|e] eqn:Hreply.
  - rewrite call_run, with_calls_app. simpl app.
    rewrite calls_with_calls.
    apply (run_converted env (fun content => strip_char dquote (strip content)) st _ content);
      [reflexivity|exact Hreply].
  - apply run_failed; [reflexivity|exact Hreply].
Qed.

Lemma provider_translate_Translators_chinese (env : Backends) (src text : string)
    (st : App) :
  normalizing_run env (fun content => content) st
    (provider_translate env Translators_service src "中文" text st).
Proof.
  unfold provider_translate.
  change (String.eqb Translators_service Google_service) with false.
  change (String.eqb Translators_service Groq_service) with false.
  change (String.eqb Translators_service Gemini_service) with false.
  change (String.eqb Translators_service Translators_service) with true.
  change (translators_lang_map_get "中文" "en") with "zh".
  change (String.eqb "zh" "zh") with true. cbv iota.
  unfold s2twp, bind. rewrite call_run.
  destruct (reply env (calls (world st)) _) as [content|e] eqn:Hreply.
  - rewrite call_run, with_calls_app. simpl app.
    rewrite calls_with_calls.
    apply (run_converted env (fun content => content) st _ content);
      [reflexivity|exact Hreply].
  - apply run_failed; [reflexivity|exact Hreply].
Qed.

(** The Gemini branch hands the response text on as it is. *)
Lemma provider_translate_Gemini (env : Backends) (src dest text key : string) (st : App) :
  api_keys st !! Gemini_service = Some key -> key <> "" ->
  provider_translate env Gemini_service src dest text st =
    call env (Gemini_generate_content key "gemini-1.5-pro-latest"
                (gemini_prompt src dest text)) st.
Proof.
  intros Hkey Hne. unfold provider_translate.
  change (String.eqb Gemini_service Google_service) with false.
  change (String.eqb Gemini_service Groq_service) with false.
  change (String.eqb Gemini_service Gemini_service) with true. cbv iota.
  unfold require_api_key, bind, get, ret. rewrite Hkey.
  apply is_empty_false in Hne. rewrite Hne. reflexivity.
Qed.

Lemma normalizing_run_normalized (env : Backends) (post : string -> string) (st : App) :
  source_text_of st <> "" ->
  normalizing_run env post (set_last_source_text (source_text_of st) st)
    (provider_translate env (translator_combo (ui st)) (src_lang_name_of st)
       (dest_lang_name_of st) (source_text_of st)
       (set_last_source_text (source_text_of st) st)) ->
  normalized_via env post st.
Proof.
  intros Hsrc Hrun. unfold normalized_via. cbv zeta. unfold exec.
  pose proof (provider_translate_frame env (translator_combo (ui st)) (src_lang_name_of st)
                (dest_lang_name_of st) (source_text_of st)
                (set_last_source_text (source_text_of st) st)) as (Hdir & _).
  rewrite (translate_text_run env st Hsrc Hdir). simpl snd.
  rewrite pane_with_text.
  assert (Hcalls : forall txt s,
            calls (world (with_text (target_side st) txt s)) = calls (world s)).
  { intros txt s. unfold with_text. destruct (target_side st); reflexivity. }
  rewrite Hcalls.
  inversion Hrun as [e He|c0 e Hc0 Hreply He|c0 content Hc0 Hreply He];
    simpl fst; simpl snd; intros pre c rest out Heq Hprov Hout.
  - simpl in Heq. rewrite <- (app_nil_r (calls (world st))) in Heq at 1.
    apply app_inv_head in Heq. destruct pre; discriminate Heq.
  - rewrite calls_with_calls in Heq. simpl in Heq, Hreply. apply app_inv_head in Heq.
    destruct pre as [|c1 pre]; simpl in Heq.
    + injection Heq as <- <-. rewrite app_nil_r in Hout. congruence.
    + injection Heq as _ Heq. destruct pre; discriminate Heq.
  - rewrite calls_with_calls in Heq. simpl in Heq, Hreply. apply app_inv_head in Heq.
    destruct pre as [|c1 pre]; simpl in Heq.
    + injection Heq as <- <-. rewrite app_nil_r in Hout.
      assert (out = content) as -> by congruence.
      split; reflexivity.
    + injection Heq as <- Heq. destruct pre as [|c2 pre]; simpl in Heq.
      * injection Heq as <- <-. discriminate Hprov.
      * injection Heq as _ Heq. destruct pre; discriminate Heq.
Qed.

Lemma blank_source_normalized (env : Backends) (post : string -> string) (st : App) :
  source_text_of st = "" -> normalized_via env post st.
Proof.
  intros Hblank. unfold normalized_via. cbv zeta. unfold exec.
  rewrite (translate_text_blank env st Hblank). simpl snd.
  intros pre c rest out Heq _ _.
  assert (Hcalls : calls (world (with_text (target_side st) "" st)) = calls (world st)).
  { unfold with_text. destruct (target_side st); reflexivity. }
  rewrite Hcalls in Heq. rewrite <- (app_nil_r (calls (world st))) in Heq at 1.
  apply app_inv_head in Heq. destruct pre; discriminate Heq.
Qed.

(** What the three branches do when the target language is 中文: the Groq Llama3
    branch hands the stripped and unquoted answer of the model, and the
    Translators branch the answer of the engine, to the OpenCC [s2twp]
    conversion and writes the converted text; the Gemini Pro branch makes
    the Gemini call only and writes the response text. *)
Theorem s2twp_after_Groq_and_Translators (env : Backends) (st : App) :
  dest_lang_name_of st = "中文" ->
  (translator_combo (ui st) = Groq_service ->
   normalized_via env (fun content => strip_char dquote (strip content)) st) /\
  (translator_combo (ui st) = Translators_service ->
   normalized_via env (fun content => content) st) /\
  (translator_combo (ui st) = Gemini_service ->
   source_text_of st <> "" ->
   forall key, api_keys st !! Gemini_service = Some key -> key <> "" ->
   let c := Gemini_generate_content key "gemini-1.5-pro-latest"
              (gemini_prompt (src_lang_name_of st) "中文" (source_text_of st)) in
   calls (world (exec (translate_text env) st)) = calls (world st) ++ [c] /\
   toPlainText (pane (target_side st) (exec (translate_text env) st)) =
     match reply env (calls (world st)) c with
     | Returned response_text => response_text
     | Raised e => error_text e
     end).
Proof.
  intros Hdest. split; [|split].
  - intros Hs.
    destruct (string_dec (source_text_of st) "") as [Hblank|Hsrc];
      [apply blank_source_normalized; exact Hblank|].
    apply (normalizing_run_normalized env _ st Hsrc).
    rewrite Hs, Hdest. apply provider_translate_Groq_chinese.
  - intros Hs.
    destruct (string_dec (source_text_of st) "") as [Hblank|Hsrc];
      [apply blank_source_normalized; exact Hblank|].
    apply (normalizing_run_normalized env _ st Hsrc).
    rewrite Hs, Hdest. apply provider_translate_Translators_chinese.
  - intros Hs Hsrc key Hkey Hne c. subst c. unfold exec.
    pose proof (provider_translate_frame env (translator_combo (ui st))
                  (src_lang_name_of st) (dest_lang_name_of st) (source_text_of st)
                  (set_last_source_text (source_text_of st) st)) as (Hdir & _).
    rewrite (translate_text_run env st Hsrc Hdir). simpl snd.
    rewrite pane_with_text. rewrite Hs, Hdest.
    rewrite (provider_translate_Gemini env _ _ _ key) by assumption.
    rewrite call_run. simpl fst. simpl snd. split; [|reflexivity].
    unfold with_text. destruct (target_side st); reflexivity.
Qed.

Lemma s2twp_after_Groq_and_Translators_witness :
  let st := english_to_chinese Groq_service in
  dest_lang_name_of st = "中文" /\
  normalized_via sample_env (fun content => strip_char dquote (strip content)) st /\
  calls (world (exec (translate_text sample_env) st)) =
    [Groq_chat_completions_create "gsk-1" "llama3-70b-8192"
       (refinement_prompt "英文" "中文" "" "Hello");
     OpenCC_convert "s2twp" "简体"] /\
  toPlainText (pane (target_side st) (exec (translate_text sample_env) st)) = "簡體".
Proof.
  assert (Hdest : dest_lang_name_of (english_to_chinese Groq_service) = "中文")
    by (vm_compute; reflexivity).
  destruct (s2twp_after_Groq_and_Translators sample_env _ Hdest) as (Hnorm & _).
  cbv zeta. split; [exact Hdest|]. split; [|split].
  - apply Hnorm. reflexivity.
  - vm_compute. reflexivity.
  - vm_compute. reflexivity.
Defined.

(** C4 fails on the code for Gemini Pro.  In a session with Chinese as the
    target language, Gemini Pro selected and its key saved, the timer
    fires on "Hello": the only call made is the Gemini call, and its
    simplified-script answer is in the target pane as it came, although
    the [s2twp] conversion would have changed it. *)
Theorem Gemini_output_not_normalized :
  let st := typed_hello_for_Gemini in
  let st' := exec (translate_timer_timeout sample_env) st in
  reachable sample_env st /\
  dest_lang_name_of st = "中文" /\
  translator_combo (ui st) = Gemini_service /\
  translate_timer st = Some 1200 /\
  calls (world st') =
    [Gemini_generate_content "AIza-1" "gemini-1.5-pro-latest"
       (gemini_prompt "英文" "中文" "Hello")] /\
  toPlainText (pane (target_side st) st') = "简体" /\
  reply sample_env (calls (world st')) (OpenCC_convert "s2twp" "简体") = Returned "簡體" /\
  ~ normalized_before_written sample_env st.
Proof.
  cbv zeta. split; [|repeat split; try (vm_compute; reflexivity)].
  - apply run_events_reachable. apply reachable_init.
  - intros [post H].
    destruct (H [] (Gemini_generate_content "AIza-1" "gemini-1.5-pro-latest"
                      (gemini_prompt "英文" "中文" "Hello")) [] "简体")
      as (Hrest & _); try (vm_compute; reflexivity).
    discriminate Hrest.
Qed.

(* ===================================================================== *)
(** ** Temporary audio files: properties                                 *)
(* ===================================================================== *)

Lemma filter_all {A} (P : A -> Prop) `{forall x, Decision (P x)} (l : list A) :
  (forall x, x ∈ l -> P x) -> filter P l = l.
Proof.
  induction l as [|y l IH]; intros Hall; [reflexivity|].
  rewrite filter_cons_True by (apply Hall; left).
  f_equal. apply IH. intros x Hx. apply Hall. right. exact Hx.
Qed.

Lemma filter_ext_in {A} (P1 P2 : A -> Prop)
    `{forall x, Decision (P1 x)} `{forall x, Decision (P2 x)} (l : list A) :
  (forall x, x ∈ l -> (P1 x <-> P2 x)) -> filter P1 l = filter P2 l.
Proof.
  induction l as [|y l IH]; intros Hiff; [reflexivity|].
  assert (IH' : filter P1 l = filter P2 l).
  { apply IH. intros x Hx. apply Hiff. right. exact Hx. }
  destruct (decide (P1 y)) as [Hy|Hy].
  - rewrite !filter_cons_True; [rewrite IH'; reflexivity| |exact Hy].
    apply Hiff; [left|exact Hy].
  - rewrite !filter_cons_False; [exact IH'| |exact Hy].
    intros Hy2. apply Hy. apply Hiff; [left|exact Hy2].
Qed.

Lemma filter_none {A} (P : A -> Prop) `{forall x, Decision (P x)} (l : list A) :
  (forall x, x ∈ l -> ~ P x) -> filter P l = [].
Proof.
  induction l as [|y l IH]; intros Hnone; [reflexivity|].
  rewrite filter_cons_False by (apply Hnone; left).
  apply IH. intros x Hx. apply Hnone. right. exact Hx.
Qed.

Lemma remove_elem_of {A} `{EqDecision A} (x : A) (l : list A) :
  x ∈ l -> NoDup l -> Py.remove x l = Some (filter (fun y => y <> x) l).
Proof.
  induction l as [|y l IH]; intros Hin Hnd.
  - inversion Hin.
  - apply NoDup_cons in Hnd as [Hy Hnd]. simpl.
    destruct (decide (x = y)) as [->|Hne].
    + rewrite filter_cons_False by (intros Hc; apply Hc; reflexivity).
      f_equal. symmetry. apply filter_all. intros z Hz ->. contradiction.
    + rewrite filter_cons_True by congruence.
      apply elem_of_cons in Hin as [Heq|Hin]; [contradiction|].
      rewrite (IH Hin Hnd). reflexivity.
Qed.

Lemma os_unlink_deletable (path : string) (st : App) :
  deletable (disk (world st)) path = true ->
  os_unlink path st = (Returned tt, set_disk_of (delete path) st).
Proof.
  unfold deletable, os_unlink, bind, get. intros H.
  destruct (disk (world st) !! path) as [f|]; [|discriminate H].
  apply negb_true_iff in H. rewrite H. reflexivity.
Qed.

Lemma os_unlink_fails (path : string) (st : App) :
  deletable (disk (world st)) path = false ->
  exists e, os_unlink path st = (Raised e, st) /\ is_OSError (exn_class e) = true.
Proof.
  unfold deletable, os_unlink, bind, get, raise. intros H.
  destruct (disk (world st) !! path) as [f|].
  - apply negb_false_iff in H. rewrite H. eexists. split; reflexivity.
  - eexists. split; reflexivity.
Qed.

Lemma cleanup_single_file_untracked (path : string) (st : App) :
  path ∉ temp_files st -> cleanup_single_file path st = (Returned tt, st).
Proof.
  intros H. unfold cleanup_single_file, bind, get.
  apply contains_false in H. rewrite H. reflexivity.
Qed.

(** A tracked file that can be unlinked is unlinked and untracked. *)
Lemma cleanup_single_file_deletes (path : string) (st : App) :
  path ∈ temp_files st -> NoDup (temp_files st) ->
  deletable (disk (world st)) path = true ->
  cleanup_single_file path st =
    (Returned tt,
     set_temp_files (filter (fun q => q <> path) (temp_files st))
       (set_disk_of (delete path) st)).
Proof.
  intros Hin Hnd Hdel. unfold cleanup_single_file, bind at 1, get.
  apply contains_true in Hin as Hc. rewrite Hc.
  unfold try_except, bind. rewrite (os_unlink_deletable path st Hdel).
  unfold temp_files_remove, bind, get. simpl temp_files.
  rewrite (remove_elem_of path (temp_files st) Hin Hnd). reflexivity.
Qed.

(** A tracked file that cannot be unlinked stays on disk and stays
    tracked: the [except] clause prints and nothing else happens. *)
Lemma cleanup_single_file_keeps (path : string) (st : App) :
  path ∈ temp_files st ->
  deletable (disk (world st)) path = false ->
  exists line, cleanup_single_file path st = (Returned tt, printed line st).
Proof.
  intros Hin Hdel. unfold cleanup_single_file, bind at 1, get.
  apply contains_true in Hin as Hc. rewrite Hc.
  destruct (os_unlink_fails path st Hdel) as (e & Hrun & Hos).
  unfold try_except, bind. rewrite Hrun, Hos. eexists. reflexivity.
Qed.

Lemma deletable_delete_ne (d : gmap string File) (p q : string) :
  q <> p -> deletable (delete p d) q = deletable d q.
Proof. intros H. unfold deletable. rewrite lookup_delete_ne by congruence. reflexivity. Qed.

(** The loop of [cleanup_all_temp_files] over the paths [todo], all
    tracked and pairwise distinct: the paths of [todo] that can be
    unlinked leave the disk and the tracked list, everything else stays. *)
Lemma cleanup_loop (todo : list string) : forall st : App,
  NoDup todo -> NoDup (temp_files st) ->
  (forall p, p ∈ todo -> p ∈ temp_files st) ->
  exists st',
    for_each todo cleanup_single_file st = (Returned tt, st') /\
    temp_files st' =
      filter (fun q => ~ (q ∈ todo /\ deletable (disk (world st)) q = true))
             (temp_files st) /\
    (forall q, disk (world st') !! q =
       if bool_decide (q ∈ todo) && deletable (disk (world st)) q
       then None else disk (world st) !! q) /\
    player st' = player st /\ current_playing_file st' = current_playing_file st.
Proof.
  induction todo as [|p todo IH]; intros st Hnd Hndt Hsub.
  - exists st. simpl. split; [reflexivity|]. split; [|split; [|split]]; try reflexivity.
    symmetry. apply filter_all. intros q _ [Hq _]. inversion Hq.
  - apply NoDup_cons in Hnd as [Hp Hnd].
    assert (Hin : p ∈ temp_files st) by (apply Hsub; left).
    simpl for_each.
    destruct (deletable (disk (world st)) p) eqn:Hdel.
    + rewrite (bind_returned _ _ _ _ _ (cleanup_single_file_deletes p st Hin Hndt Hdel)).
      set (st1 := set_temp_files _ _).
      destruct (IH st1 Hnd) as (st' & Hrun & Htf & Hdisk & Hpl & Hcur).
      { subst st1. simpl. apply NoDup_filter. exact Hndt. }
      { intros q Hq. subst st1. simpl. apply list_elem_of_filter. split.
        - intros ->. contradiction.
        - apply Hsub. right. exact Hq. }
      exists st'. split; [exact Hrun|]. split; [|split; [|split]].
      * rewrite Htf. subst st1. simpl. rewrite list_filter_filter.
        apply list_filter_iff. intros q. split.
        -- intros [Hq Hne] [Hq' Hd]. apply Hq.
           apply elem_of_cons in Hq' as [->|Hq']; [contradiction|].
           split; [exact Hq'|]. rewrite deletable_delete_ne by exact Hne. exact Hd.
        -- intros Hq. split.
           ++ intros [Hq' Hd]. apply Hq. split; [right; exact Hq'|].
              destruct (decide (q = p)) as [->|Hne]; [exact Hdel|].
              rewrite deletable_delete_ne in Hd by exact Hne. exact Hd.
           ++ intros ->. apply Hq. split; [left|exact Hdel].
      * intros q. rewrite Hdisk. subst st1. simpl.
        destruct (decide (q = p)) as [->|Hne].
        -- rewrite lookup_delete_eq, Hdel.
           rewrite (bool_decide_eq_true_2 (p ∈ p :: todo)) by left.
           destruct (bool_decide (p ∈ todo) && deletable (delete p (disk (world st))) p);
             reflexivity.
        -- rewrite lookup_delete_ne by congruence.
           rewrite deletable_delete_ne by exact Hne.
           assert (Hb : bool_decide (q ∈ p :: todo) = bool_decide (q ∈ todo)).
           { apply bool_decide_ext. rewrite elem_of_cons. tauto. }
           rewrite Hb. reflexivity.
      * rewrite Hpl. reflexivity.
      * rewrite Hcur. reflexivity.
    + destruct (cleanup_single_file_keeps p st Hin Hdel) as (line & Hkeep).
      rewrite (bind_returned _ _ _ _ _ Hkeep).
      destruct (IH (printed line st) Hnd Hndt) as (st' & Hrun & Htf & Hdisk & Hpl & Hcur).
      { intros q Hq. apply Hsub. right. exact Hq. }
      exists st'. split; [exact Hrun|]. split; [|split; [|split]].
      * rewrite Htf. simpl. apply list_filter_iff. intros q. split.
        -- intros Hq [Hq' Hd]. apply Hq.
           apply elem_of_cons in Hq' as [->|Hq']; [congruence|]. split; assumption.
        -- intros Hq [Hq' Hd]. apply Hq. split; [right; exact Hq'|exact Hd].
      * intros q. rewrite Hdisk. simpl.
        destruct (decide (q = p)) as [->|Hne].
        -- rewrite Hdel, !andb_false_r. reflexivity.
        -- assert (Hb : bool_decide (q ∈ p :: todo) = bool_decide (q ∈ todo)).
           { apply bool_decide_ext. rewrite elem_of_cons. tauto. }
           rewrite Hb. reflexivity.
      * rewrite Hpl. reflexivity.
      * rewrite Hcur. reflexivity.
Qed.

Lemma stop_audio_run (st : App) :
  exists st0, stop_audio st = (Returned tt, st0) /\
    temp_files st0 = temp_files st /\ world st0 = world st.
Proof.
  unfold stop_audio, bind, get. destruct (playing (player st)).
  - eexists. split; [reflexivity|]. split; reflexivity.
  - exists st. split; [reflexivity|]. split; reflexivity.
Qed.

Lemma print_run (line : string) (st : App) : print line st = (Returned tt, printed line st).
Proof. reflexivity. Qed.

(** What [cleanup_all_temp_files] of v1.1 does to the tracked list and to
    the disk, for pairwise distinct tracked paths. *)
Lemma cleanup_all_temp_files_run (st : App) :
  NoDup (temp_files st) ->
  exists st',
    cleanup_all_temp_files st = (Returned tt, st') /\
    temp_files st' =
      filter (fun p => deletable (disk (world st)) p = false) (temp_files st) /\
    (forall q, disk (world st') !! q =
       if bool_decide (q ∈ temp_files st) && deletable (disk (world st)) q
       then None else disk (world st) !! q).
Proof.
  intros Hnd. unfold cleanup_all_temp_files.
  destruct (stop_audio_run st) as (st0 & Hstop & Htf0 & Hw0).
  rewrite (bind_returned _ _ _ _ _ Hstop). unfold bind at 1, get.
  destruct (cleanup_loop (temp_files st0) st0) as (st1 & Hloop & Htf & Hdisk & _).
  { rewrite Htf0. exact Hnd. }
  { rewrite Htf0. exact Hnd. }
  { intros p Hp. exact Hp. }
  rewrite (bind_returned _ _ _ _ _ Hloop). rewrite print_run.
  eexists. split; [reflexivity|]. simpl. rewrite Htf, Htf0, Hw0. split.
  - apply filter_ext_in. intros p Hp. split.
    + intros H. destruct (deletable (disk (world st)) p) eqn:Hd; [|reflexivity].
      exfalso. apply H. split; [exact Hp|reflexivity].
    + intros Hd [_ Hd']. congruence.
  - intros q. rewrite Hdisk, Htf0, Hw0. reflexivity.
Qed.

(** The loop of [cleanup_all_temp_files] of v1.0: files that can be
    unlinked go, the tracked list is not touched. *)
Lemma V10_cleanup_loop (todo : list string) : forall st : App,
  exists st',
    for_each todo (fun temp_file =>
      try_except
        (let! st := get in
         if bool_decide (is_Some (disk (world st) !! temp_file)) then os_unlink temp_file
         else pass)
        is_OSError
        (fun e => print ("程序退出清理時出錯: " +:+ exn_str e))) st = (Returned tt, st') /\
    temp_files st' = temp_files st /\
    (forall q, disk (world st') !! q =
       if bool_decide (q ∈ todo) && deletable (disk (world st)) q
       then None else disk (world st) !! q).
Proof.
  induction todo as [|p todo IH]; intros st.
  - exists st. split; [reflexivity|]. split; reflexivity.
  - simpl for_each.
    assert (Hstep : exists st1,
      try_except
        (let! st := get in
         if bool_decide (is_Some (disk (world st) !! p)) then os_unlink p else pass)
        is_OSError
        (fun e => print ("程序退出清理時出錯: " +:+ exn_str e)) st = (Returned tt, st1) /\
      temp_files st1 = temp_files st /\
      disk (world st1) =
        (if deletable (disk (world st)) p then delete p (disk (world st))
         else disk (world st))).
    { unfold try_except, bind, get.
      destruct (deletable (disk (world st)) p) eqn:Hdel.
      - assert (Hex : bool_decide (is_Some (disk (world st) !! p)) = true).
        { apply bool_decide_eq_true. unfold deletable in Hdel.
          destruct (disk (world st) !! p); [eexists; reflexivity|discriminate]. }
        rewrite Hex, (os_unlink_deletable p st Hdel).
        eexists. split; [reflexivity|]. split; reflexivity.
      - destruct (bool_decide (is_Some (disk (world st) !! p))).
        + destruct (os_unlink_fails p st Hdel) as (e & Hrun & Hos).
          rewrite Hrun, Hos. eexists. split; [reflexivity|]. split; reflexivity.
        + exists st. split; [reflexivity|]. split; reflexivity. }
    destruct Hstep as (st1 & Hstep & Htf1 & Hd1).
    rewrite (bind_returned _ _ _ _ _ Hstep).
    destruct (IH st1) as (st' & Hrun & Htf & Hdisk).
    exists st'. split; [exact Hrun|]. split; [congruence|].
    intros q. rewrite Hdisk, Hd1.
    destruct (decide (q = p)) as [->|Hne].
    + rewrite (bool_decide_eq_true_2 (p ∈ p :: todo)) by left.
      destruct (deletable (disk (world st)) p) eqn:Hdel; simpl.
      * unfold deletable at 1. rewrite lookup_delete_eq. rewrite andb_false_r.
        reflexivity.
      * rewrite Hdel, andb_false_r. reflexivity.
    + assert (Hb : bool_decide (q ∈ p :: todo) = bool_decide (q ∈ todo)).
      { apply bool_decide_ext. rewrite elem_of_cons. tauto. }
      rewrite Hb.
      destruct (deletable (disk (world st)) p) eqn:Hdel.
      * rewrite deletable_delete_ne by exact Hne.
        rewrite lookup_delete_ne by congruence. reflexivity.
      * reflexivity.
Qed.

Lemma V10_stop_audio_run (st : App) :
  exists st0, V10.stop_audio st = (Returned tt, st0) /\
    temp_files st0 = temp_files st /\ world st0 = world st.
Proof.
  unfold V10.stop_audio, bind, get. destruct (playing (player st)).
  - simpl. destruct (current_playing_file st) as [p|].
    + destruct (is_empty p); eexists; (split; [reflexivity|]); split; reflexivity.
    + eexists. split; [reflexivity|]. split; reflexivity.
  - exists st. split; [reflexivity|]. split; reflexivity.
Qed.

Lemma V10_cleanup_all_temp_files_run (st : App) :
  exists st',
    V10.cleanup_all_temp_files st = (Returned tt, st') /\
    temp_files st' = temp_files st /\
    (forall q, disk (world st') !! q =
       if bool_decide (q ∈ temp_files st) && deletable (disk (world st)) q
       then None else disk (world st) !! q).
Proof.
  unfold V10.cleanup_all_temp_files.
  destruct (V10_stop_audio_run st) as (st0 & Hstop & Htf0 & Hw0).
  rewrite (bind_returned _ _ _ _ _ Hstop). unfold bind at 1, get.
  destruct (V10_cleanup_loop (temp_files st0) st0) as (st' & Hrun & Htf & Hdisk).
  exists st'. split; [exact Hrun|]. split; [congruence|].
  intros q. rewrite Hdisk, Htf0, Hw0. reflexivity.
Qed.

(** What [os.unlink] raises for a path depends on the file at that path
    only. *)
Lemma os_unlink_same_file (p : string) (st1 st2 : App) (e : Exn) :
  disk (world st1) !! p = disk (world st2) !! p ->
  os_unlink p st1 = (Raised e, st1) -> os_unlink p st2 = (Raised e, st2).
Proof.
  unfold os_unlink, bind, get, raise. intros <-.
  destruct (disk (world st1) !! p) as [f|].
  - destruct (locked f); [|discriminate]. intros H. injection H as ->. reflexivity.
  - intros H. injection H as ->. reflexivity.
Qed.

Lemma unlink_errors_printed_same_files (st1 st2 : App) (report : string -> Exn -> string)
    (paths lines : list string) :
  (forall p, p ∈ paths -> disk (world st1) !! p = disk (world st2) !! p) ->
  unlink_errors_printed st1 report paths lines ->
  unlink_errors_printed st2 report paths lines.
Proof.
  intros Hsame H. induction H as [|p line paths lines (e & He & Hline) H IH].
  - constructor.
  - constructor.
    + exists e. split; [|exact Hline].
      apply (os_unlink_same_file p st1 st2 e); [apply Hsame; left|exact He].
    + apply IH. intros q Hq. apply Hsame. right. exact Hq.
Qed.

(** A tracked file that cannot be unlinked: the line that is printed. *)
Lemma cleanup_single_file_prints (path : string) (st : App) :
  path ∈ temp_files st ->
  deletable (disk (world st)) path = false ->
  exists e, os_unlink path st = (Raised e, st) /\
    cleanup_single_file path st =
      (Returned tt, printed ("清理文件 " +:+ path +:+ " 時出錯: " +:+ exn_str e) st).
Proof.
  intros Hin Hdel. unfold cleanup_single_file, bind at 1, get.
  apply contains_true in Hin as Hc. rewrite Hc.
  destruct (os_unlink_fails path st Hdel) as (e & Hrun & Hos).
  exists e. split; [exact Hrun|].
  unfold try_except, bind. rewrite Hrun, Hos. reflexivity.
Qed.

Lemma filter_deletable_same (d d' : gmap string File) (l : list string) :
  (forall q, q ∈ l -> d' !! q = d !! q) ->
  filter (fun q => deletable d' q = false) l = filter (fun q => deletable d q = false) l.
Proof.
  intros H. apply filter_ext_in. intros q Hq. unfold deletable. rewrite (H q Hq). tauto.
Qed.

(** The lines the loop of [cleanup_all_temp_files] prints: one for each
    path it cannot unlink, in the order of the list. *)
Lemma cleanup_loop_prints (todo : list string) : forall st : App,
  NoDup todo -> NoDup (temp_files st) ->
  (forall p, p ∈ todo -> p ∈ temp_files st) ->
  exists lines,
    unlink_errors_printed st (fun p e => "清理文件 " +:+ p +:+ " 時出錯: " +:+ exn_str e)
      (filter (fun q => deletable (disk (world st)) q = false) todo) lines /\
    stdout (world (exec (for_each todo cleanup_single_file) st)) =
      stdout (world st) ++ lines.
Proof.
  induction todo as [|p todo IH]; intros st Hnd Hndt Hsub.
  - exists []. split; [constructor|]. unfold exec. simpl. rewrite app_nil_r. reflexivity.
  - apply NoDup_cons in Hnd as [Hp Hnd].
    assert (Hin : p ∈ temp_files st) by (apply Hsub; left).
    unfold exec. simpl for_each.
    destruct (deletable (disk (world st)) p) eqn:Hdel.
    + rewrite (bind_returned _ _ _ _ _ (cleanup_single_file_deletes p st Hin Hndt Hdel)).
      set (st1 := set_temp_files _ _).
      assert (Hdisk1 : forall q, q ∈ todo -> disk (world st1) !! q = disk (world st) !! q).
      { intros q Hq. subst st1. simpl. apply lookup_delete_ne. intros ->. contradiction. }
      destruct (IH st1 Hnd) as (lines & Hlines & Hout).
      { subst st1. simpl. apply NoDup_filter. exact Hndt. }
      { intros q Hq. subst st1. simpl. apply list_elem_of_filter. split.
        - intros ->. contradiction.
        - apply Hsub. right. exact Hq. }
      exists lines. split.
      * rewrite filter_cons_False by (rewrite Hdel; discriminate).
        rewrite <- (filter_deletable_same _ _ todo Hdisk1).
        apply (unlink_errors_printed_same_files st1); [|exact Hlines].
        intros q Hq. apply Hdisk1. apply list_elem_of_filter in Hq as [_ Hq]. exact Hq.
      * unfold exec in Hout. rewrite Hout. reflexivity.
    + destruct (cleanup_single_file_prints p st Hin Hdel) as (e & He & Hkeep).
      rewrite (bind_returned _ _ _ _ _ Hkeep).
      set (st1 := printed _ st).
      destruct (IH st1 Hnd Hndt) as (lines & Hlines & Hout).
      { intros q Hq. apply Hsub. right. exact Hq. }
      exists (("清理文件 " +:+ p +:+ " 時出錯: " +:+ exn_str e) :: lines). split.
      * rewrite filter_cons_True by exact Hdel. constructor.
        -- exists e. split; [exact He|reflexivity].
        -- apply (unlink_errors_printed_same_files st1); [reflexivity|exact Hlines].
      * unfold exec in Hout. rewrite Hout. subst st1. simpl.
        rewrite <- app_assoc. reflexivity.
Qed.

Lemma cleanup_all_temp_files_prints (st : App) :
  NoDup (temp_files st) ->
  exists lines,
    unlink_errors_printed st (fun p e => "清理文件 " +:+ p +:+ " 時出錯: " +:+ exn_str e)
      (filter (fun p => deletable (disk (world st)) p = false) (temp_files st)) lines /\
    stdout (world (exec cleanup_all_temp_files st)) =
      stdout (world st) ++ lines ++ ["所有臨時文件已清理。"].
Proof.
  intros Hnd. unfold exec, cleanup_all_temp_files.
  destruct (stop_audio_run st) as (st0 & Hstop & Htf0 & Hw0).
  rewrite (bind_returned _ _ _ _ _ Hstop). unfold bind at 1, get.
  destruct (cleanup_loop (temp_files st0) st0) as (st1 & Hloop & _).
  { rewrite Htf0. exact Hnd. }
  { rewrite Htf0. exact Hnd. }
  { intros p Hp. exact Hp. }
  destruct (cleanup_loop_prints (temp_files st0) st0) as (lines & Hlines & Hout).
  { rewrite Htf0. exact Hnd. }
  { rewrite Htf0. exact Hnd. }
  { intros p Hp. exact Hp. }
  unfold exec in Hout. rewrite Hloop in Hout. simpl in Hout.
  rewrite (bind_returned _ _ _ _ _ Hloop). rewrite print_run. simpl.
  exists lines. split.
  - rewrite Htf0, Hw0 in Hlines.
    apply (unlink_errors_printed_same_files st0); [|exact Hlines].
    intros p _. rewrite Hw0. reflexivity.
  - rewrite Hout, Hw0, <- app_assoc. reflexivity.
Qed.

Lemma held_delete (d : gmap string File) (p q : string) :
  deletable d p = true -> held (delete p d) q = held d q.
Proof.
  unfold deletable, held. intros H. destruct (decide (q = p)) as [->|Hne].
  - rewrite lookup_delete_eq. destruct (d !! p) as [f|]; [|reflexivity].
    apply negb_true_iff in H. rewrite H. reflexivity.
  - rewrite lookup_delete_ne by congruence. reflexivity.
Qed.

(** The lines the loop of v1.0 prints: one for each file that is held
    open, in the order of the list. *)
Lemma V10_cleanup_loop_prints (todo : list string) : forall st : App,
  exists lines,
    unlink_errors_printed st (fun _ e => "程序退出清理時出錯: " +:+ exn_str e)
      (filter (fun q => held (disk (world st)) q = true) todo) lines /\
    stdout (world (exec (for_each todo (fun temp_file =>
      try_except
        (let! st := get in
         if bool_decide (is_Some (disk (world st) !! temp_file)) then os_unlink temp_file
         else pass)
        is_OSError
        (fun e => print ("程序退出清理時出錯: " +:+ exn_str e)))) st)) =
      stdout (world st) ++ lines.
Proof.
  induction todo as [|p todo IH]; intros st.
  - exists []. split; [constructor|]. unfold exec. simpl. rewrite app_nil_r. reflexivity.
  - unfold exec. simpl for_each.
    destruct (disk (world st) !! p) as [f|] eqn:Hf.
    + destruct (locked f) eqn:Hl.
      * assert (Hdel : deletable (disk (world st)) p = false)
          by (unfold deletable; rewrite Hf, Hl; reflexivity).
        destruct (os_unlink_fails p st Hdel) as (e & Hrun & Hos).
        assert (Hstep : try_except
            (let! st := get in
             if bool_decide (is_Some (disk (world st) !! p)) then os_unlink p else pass)
            is_OSError
            (fun e => print ("程序退出清理時出錯: " +:+ exn_str e)) st =
            (Returned tt, printed ("程序退出清理時出錯: " +:+ exn_str e) st)).
        { unfold try_except, bind, get.
          rewrite bool_decide_eq_true_2 by (rewrite Hf; eexists; reflexivity).
          rewrite Hrun, Hos. reflexivity. }
        rewrite (bind_returned _ _ _ _ _ Hstep).
        destruct (IH (printed ("程序退出清理時出錯: " +:+ exn_str e) st))
          as (lines & Hlines & Hout).
        exists (("程序退出清理時出錯: " +:+ exn_str e) :: lines). split.
        -- rewrite filter_cons_True by (unfold held; rewrite Hf; exact Hl).
           constructor; [exists e; split; [exact Hrun|reflexivity]|].
           apply (unlink_errors_printed_same_files
                    (printed ("程序退出清理時出錯: " +:+ exn_str e) st));
             [reflexivity|exact Hlines].
        -- unfold exec in Hout. rewrite Hout. simpl. rewrite <- app_assoc. reflexivity.
      * assert (Hdel : deletable (disk (world st)) p = true)
          by (unfold deletable; rewrite Hf, Hl; reflexivity).
        assert (Hstep : try_except
            (let! st := get in
             if bool_decide (is_Some (disk (world st) !! p)) then os_unlink p else pass)
            is_OSError
            (fun e => print ("程序退出清理時出錯: " +:+ exn_str e)) st =
            (Returned tt, set_disk_of (delete p) st)).
        { unfold try_except, bind, get.
          rewrite bool_decide_eq_true_2 by (rewrite Hf; eexists; reflexivity).
          rewrite (os_unlink_deletable p st Hdel). reflexivity. }
        rewrite (bind_returned _ _ _ _ _ Hstep).
        destruct (IH (set_disk_of (delete p) st)) as (lines & Hlines & Hout).
        exists lines. split.
        -- rewrite filter_cons_False by (unfold held; rewrite Hf, Hl; discriminate).
           assert (Hfil :
             filter (fun q => held (disk (world (set_disk_of (delete p) st))) q = true) todo
             = filter (fun q => held (disk (world st)) q = true) todo).
           { apply filter_ext_in. intros q _. simpl. rewrite (held_delete _ _ _ Hdel). tauto. }
           rewrite Hfil in Hlines.
           apply (unlink_errors_printed_same_files (set_disk_of (delete p) st));
             [|exact Hlines].
           intros q Hq. apply list_elem_of_filter in Hq as [Hq _]. simpl.
           apply lookup_delete_ne. intros ->. unfold held in Hq. rewrite Hf, Hl in Hq.
           discriminate Hq.
        -- unfold exec in Hout. rewrite Hout. reflexivity.
    + assert (Hstep : try_except
          (let! st := get in
           if bool_decide (is_Some (disk (world st) !! p)) then os_unlink p else pass)
          is_OSError
          (fun e => print ("程序退出清理時出錯: " +:+ exn_str e)) st = (Returned tt, st)).
      { unfold try_except, bind, get.
        rewrite bool_decide_eq_false_2 by (rewrite Hf; intros [? ?]; discriminate).
        reflexivity. }
      rewrite (bind_returned _ _ _ _ _ Hstep).
      destruct (IH st) as (lines & Hlines & Hout).
      exists lines. split.
      * rewrite filter_cons_False by (unfold held; rewrite Hf; discriminate). exact Hlines.
      * unfold exec in Hout. exact Hout.
Qed.

Lemma V10_cleanup_all_temp_files_prints (st : App) :
  exists lines,
    unlink_errors_printed st (fun _ e => "程序退出清理時出錯: " +:+ exn_str e)
      (filter (fun p => held (disk (world st)) p = true) (temp_files st)) lines /\
    stdout (world (exec V10.cleanup_all_temp_files st)) = stdout (world st) ++ lines.
Proof.
  unfold exec, V10.cleanup_all_temp_files.
  destruct (V10_stop_audio_run st) as (st0 & Hstop & Htf0 & Hw0).
  rewrite (bind_returned _ _ _ _ _ Hstop). unfold bind at 1, get.
  destruct (V10_cleanup_loop_prints (temp_files st0) st0) as (lines & Hlines & Hout).
  exists lines. split.
  - rewrite Htf0, Hw0 in Hlines.
    apply (unlink_errors_printed_same_files st0); [|exact Hlines].
    intros p _. rewrite Hw0. reflexivity.
  - rewrite <- Hw0. exact Hout.
Qed.

(** C7, as it holds.  With pairwise distinct tracked paths,
    [cleanup_all_temp_files] returns; every tracked file that can be
    unlinked is gone from the disk and from the tracked list; a tracked
    file that cannot be unlinked (held open, or already gone) is left as
    it is and stays tracked, and for each of them, in their order, the
    error is printed, before the closing line.  So when every tracked file
    can be unlinked, nothing is tracked and none of the paths is on disk
    any more.  The v1.0 method returns as well, removes the same files
    from the disk and prints the error for each file that is held open. *)
Theorem cleanup_all_temp_files_best_effort (st : App) :
  NoDup (temp_files st) ->
  let st' := exec cleanup_all_temp_files st in
  let can_unlink := deletable (disk (world st)) in
  outcome cleanup_all_temp_files st = Returned tt /\
  temp_files st' = filter (fun p => can_unlink p = false) (temp_files st) /\
  (forall p, p ∈ temp_files st -> can_unlink p = true -> disk (world st') !! p = None) /\
  (forall p, can_unlink p = false -> disk (world st') !! p = disk (world st) !! p) /\
  (exists lines,
     unlink_errors_printed st
       (fun p e => "清理文件 " +:+ p +:+ " 時出錯: " +:+ exn_str e) (temp_files st') lines /\
     stdout (world st') = stdout (world st) ++ lines ++ ["所有臨時文件已清理。"]) /\
  ((forall p, p ∈ temp_files st -> can_unlink p = true) -> shutdown_leaves_nothing st) /\
  outcome V10.cleanup_all_temp_files st = Returned tt /\
  (forall p, p ∈ temp_files st -> can_unlink p = true ->
     disk (world (exec V10.cleanup_all_temp_files st)) !! p = None) /\
  (forall p, can_unlink p = false ->
     disk (world (exec V10.cleanup_all_temp_files st)) !! p = disk (world st) !! p) /\
  (exists lines,
     unlink_errors_printed st (fun _ e => "程序退出清理時出錯: " +:+ exn_str e)
       (filter (fun p => held (disk (world st)) p = true) (temp_files st)) lines /\
     stdout (world (exec V10.cleanup_all_temp_files st)) = stdout (world st) ++ lines).
Proof.
  intros Hnd st' can_unlink. subst st' can_unlink.
  pose proof (cleanup_all_temp_files_prints st Hnd) as Hprints.
  pose proof (V10_cleanup_all_temp_files_prints st) as Hprints10.
  destruct (cleanup_all_temp_files_run st Hnd) as (st' & Hrun & Htf & Hdisk).
  destruct (V10_cleanup_all_temp_files_run st) as (st10 & Hrun10 & Htf10 & Hdisk10).
  unfold shutdown_leaves_nothing, outcome, exec in *. rewrite Hrun, Hrun10 in *.
  simpl fst. simpl snd in *.
  assert (Hgone : forall p, p ∈ temp_files st ->
            deletable (disk (world st)) p = true -> disk (world st') !! p = None).
  { intros p Hp Hd. rewrite Hdisk, Hd.
    rewrite (bool_decide_eq_true_2 _ Hp). reflexivity. }
  split; [reflexivity|]. split; [exact Htf|]. split; [exact Hgone|].
  split; [|split; [|split; [|split; [|split; [|split]]]]].
  - intros p Hd. rewrite Hdisk, Hd, andb_false_r. reflexivity.
  - rewrite Htf. exact Hprints.
  - intros Hall. split.
    + rewrite Htf. apply filter_none. intros p Hp Hd.
      rewrite (Hall p Hp) in Hd. discriminate Hd.
    + intros p Hp. apply Hgone; [exact Hp|apply Hall; exact Hp].
  - reflexivity.
  - intros p Hp Hd. rewrite Hdisk10, Hd.
    rewrite (bool_decide_eq_true_2 _ Hp). reflexivity.
  - intros p Hd. rewrite Hdisk10, Hd, andb_false_r. reflexivity.
  - exact Hprints10.
Qed.

Lemma cleanup_all_temp_files_best_effort_witness :
  let st := playing_second_file in
  NoDup (temp_files st) /\
  temp_files (exec cleanup_all_temp_files st) = ["/tmp/tmpb2.mp3"] /\
  disk (world (exec cleanup_all_temp_files st)) !! "/tmp/tmpa1.mp3" = None /\
  disk (world (exec cleanup_all_temp_files st)) !! "/tmp/tmpb2.mp3"
    = Some (mkFile 8192 true) /\
  stdout (world (exec cleanup_all_temp_files st)) =
    ["清理文件 /tmp/tmpb2.mp3 時出錯: [WinError 32] The process cannot access the "
     +:+ "file because it is being used by another process: '/tmp/tmpb2.mp3'";
     "所有臨時文件已清理。"].
Proof.
  assert (Hnd : NoDup (temp_files playing_second_file)).
  { apply (bool_decide_unpack _). vm_compute. exact I. }
  destruct (cleanup_all_temp_files_best_effort playing_second_file Hnd)
    as (_ & Htf & Hgone & Hkept & _).
  cbv zeta. split; [exact Hnd|]. split; [|split; [|split]].
  - rewrite Htf. vm_compute. reflexivity.
  - apply Hgone.
    + apply (bool_decide_unpack _). vm_compute. exact I.
    + vm_compute. reflexivity.
  - rewrite Hkept; vm_compute; reflexivity.
  - vm_compute. reflexivity.
Defined.

(** Counterexample to C7 as stated.  In a session in which "Hello" was
    spoken twice, the second file is playing and the media back end holds
    it open: the shutdown cleanup unlinks the first file, cannot unlink the
    second, and leaves it on disk and tracked. *)
Lemma shutdown_leaves_locked_file :
  let st := speaking_twice in
  let st' := exec cleanup_all_temp_files st in
  reachable speech_env st /\
  temp_files st = ["/tmp/tmpa1.mp3"; "/tmp/tmpb2.mp3"] /\
  current_playing_file st = Some "/tmp/tmpb2.mp3" /\
  outcome cleanup_all_temp_files st = Returned tt /\
  temp_files st' = ["/tmp/tmpb2.mp3"] /\
  disk (world st') !! "/tmp/tmpa1.mp3" = None /\
  disk (world st') !! "/tmp/tmpb2.mp3" = Some (mkFile 4096 true) /\
  ~ shutdown_leaves_nothing st.
Proof.
  cbv zeta. split; [|repeat split; try (vm_compute; reflexivity)].
  - apply run_events_reachable. apply reachable_init.
  - intros [Hempty _]. vm_compute in Hempty. discriminate Hempty.
Qed.

(** C8 fails on the code.  Right after start-up no Edge voice is selected:
    speaking "Hello" makes the synthesis raise, the error box is shown,
    and the empty temporary file is still on disk afterwards.  With Google
    TTS and a back end that writes no bytes nothing is raised:
    [speak_text] returns without any message box, and the empty file is
    still on disk. *)
Theorem failed_synthesis_leaves_temp_file :
  let raised :=
    run_events sample_env [UserTypes true "Hello"; ClicksSpeak true]
      (init_app ∅ [] ∅) in
  let empty :=
    run_events sample_env
      [UserPicksVoiceService "Google TTS"; UserTypes true "Hello"; ClicksSpeak true]
      (init_app ∅ [] ∅) in
  (reachable sample_env raised /\
   calls (world raised) = [] /\
   dialogs (world raised) =
     [mkDialog Critical "TTS Error"
        "生成語音時發生錯誤: 請先在 Edge TTS 選項中選擇一個語音"] /\
   temp_files raised = [] /\
   disk (world raised) !! "/tmp/tmpk3v9q1.mp3" = Some (mkFile 0 false)) /\
  (reachable sample_env empty /\
   calls (world empty) = [gTTS_save "Hello" "zh-TW" "/tmp/tmpk3v9q1.mp3"] /\
   dialogs (world empty) = [] /\
   temp_files empty = [] /\
   current_playing_file empty = None /\
   disk (world empty) !! "/tmp/tmpk3v9q1.mp3" = Some (mkFile 0 false)).
Proof.
  cbv zeta. split; (split; [|repeat split; vm_compute; reflexivity]).
  - apply run_events_reachable. apply reachable_init.
  - apply run_events_reachable. apply reachable_init.
Qed.

(* ===================================================================== *)
(** ** Rules for [hoare]                                                 *)
(* ===================================================================== *)

Section Rules.

Context {A B : Type}.

Lemma hoare_bind (P : App -> Prop) (m : M A) (k : A -> M B)
    (R : A -> App -> Prop) (Q : B -> App -> Prop) (E : App -> Prop) :
  hoare P m R E -> (forall a, hoare (R a) (k a) Q E) -> hoare P (bind m k) Q E.
Proof.
  intros Hm Hk st HP. unfold bind. specialize (Hm st HP).
  destruct (m st) as [[a|e] st']; [apply (Hk a st' Hm)|exact Hm].
Qed.

Lemma hoare_conseq (P P' : App -> Prop) (m : M A) (Q Q' : A -> App -> Prop)
    (E E' : App -> Prop) :
  hoare P' m Q' E' ->
  (forall st, P st -> P' st) -> (forall a st, Q' a st -> Q a st) ->
  (forall st, E' st -> E st) ->
  hoare P m Q E.
Proof.
  intros Hm HP HQ HE st H. specialize (Hm st (HP st H)).
  destruct (m st) as [[a|e] st']; [apply HQ|apply HE]; exact Hm.
Qed.

Lemma hoare_raise (P : App -> Prop) (c : ExnClass) (msg : string)
    (Q : A -> App -> Prop) :
  hoare P (raise c msg) Q P.
Proof. intros st H. exact H. Qed.

Lemma hoare_try (P : App -> Prop) (body : M A) (catches : ExnClass -> bool)
    (handler : Exn -> M A) (Q : A -> App -> Prop) (E E' : App -> Prop) :
  hoare P body Q E' -> (forall e, hoare E' (handler e) Q E) ->
  (forall st, E' st -> E st) ->
  hoare P (try_except body catches handler) Q E.
Proof.
  intros Hb Hh HE st HP. unfold try_except. specialize (Hb st HP).
  destruct (body st) as [[a|e] st']; [exact Hb|].
  destruct (catches (exn_class e)); [apply (Hh e st' Hb)|apply HE; exact Hb].
Qed.

End Rules.

Lemma hoare_get (P : App -> Prop) (E : App -> Prop) :
  hoare P get (fun a st => a = st /\ P st) E.
Proof. intros st H. split; [reflexivity|exact H]. Qed.

Lemma hoare_modify (P : App -> Prop) (f : App -> App) (Q : unit -> App -> Prop)
    (E : App -> Prop) :
  (forall st, P st -> Q tt (f st)) -> hoare P (modify f) Q E.
Proof. intros H st HP. apply H. exact HP. Qed.

Lemma hoare_pass (P : App -> Prop) (E : App -> Prop) : hoare P pass (fun _ => P) E.
Proof. intros st H. exact H. Qed.

(** Reading the object first: the rest is proved for the object read. *)
Lemma hoare_read {B} (P : App -> Prop) (k : App -> M B) (Q : B -> App -> Prop)
    (E : App -> Prop) :
  (forall st0, hoare (fun st => st = st0 /\ P st) (k st0) Q E) ->
  hoare P (bind get k) Q E.
Proof.
  intros H. apply (hoare_bind P get k (fun a st => a = st /\ P st)).
  - apply hoare_get.
  - intros st0. eapply hoare_conseq; [apply (H st0)| |auto|auto].
    intros st [-> HP]. split; [reflexivity|exact HP].
Qed.

Lemma hoare_for_each {A} (I : App -> Prop) (l : list A) (body : A -> M unit) :
  (forall x, hoare I (body x) (fun _ => I) I) ->
  hoare I (for_each l body) (fun _ => I) I.
Proof.
  intros Hbody. induction l as [|x l IH]; simpl.
  - apply hoare_pass.
  - eapply hoare_bind; [apply Hbody|]. intros u. exact IH.
Qed.

(* ===================================================================== *)
(** ** The invariant of the reachable states                             *)
(* ===================================================================== *)

Section Invariant.

Variable bound : nat.

Lemma valid_state_same_core (st st' : App) :
  same_core st st' -> valid_state st -> valid_state st'.
Proof.
  intros (Hui & Hdir & _) H. unfold valid_state, pane, lang_combo in *.
  rewrite Hui, Hdir. exact H.
Qed.

Lemma invariant_same_core (st st' : App) :
  same_core st st' -> invariant bound st -> invariant bound st'.
Proof.
  intros Hsame (Hv & Hlen & Hnd & Hdisk).
  pose proof Hsame as (Hui & Hdir & Hex & Htf & Hd).
  split; [exact (valid_state_same_core st st' Hsame Hv)|].
  split; [rewrite Hex; exact Hlen|].
  split; [rewrite Htf; exact Hnd|].
  intros p Hp. rewrite Hd. apply Hdisk. rewrite <- Htf. exact Hp.
Qed.

Lemma untracked_file_same_core (p : string) (st st' : App) :
  same_core st st' -> untracked_file bound p st -> untracked_file bound p st'.
Proof.
  intros Hsame (Hinv & Hp & Hnt).
  pose proof Hsame as (_ & _ & _ & Htf & Hd).
  split; [exact (invariant_same_core st st' Hsame Hinv)|].
  rewrite Hd, Htf. split; assumption.
Qed.

Lemma untracked_file_invariant (p : string) (st : App) :
  untracked_file bound p st -> invariant bound st.
Proof. intros (H & _). exact H. Qed.

(** Message boxes, prints, call records, the player and the timer are
    outside of what the invariant talks about. *)
Lemma hoare_same_core (I : App -> Prop) (f : App -> App) (E : App -> Prop) :
  (forall st st', same_core st st' -> I st -> I st') ->
  (forall st, same_core st (f st)) ->
  hoare I (modify f) (fun _ => I) E.
Proof. intros HI Hf. apply hoare_modify. intros st H. exact (HI st (f st) (Hf st) H). Qed.

Ltac same_core := intros; repeat split; reflexivity.

Lemma message_box_keeps (I : App -> Prop) (k : DialogKind) (title text : string)
    (E : App -> Prop) :
  (forall st st', same_core st st' -> I st -> I st') ->
  hoare I (message_box k title text) (fun _ => I) E.
Proof. intros HI. apply (hoare_same_core I _ E HI). same_core. Qed.

Lemma print_keeps (I : App -> Prop) (line : string) (E : App -> Prop) :
  (forall st st', same_core st st' -> I st -> I st') ->
  hoare I (print line) (fun _ => I) E.
Proof. intros HI. apply (hoare_same_core I _ E HI). same_core. Qed.

Lemma stop_audio_keeps (I : App -> Prop) (E : App -> Prop) :
  (forall st st', same_core st st' -> I st -> I st') ->
  hoare I stop_audio (fun _ => I) E.
Proof.
  intros HI. unfold stop_audio. apply hoare_read. intros st0.
  destruct (playing (player st0)).
  - eapply hoare_conseq; [apply (hoare_same_core I _ E HI)| | |]; try same_core; auto.
    intros st [_ H]. exact H.
  - intros st [_ H]. exact H.
Qed.

(** *** Temporary files *)

(** The disk gets a file: tracked files stay on disk. *)
Lemma invariant_insert (p : string) (f : File) (st : App) :
  invariant bound st -> invariant bound (set_disk_of (insert p f) st).
Proof.
  intros (Hv & Hlen & Hnd & Hdisk). split; [exact Hv|]. split; [exact Hlen|].
  split; [exact Hnd|]. intros q Hq. simpl.
  destruct (decide (p = q)) as [->|Hne].
  - rewrite lookup_insert_eq. eexists. reflexivity.
  - rewrite lookup_insert_ne by exact Hne. apply Hdisk. exact Hq.
Qed.

Lemma untracked_file_insert (p : string) (f : File) (st : App) :
  untracked_file bound p st -> untracked_file bound p (set_disk_of (insert p f) st).
Proof.
  intros (Hinv & Hp & Hnt). split; [apply invariant_insert; exact Hinv|].
  split; [|exact Hnt]. simpl. rewrite lookup_insert_eq. eexists. reflexivity.
Qed.

Lemma NamedTemporaryFile_creates (env : Backends) :
  hoare (invariant bound) (NamedTemporaryFile env) (untracked_file bound) (invariant bound).
Proof.
  unfold NamedTemporaryFile. apply hoare_read. intros st0.
  destruct (disk (world st0) !! mkstemp env (disk (world st0))) eqn:Hfresh.
  - intros st [_ H]. exact H.
  - eapply hoare_bind.
    + apply (hoare_modify _ _
               (fun _ st => untracked_file bound (mkstemp env (disk (world st0))) st)).
      intros st [-> Hinv]. split; [apply invariant_insert; exact Hinv|].
      split.
      * simpl. rewrite lookup_insert_eq. eexists. reflexivity.
      * simpl. intros Hin. destruct Hinv as (_ & _ & _ & Hdisk).
        destruct (Hdisk _ Hin) as [f Hf]. congruence.
    + intros u st H. exact H.
Qed.

Lemma synthesize_keeps (env : Backends) (c : Call) (p : string) :
  hoare (untracked_file bound p) (synthesize env c p) (fun _ => untracked_file bound p)
    (untracked_file bound p).
Proof.
  intros st H. unfold synthesize.
  destruct (synthesized env (calls (world st)) c) as [written err].
  assert (H' : untracked_file bound p
            (set_disk_of (insert p (mkFile (Z.max 0 written) false))
               (set_world (set_calls (calls (world st) ++ [c]) (world st)) st))).
  { apply untracked_file_insert.
    apply (untracked_file_same_core p st); [same_core|exact H]. }
  destruct err; exact H'.
Qed.

Lemma untracked_file_kept (p : string) (st : App) :
  untracked_file bound p st -> kept_file bound p st.
Proof. intros (Hinv & Hp & _). split; assumption. Qed.

Lemma kept_file_same_core (p : string) (st st' : App) :
  same_core st st' -> kept_file bound p st -> kept_file bound p st'.
Proof.
  intros Hsame (Hinv & Hp).
  pose proof Hsame as (_ & _ & _ & _ & Hd).
  split; [exact (invariant_same_core st st' Hsame Hinv)|].
  rewrite Hd. exact Hp.
Qed.

(** The cleanup of lines 602 and 607 meets a path that is not tracked, and
    does nothing. *)
Lemma cleanup_single_file_untracked_keeps (p : string) (E : App -> Prop) :
  hoare (untracked_file bound p) (cleanup_single_file p) (fun _ => kept_file bound p) E.
Proof.
  intros st H. pose proof H as (_ & _ & Hnt).
  rewrite (cleanup_single_file_untracked p st Hnt). apply untracked_file_kept. exact H.
Qed.

Lemma text_to_speech_except_keeps (p : string) (e : Exn) (E : App -> Prop) :
  hoare (untracked_file bound p) (text_to_speech_except (Some p) e)
    (fun _ => kept_file bound p) E.
Proof.
  unfold text_to_speech_except.
  eapply hoare_bind; [apply message_box_keeps; apply untracked_file_same_core|].
  intros u. eapply hoare_bind with (R := fun _ => kept_file bound p).
  - destruct (is_empty p).
    + intros st H. apply untracked_file_kept. exact H.
    + apply cleanup_single_file_untracked_keeps.
  - intros u' st H. exact H.
Qed.

Lemma text_to_speech_except_None_keeps (e : Exn) :
  hoare (invariant bound) (text_to_speech_except None e)
    (fun _ => invariant bound) (invariant bound).
Proof.
  unfold text_to_speech_except.
  eapply hoare_bind; [apply message_box_keeps; apply invariant_same_core|].
  intros u. eapply hoare_bind with (R := fun _ => invariant bound).
  - apply hoare_pass.
  - intros u' st H. exact H.
Qed.

Lemma invariant_append (p : string) (st : App) :
  untracked_file bound p st -> kept_file bound p (set_temp_files (temp_files st ++ [p]) st).
Proof.
  intros ((Hv & Hlen & Hnd & Hdisk) & Hp & Hnt).
  split; [|exact Hp].
  split; [exact Hv|]. split; [exact Hlen|]. split; simpl.
  - apply NoDup_app. split; [exact Hnd|]. split.
    + intros q Hq Hq'. apply list_elem_of_singleton in Hq'. subst q. contradiction.
    + apply NoDup_singleton.
  - intros q Hq. apply elem_of_app in Hq as [Hq|Hq].
    + apply Hdisk. exact Hq.
    + apply list_elem_of_singleton in Hq. subst q. exact Hp.
Qed.

Lemma text_to_speech_body_keeps (env : Backends) (text : string) (codes : LangCodes)
    (p : string) :
  hoare (untracked_file bound p) (text_to_speech_body env text codes p)
    (fun _ => kept_file bound p)
    (untracked_file bound p).
Proof.
  unfold text_to_speech_body. apply hoare_read. intros st0.
  eapply hoare_conseq with (P' := untracked_file bound p) (Q' := fun _ => kept_file bound p)
                           (E' := untracked_file bound p); [|intros st [_ H]; exact H|auto|auto].
  eapply hoare_bind with (R := fun _ => untracked_file bound p).
  { destruct (String.eqb (voice_combo (ui st0)) "Edge TTS").
    - destruct (is_empty (edge_voice_combo (ui st0))).
      + apply hoare_raise.
      + apply synthesize_keeps.
    - destruct (String.eqb (voice_combo (ui st0)) "Google TTS").
      + apply synthesize_keeps.
      + destruct (String.eqb (voice_combo (ui st0)) "System TTS (pyttsx3)").
        * eapply hoare_bind with (R := fun _ => untracked_file bound p).
          -- destruct (if is_empty (pyttsx3_voice_combo (ui st0)) then None
                       else pyttsx3_voices st0 !! pyttsx3_voice_combo (ui st0)).
             ++ apply hoare_modify. intros st H.
                apply (untracked_file_same_core p st); [same_core|exact H].
             ++ apply hoare_pass.
          -- intros u. apply synthesize_keeps.
        * apply hoare_pass. }
  intros u.
  eapply hoare_bind with (R := fun _ => untracked_file bound p).
  { destruct (is_empty p).
    - intros st H. exact H.
    - eapply hoare_bind with (R := fun _ => untracked_file bound p).
      + unfold os_path_getsize. apply hoare_read. intros st1.
        destruct (disk (world st1) !! p).
        * intros st [_ H]. exact H.
        * intros st [_ H]. exact H.
      + intros sz st H. exact H. }
  intros nonempty. destruct nonempty.
  - eapply hoare_bind with (R := fun _ => kept_file bound p).
    + apply hoare_modify. intros st H. apply invariant_append. exact H.
    + intros u' st H. exact H.
  - eapply hoare_bind with (R := fun _ => kept_file bound p).
    + destruct (is_empty p).
      * intros st H. apply untracked_file_kept. exact H.
      * apply cleanup_single_file_untracked_keeps.
    + intros u' st H. exact H.
Qed.

(** [text_to_speech] from the point where the temporary file [p] exists:
    however the synthesis ends, the file is on disk afterwards. *)
Lemma text_to_speech_after_creation (env : Backends) (text : string) (codes : LangCodes)
    (p : string) (E : App -> Prop) :
  hoare (untracked_file bound p)
    (try_except (text_to_speech_body env text codes p) is_Exception
       (text_to_speech_except (Some p)))
    (fun _ => kept_file bound p) E.
Proof.
  intros st H. unfold try_except.
  pose proof (text_to_speech_body_keeps env text codes p st H) as Hbody.
  destruct (text_to_speech_body env text codes p st) as [[r|e] st']; [exact Hbody|].
  simpl. apply (text_to_speech_except_keeps p e E st' Hbody).
Qed.

Lemma text_to_speech_keeps (env : Backends) (text : string) (codes : LangCodes) :
  hoare (invariant bound) (text_to_speech env text codes)
    (fun _ => invariant bound) (invariant bound).
Proof.
  unfold text_to_speech. destruct (is_empty text); [intros st H; exact H|].
  eapply hoare_bind with
    (R := fun created st =>
            match created with
            | inl p => untracked_file bound p st
            | inr _ => invariant bound st
            end).
  - apply hoare_try with (E' := invariant bound).
    + eapply hoare_bind; [apply NamedTemporaryFile_creates|].
      intros p st H. exact H.
    + intros e. eapply hoare_bind; [apply text_to_speech_except_None_keeps|].
      intros r st H. exact H.
    + auto.
  - intros [p|r].
    + eapply hoare_conseq;
        [apply (text_to_speech_after_creation env text codes p (invariant bound))
        |auto| |auto].
      intros r st [H _]. exact H.
    + intros st H. exact H.
Qed.

Lemma NamedTemporaryFile_fresh (env : Backends) (st : App) :
  disk (world st) !! mkstemp env (disk (world st)) = None ->
  NamedTemporaryFile env st =
    (Returned (mkstemp env (disk (world st))),
     set_disk_of (insert (mkstemp env (disk (world st))) (mkFile 0 false)) st).
Proof.
  intros Hfresh. unfold NamedTemporaryFile, bind, get. rewrite Hfresh. reflexivity.
Qed.

(** The universal form of the defect behind C8: once [text_to_speech] has
    created its temporary file, nothing it does removes the file again,
    whether the synthesis raises, writes nothing, or succeeds. *)
Lemma text_to_speech_never_unlinks (env : Backends) (text : string) (codes : LangCodes)
    (st : App) :
  invariant bound st -> text <> "" ->
  disk (world st) !! mkstemp env (disk (world st)) = None ->
  is_Some (disk (world (exec (text_to_speech env text codes) st))
             !! mkstemp env (disk (world st))).
Proof.
  intros Hinv Htext Hfresh. unfold exec, text_to_speech.
  apply is_empty_false in Htext. rewrite Htext.
  pose proof (NamedTemporaryFile_creates env st Hinv) as Hcreated.
  rewrite (NamedTemporaryFile_fresh env st Hfresh) in Hcreated.
  unfold bind at 1, try_except at 1, bind at 1.
  rewrite (NamedTemporaryFile_fresh env st Hfresh). unfold ret at 1. cbv beta iota.
  set (p := mkstemp env (disk (world st))) in *.
  pose proof (text_to_speech_after_creation env text codes p (fun _ => False) _ Hcreated)
    as Hdone.
  destruct (try_except _ _ _ _) as [[r|e] st']; [|contradiction].
  simpl. apply Hdone.
Qed.

Lemma speak_text_keeps (env : Backends) (text : string) (codes : LangCodes) :
  hoare (invariant bound) (speak_text env text codes)
    (fun _ => invariant bound) (invariant bound).
Proof.
  unfold speak_text. destruct (is_empty text); [intros st H; exact H|].
  eapply hoare_bind; [apply stop_audio_keeps; apply invariant_same_core|].
  intros u.
  eapply hoare_bind with (R := fun _ => invariant bound).
  - apply hoare_try with (E' := invariant bound).
    + eapply hoare_bind; [apply text_to_speech_keeps|]. intros r st H. exact H.
    + intros e. eapply hoare_bind with (R := fun _ => invariant bound).
      * unfold speak_text_except.
        eapply hoare_bind; [apply message_box_keeps; apply invariant_same_core|].
        intros u'. apply hoare_pass.
      * intros u' st H. exact H.
    + auto.
  - intros [[p|]|]; try (intros st H; exact H).
    destruct (is_empty p); [intros st H; exact H|].
    apply hoare_try with (E' := fun _ => False).
    + eapply hoare_bind with (R := fun _ => invariant bound).
      * apply hoare_modify. intros st H.
        apply (invariant_same_core st); [same_core|exact H].
      * intros u'. apply hoare_modify. intros st H.
        apply (invariant_same_core st); [same_core|exact H].
    + intros e st [].
    + intros st [].
Qed.

(** [cleanup_single_file] keeps the invariant: a file is untracked in the
    same step in which it leaves the disk. *)
Lemma cleanup_single_file_keeps_invariant (p : string) (E : App -> Prop) :
  hoare (invariant bound) (cleanup_single_file p) (fun _ => invariant bound) E.
Proof.
  intros st Hinv.
  destruct (decide (p ∈ temp_files st)) as [Hin|Hnin].
  - pose proof Hinv as (Hv & Hlen & Hnd & Hdisk).
    destruct (deletable (disk (world st)) p) eqn:Hdel.
    + rewrite (cleanup_single_file_deletes p st Hin Hnd Hdel).
      split; [exact Hv|]. split; [exact Hlen|]. split; simpl.
      * apply NoDup_filter. exact Hnd.
      * intros q Hq. apply list_elem_of_filter in Hq as [Hne Hq].
        rewrite lookup_delete_ne by congruence. apply Hdisk. exact Hq.
    + destruct (cleanup_single_file_keeps p st Hin Hdel) as (line & ->).
      apply (invariant_same_core st); [same_core|exact Hinv].
  - rewrite (cleanup_single_file_untracked p st Hnin). exact Hinv.
Qed.

Lemma handle_end_of_media_keeps :
  hoare (invariant bound) handle_end_of_media (fun _ => invariant bound) (invariant bound).
Proof.
  unfold handle_end_of_media. apply hoare_read. intros st0.
  eapply hoare_conseq with (P' := invariant bound) (Q' := fun _ => invariant bound)
                           (E' := invariant bound); [|intros st [_ H]; exact H|auto|auto].
  destruct (current_playing_file st0) as [p|]; [|apply hoare_pass].
  destruct (is_empty p); [apply hoare_pass|].
  eapply hoare_bind; [apply cleanup_single_file_keeps_invariant|].
  intros u. apply hoare_modify. intros st H.
  apply (invariant_same_core st); [same_core|exact H].
Qed.

Lemma cleanup_all_temp_files_keeps :
  hoare (invariant bound) cleanup_all_temp_files
    (fun _ => invariant bound) (invariant bound).
Proof.
  unfold cleanup_all_temp_files.
  eapply hoare_bind; [apply stop_audio_keeps; apply invariant_same_core|].
  intros u. apply hoare_read. intros st0.
  eapply hoare_conseq with (P' := invariant bound) (Q' := fun _ => invariant bound)
                           (E' := invariant bound); [|intros st [_ H]; exact H|auto|auto].
  eapply hoare_bind.
  - apply hoare_for_each. intros p. apply cleanup_single_file_keeps_invariant.
  - intros u'. apply print_keeps. apply invariant_same_core.
Qed.

(** *** The text panes and the translation *)

Lemma invariant_with_text (side : bool) (txt : string) (st : App) :
  invariant bound st -> invariant bound (with_text side txt st).
Proof.
  intros (Hv & Hrest). split; [|destruct side; exact Hrest].
  destruct Hv as (H1 & H2 & H3 & H4 & H5 & H6).
  unfold valid_state. destruct side; simpl in *; repeat split; assumption || lia.
Qed.

Lemma handle_text_changed_with_keeps (h : bool -> M unit) (is_left : bool) :
  (forall side,
     hoare (invariant bound) (h side) (fun _ => invariant bound) (invariant bound)) ->
  hoare (invariant bound) (handle_text_changed_with h is_left)
    (fun _ => invariant bound) (invariant bound).
Proof.
  intros Hh. unfold handle_text_changed_with. apply hoare_read. intros st0.
  eapply hoare_conseq with (P' := invariant bound) (Q' := fun _ => invariant bound)
                           (E' := invariant bound); [|intros st [_ H]; exact H|auto|auto].
  destruct (negb _); [apply hoare_pass|].
  destruct (is_empty _).
  - unfold setPlainText_with.
    eapply hoare_bind with (R := fun _ => invariant bound).
    + apply hoare_modify. intros st H. apply (invariant_with_text _ _ st H).
    + intros u. apply hoare_read. intros st1.
      eapply hoare_conseq with (P' := invariant bound) (Q' := fun _ => invariant bound)
                               (E' := invariant bound); [|intros st [_ H]; exact H|auto|auto].
      destruct (textChanged_connected _); [apply Hh|apply hoare_pass].
  - apply hoare_modify. intros st H.
    apply (invariant_same_core st); [same_core|exact H].
Qed.

Lemma handle_text_changed_keeps (is_left : bool) :
  hoare (invariant bound) (handle_text_changed is_left)
    (fun _ => invariant bound) (invariant bound).
Proof.
  apply handle_text_changed_with_keeps. intros side.
  apply handle_text_changed_with_keeps. intros side'. apply hoare_pass.
Qed.

Lemma setPlainText_keeps (is_left : bool) (txt : string) :
  hoare (invariant bound) (setPlainText is_left txt)
    (fun _ => invariant bound) (invariant bound).
Proof.
  unfold setPlainText, setPlainText_with.
  eapply hoare_bind with (R := fun _ => invariant bound).
  - apply hoare_modify. intros st H. apply (invariant_with_text _ _ st H).
  - intros u. apply hoare_read. intros st1.
    eapply hoare_conseq with (P' := invariant bound) (Q' := fun _ => invariant bound)
                             (E' := invariant bound); [|intros st [_ H]; exact H|auto|auto].
    destruct (textChanged_connected _); [apply handle_text_changed_keeps|apply hoare_pass].
Qed.

Lemma provider_translate_keeps (env : Backends) (service src dest text : string) :
  hoare (invariant bound) (provider_translate env service src dest text)
    (fun _ => invariant bound)
    (invariant bound).
Proof.
  intros st H.
  destruct (provider_translate_adds_calls env service src dest text st) as [cs Hcs].
  assert (H' : invariant bound (snd (provider_translate env service src dest text st))).
  { rewrite Hcs. apply (invariant_same_core st); [same_core|exact H]. }
  destruct (provider_translate env service src dest text st) as [[t|e] st']; exact H'.
Qed.

Lemma translate_text_keeps (env : Backends) :
  hoare (invariant bound) (translate_text env) (fun _ => invariant bound) (invariant bound).
Proof.
  unfold translate_text. apply hoare_read. intros st0.
  eapply hoare_conseq with (P' := invariant bound) (Q' := fun _ => invariant bound)
                           (E' := invariant bound); [|intros st [_ H]; exact H|auto|auto].
  destruct (is_empty (source_text_of st0)); [apply setPlainText_keeps|].
  eapply hoare_bind with (R := fun _ => invariant bound).
  - apply hoare_modify. intros st H.
    apply (invariant_same_core st); [same_core|exact H].
  - intros u. apply hoare_try with (E' := invariant bound).
    + eapply hoare_bind; [apply provider_translate_keeps|].
      intros t. apply setPlainText_keeps.
    + intros e. apply setPlainText_keeps.
    + auto.
Qed.

Lemma swap_languages_keeps :
  hoare (invariant bound) swap_languages (fun _ => invariant bound) (invariant bound).
Proof.
  intros st (Hv & Hrest). rewrite (swap_languages_run st Hv).
  split; [apply swapped_valid; exact Hv|exact Hrest].
Qed.

Lemma save_correction_keeps :
  hoare (invariant bound) save_correction (fun _ => invariant bound) (invariant bound).
Proof.
  intros st (Hv & Hlen & Htracked).
  destruct (is_empty (strip (last_source_text st))
            || is_empty (strip (correction_input (ui st)))) eqn:Hgiven.
  - rewrite (save_correction_rejected st Hgiven).
    apply (invariant_same_core st); [same_core|].
    split; [exact Hv|]. split; [exact Hlen|exact Htracked].
  - unfold save_correction, bind, get. rewrite Hgiven. simpl.
    split; [exact Hv|]. split; [|exact Htracked].
    etransitivity; [apply slice_last10_length|apply Nat.le_max_l].
Qed.

Lemma lang_combo_setCurrentIndex_keeps (is_left : bool) (i : Z) :
  0 <= i < 3 ->
  hoare (invariant bound) (lang_combo_setCurrentIndex is_left i)
    (fun _ => invariant bound) (invariant bound).
Proof.
  intros Hi. unfold lang_combo_setCurrentIndex. apply hoare_read. intros st0.
  eapply hoare_conseq with (P' := invariant bound) (Q' := fun _ => invariant bound)
                           (E' := invariant bound); [|intros st [_ H]; exact H|auto|auto].
  rewrite (valid_index_kept i Hi).
  destruct (lang_combo is_left st0 =? i); [apply hoare_pass|].
  eapply hoare_bind with (R := fun _ => invariant bound).
  - apply hoare_modify. intros st ((H1 & H2 & H3 & H4 & H5 & H6) & Hrest).
    split; [|destruct is_left; exact Hrest].
    unfold valid_state. destruct is_left; simpl in *; repeat split; assumption || lia.
  - intros u. apply hoare_modify. intros st H.
    apply (invariant_same_core st); [same_core|exact H].
Qed.

Lemma invariant_alter (f : File -> File) (p : string) (st : App) :
  invariant bound st -> invariant bound (set_disk_of (alter f p) st).
Proof.
  intros (Hv & Hlen & Hnd & Hdisk). split; [exact Hv|]. split; [exact Hlen|].
  split; [exact Hnd|]. intros q Hq. simpl.
  destruct (Hdisk q Hq) as [g Hg].
  destruct (decide (p = q)) as [->|Hne].
  - rewrite lookup_alter_eq, Hg. eexists. reflexivity.
  - rewrite lookup_alter_ne by exact Hne. eexists. exact Hg.
Qed.

(** Typing a correction or picking a service changes neither pane. *)
Lemma invariant_other_widgets (st st' : App) :
  left_text (ui st') = left_text (ui st) ->
  right_text (ui st') = right_text (ui st) ->
  left_lang_combo (ui st') = left_lang_combo (ui st) ->
  right_lang_combo (ui st') = right_lang_combo (ui st) ->
  translate_left_to_right st' = translate_left_to_right st ->
  translation_examples st' = translation_examples st ->
  temp_files st' = temp_files st ->
  disk (world st') = disk (world st) ->
  invariant bound st -> invariant bound st'.
Proof.
  intros Hl Hr Hll Hrl Hdir Hex Htf Hd (Hv & Hlen & Hnd & Hdisk).
  split; [|split; [|split]].
  - unfold valid_state, pane, lang_combo in *. rewrite Hl, Hr, Hll, Hrl, Hdir. exact Hv.
  - rewrite Hex. exact Hlen.
  - rewrite Htf. exact Hnd.
  - intros p Hp. rewrite Hd. apply Hdisk. rewrite <- Htf. exact Hp.
Qed.

(** Every slot keeps the invariant, whether it returns or raises. *)
Lemma on_event_keeps (env : Backends) (ev : Event) :
  hoare (invariant bound) (on_event env ev) (fun _ => invariant bound) (invariant bound).
Proof.
  destruct ev as [is_left txt|txt|is_left i|service|service|voice| | | | |is_left| | |path held];
    simpl on_event.
  - apply hoare_read. intros st0.
    eapply hoare_conseq with (P' := invariant bound) (Q' := fun _ => invariant bound)
                             (E' := invariant bound); [|intros st [_ H]; exact H|auto|auto].
    destruct (isReadOnly _); [apply hoare_pass|apply setPlainText_keeps].
  - apply hoare_modify. intros st H.
    apply (invariant_other_widgets st); try reflexivity. exact H.
  - destruct (Z.leb_spec 0 i); [|apply hoare_pass].
    destruct (Z.ltb_spec i 3); [|apply hoare_pass]. simpl.
    apply lang_combo_setCurrentIndex_keeps. lia.
  - apply hoare_read. intros st0.
    eapply hoare_conseq with (P' := invariant bound) (Q' := fun _ => invariant bound)
                             (E' := invariant bound); [|intros st [_ H]; exact H|auto|auto].
    destruct (String.eqb _ _); [apply hoare_pass|].
    eapply hoare_bind with (R := fun _ => invariant bound).
    + apply hoare_modify. intros st H.
      apply (invariant_other_widgets st); try reflexivity. exact H.
    + intros u. apply hoare_modify. intros st H.
      apply (invariant_same_core st); [same_core|exact H].
  - apply hoare_modify. intros st H.
    apply (invariant_other_widgets st); try reflexivity. exact H.
  - apply hoare_modify. intros st H.
    apply (invariant_other_widgets st); try reflexivity. exact H.
  - apply hoare_read. intros st0.
    eapply hoare_conseq with (P' := invariant bound) (Q' := fun _ => invariant bound)
                             (E' := invariant bound); [|intros st [_ H]; exact H|auto|auto].
    destruct (translate_timer st0); [|apply hoare_pass].
    unfold translate_timer_timeout.
    eapply hoare_bind with (R := fun _ => invariant bound).
    + apply hoare_modify. intros st H.
      apply (invariant_same_core st); [same_core|exact H].
    + intros u. apply translate_text_keeps.
  - apply translate_text_keeps.
  - apply swap_languages_keeps.
  - apply save_correction_keeps.
  - apply hoare_read. intros st0.
    eapply hoare_conseq with (P' := invariant bound) (Q' := fun _ => invariant bound)
                             (E' := invariant bound); [|intros st [_ H]; exact H|auto|auto].
    apply speak_text_keeps.
  - eapply hoare_bind with (R := fun _ => invariant bound).
    + apply hoare_modify. intros st H.
      apply (invariant_same_core st); [same_core|exact H].
    + intros u. apply handle_end_of_media_keeps.
  - apply cleanup_all_temp_files_keeps.
  - apply hoare_modify. intros st H. apply invariant_alter. exact H.
Qed.

End Invariant.

Lemma init_app_invariant keys examples files :
  invariant (length examples) (init_app keys examples files).
Proof.
  split; [apply init_app_valid|]. split; [apply Nat.le_max_r|].
  split; [apply NoDup_nil_2|]. intros p Hp. inversion Hp.
Qed.

Lemma exec_on_event_invariant (env : Backends) (bound : nat) (ev : Event) (st : App) :
  invariant bound st -> invariant bound (exec (on_event env ev) st).
Proof.
  intros H. pose proof (on_event_keeps bound env ev st H) as H'. unfold exec.
  destruct (on_event env ev st) as [[u|e] st']; exact H'.
Qed.

Lemma run_events_invariant (env : Backends) (bound : nat) (evs : list Event) :
  forall st, invariant bound st -> invariant bound (run_events env evs st).
Proof.
  induction evs as [|ev evs IH]; intros st H; [exact H|].
  simpl. apply IH. apply exec_on_event_invariant. exact H.
Qed.

(** Every state the program reaches satisfies the invariant, for the
    number of examples the settings held at start-up: the hypotheses of
    the theorems on the swap and on the shutdown hold wherever these
    operations can run. *)
Theorem reachable_invariant (env : Backends) (st : App) :
  reachable env st -> exists bound, invariant bound st.
Proof.
  induction 1 as [keys examples files|st ev Hreach [bound IH]].
  - exists (length examples). apply init_app_invariant.
  - exists bound. apply exec_on_event_invariant. exact IH.
Qed.

Corollary reachable_valid_state (env : Backends) (st : App) :
  reachable env st -> valid_state st.
Proof. intros H. destruct (reachable_invariant env st H) as [bound Hinv]. apply Hinv. Qed.

Corollary reachable_tracked_files_ok (env : Backends) (st : App) :
  reachable env st -> tracked_files_ok st.
Proof. intros H. destruct (reachable_invariant env st H) as [bound Hinv]. apply Hinv. Qed.

Corollary reachable_temp_files_NoDup (env : Backends) (st : App) :
  reachable env st -> NoDup (temp_files st).
Proof. intros H. apply (reachable_tracked_files_ok env st H). Qed.

(** The stored examples never outgrow 10, or the number the settings held
    at start-up when that was more: no event adds to them but an accepted
    [save_correction], which keeps the last 10. *)
Corollary stored_examples_bounded (env : Backends) (evs : list Event)
    (keys : gmap string string) (examples : list Example) (files : gmap string File) :
  (length (translation_examples (run_events env evs (init_app keys examples files)))
   <= Nat.max 10 (length examples))%nat.
Proof. apply (run_events_invariant env (length examples) evs), init_app_invariant. Qed.

(* ===================================================================== *)
(** ** Scenarios                                                         *)
(* ===================================================================== *)

(** Groq Llama3 selected without a saved key: the target pane shows the
    message of the [ValueError], and no call leaves the process. *)
Example Groq_without_key :
  let st := run_events sample_env
              [UserTypes true "Hello"; TimerFires] (init_app ∅ [] ∅) in
  toPlainText (right_text (ui st)) = "翻譯錯誤: 請先在設定中保存 Groq API Key" /\
  calls (world st) = [] /\
  last_source_text st = "Hello".
Proof. cbv zeta. repeat split; vm_compute; reflexivity. Qed.

(** Two edits before the timer fires give one provider call, with the
    text of the second edit. *)
Example two_edits_one_call :
  let st := run_events sample_env
              [UserPicksLanguage true 1; UserPicksLanguage false 0;
               UserPicksTranslator Google_service; UserTypes true "He";
               UserTypes true "Hello"; TimerFires; TimerFires]
              (init_app ∅ [] ∅) in
  calls (world st) = [GoogleTranslator_translate "en" "zh-TW" "Hello"] /\
  toPlainText (right_text (ui st)) = "你好" /\
  translate_timer st = None.
Proof. cbv zeta. repeat split; vm_compute; reflexivity. Qed.

(** A provider failure ends as text in the target pane. *)
Example DeepL_out_of_quota :
  let st := run_events sample_env
              [UserPicksLanguage true 1; UserPicksLanguage false 0;
               UserPicksTranslator DeepL_service; UserTypes true "Hello"; TimerFires]
              (init_app (<[DeepL_service := "key-1"]> ∅) [] ∅) in
  calls (world st) = [DeepL_translate_text "key-1" "Hello" "EN-US" "ZH"] /\
  toPlainText (right_text (ui st)) = "翻譯錯誤: Quota Exceeded".
Proof. cbv zeta. repeat split; vm_compute; reflexivity. Qed.

(** Speaking with a back end that writes audio: the file is tracked and
    playing; when the media ends it is unlinked and untracked. *)
Example speak_then_end_of_media :
  let spoken := run_events speech_env
                  [UserPicksVoiceService "Google TTS"; UserTypes true "Hello";
                   ClicksSpeak true] (init_app ∅ [] ∅) in
  let ended := exec (on_event speech_env MediaEnds) spoken in
  temp_files spoken = ["/tmp/tmpa1.mp3"] /\
  current_playing_file spoken = Some "/tmp/tmpa1.mp3" /\
  playing (player spoken) = true /\
  temp_files ended = [] /\
  current_playing_file ended = None /\
  disk (world ended) !! "/tmp/tmpa1.mp3" = None.
Proof. cbv zeta. repeat split; vm_compute; reflexivity. Qed.

(* ===================================================================== *)
(** ** Temporary audio files: what the speech methods do and leave       *)
(* ===================================================================== *)

Lemma never_raises_ret {A} (a : A) : never_raises (ret a).
Proof. intros st. eauto. Qed.

Lemma never_raises_modify (f : App -> App) : never_raises (modify f).
Proof. intros st. unfold modify. eauto. Qed.

Lemma never_raises_bind {A B} (m : M A) (k : A -> M B) :
  never_raises m -> (forall a, never_raises (k a)) -> never_raises (bind m k).
Proof.
  intros Hm Hk st. destruct (Hm st) as (a & st1 & E). unfold bind. rewrite E. apply Hk.
Qed.

Lemma never_raises_read {B} (k : App -> M B) :
  (forall st0, never_raises (k st0)) -> never_raises (bind get k).
Proof. intros Hk st. unfold bind, get. apply Hk. Qed.

(** An [except Exception] clause whose handler returns makes the whole
    [try] statement return. *)
Lemma never_raises_try {A} (body : M A) (handler : Exn -> M A) :
  (forall e, never_raises (handler e)) ->
  never_raises (try_except body is_Exception handler).
Proof.
  intros Hh st. unfold try_except. destruct (body st) as [[a|e] st1]; [eauto|].
  simpl. apply Hh.
Qed.

Lemma remove_is_Some {A} `{EqDecision A} (x : A) (l : list A) :
  x ∈ l -> is_Some (Py.remove x l).
Proof.
  induction l as [|y l IH]; intros Hin.
  - inversion Hin.
  - simpl. destruct (decide (x = y)); [eauto|].
    destruct IH as [l' E].
    + apply elem_of_cons in Hin as [?|?]; [contradiction|assumption].
    + rewrite E. simpl. eauto.
Qed.

Lemma remove_other {A} `{EqDecision A} (x : A) (l l' : list A) :
  Py.remove x l = Some l' -> forall y, y <> x -> (y ∈ l' <-> y ∈ l).
Proof.
  revert l'. induction l as [|z l IH]; intros l' E y Hy; simpl in E; [discriminate|].
  destruct (decide (x = z)) as [->|Hne].
  - injection E as <-. rewrite elem_of_cons. tauto.
  - destruct (Py.remove x l) as [l0|] eqn:E0; [|discriminate].
    simpl in E. injection E as <-. rewrite !elem_of_cons, (IH l0 eq_refl y Hy). tauto.
Qed.

(** What [cleanup_single_file] does, case by case, for any tracked list. *)
Lemma cleanup_single_file_cases (p : string) (st : App) :
  (p ∈ temp_files st /\ deletable (disk (world st)) p = true /\
   exists l, Py.remove p (temp_files st) = Some l /\
     cleanup_single_file p st =
       (Returned tt, set_temp_files l (set_disk_of (delete p) st))) \/
  (p ∈ temp_files st /\ deletable (disk (world st)) p = false /\
   exists line, cleanup_single_file p st = (Returned tt, printed line st)) \/
  ((p ∉ temp_files st) /\ cleanup_single_file p st = (Returned tt, st)).
Proof.
  destruct (decide (p ∈ temp_files st)) as [Hin|Hout].
  2:{ right. right. split; [exact Hout|]. apply cleanup_single_file_untracked, Hout. }
  destruct (deletable (disk (world st)) p) eqn:Hd.
  - left. split; [exact Hin|]. split; [reflexivity|].
    destruct (remove_is_Some p _ Hin) as [l El]. exists l. split; [exact El|].
    unfold cleanup_single_file, bind at 1, get.
    apply contains_true in Hin. rewrite Hin.
    unfold try_except, bind at 1. rewrite (os_unlink_deletable _ _ Hd).
    unfold temp_files_remove, bind, get. simpl. rewrite El. reflexivity.
  - right. left. split; [exact Hin|]. split; [reflexivity|].
    apply cleanup_single_file_keeps; assumption.
Qed.

Lemma cleanup_single_file_returns (p : string) : never_raises (cleanup_single_file p).
Proof.
  intros st.
  destruct (cleanup_single_file_cases p st)
    as [(_ & _ & l & _ & E)|[(_ & _ & line & E)|(_ & E)]]; rewrite E; eauto.
Qed.

(** X8. [cleanup_single_file p] returns from every state, whatever
    [os.unlink] does, and touches nothing but [p]: every other path is on
    disk and tracked exactly as before; [p] is gone from the disk or there
    as before; when [p] is not tracked the state does not change at all;
    no call is made and no dialog shown. *)
Theorem cleanup_single_file_touches_one_file (p : string) (st : App) :
  let st' := exec (cleanup_single_file p) st in
  outcome (cleanup_single_file p) st = Returned tt /\
  (forall q, q <> p ->
     disk (world st') !! q = disk (world st) !! q /\
     (q ∈ temp_files st' <-> q ∈ temp_files st)) /\
  (disk (world st') !! p = None \/ disk (world st') !! p = disk (world st) !! p) /\
  ((p ∉ temp_files st) -> st' = st) /\
  calls (world st') = calls (world st) /\
  dialogs (world st') = dialogs (world st).
Proof.
  cbv zeta. unfold outcome, exec.
  destruct (cleanup_single_file_cases p st)
    as [(Hin & Hd & l & El & E)|[(Hin & Hd & line & E)|(Hout & E)]]; rewrite E; simpl.
  - split; [reflexivity|]. split.
    + intros q Hq. split; [apply lookup_delete_ne; congruence|].
      apply (remove_other _ _ _ El). exact Hq.
    + split; [left; apply lookup_delete_eq|]. split; [contradiction|]. split; reflexivity.
  - split; [reflexivity|]. split; [intros q Hq; split; reflexivity|].
    split; [right; reflexivity|]. split; [contradiction|]. split; reflexivity.
  - split; [reflexivity|]. split; [intros q Hq; split; reflexivity|].
    split; [right; reflexivity|]. split; [reflexivity|]. split; reflexivity.
Qed.

Lemma message_box_returns k t m : never_raises (message_box k t m).
Proof. apply never_raises_modify. Qed.

Lemma stop_audio_returns : never_raises stop_audio.
Proof.
  apply never_raises_read. intros st0. destruct (playing (player st0)).
  - apply never_raises_modify.
  - apply never_raises_ret.
Qed.

Lemma text_to_speech_except_returns (p : option string) (e : Exn) :
  never_raises (text_to_speech_except p e).
Proof.
  unfold text_to_speech_except.
  apply never_raises_bind; [apply message_box_returns|]. intros _.
  apply never_raises_bind; [|intros _; apply never_raises_ret].
  destruct p as [p|]; [|apply never_raises_ret].
  destruct (is_empty p); [apply never_raises_ret|apply cleanup_single_file_returns].
Qed.

Lemma text_to_speech_returns (env : Backends) (text : string) (codes : LangCodes) :
  never_raises (text_to_speech env text codes).
Proof.
  unfold text_to_speech. destruct (is_empty text); [apply never_raises_ret|].
  apply never_raises_bind.
  - apply never_raises_try. intros e.
    apply never_raises_bind; [apply text_to_speech_except_returns|].
    intros r. apply never_raises_ret.
  - intros [p|r]; [|apply never_raises_ret].
    apply never_raises_try. intros e. apply text_to_speech_except_returns.
Qed.

Lemma speak_text_except_returns (p : option string) (e : Exn) :
  never_raises (speak_text_except p e).
Proof.
  unfold speak_text_except.
  apply never_raises_bind; [apply message_box_returns|]. intros _.
  destruct p as [p|]; [|apply never_raises_ret].
  destruct (is_empty p); [apply never_raises_ret|apply cleanup_single_file_returns].
Qed.

(** X9. [speak_text] returns from every state, and so does
    [text_to_speech], for every text, language, voice service and
    behaviour of the back ends: creating the temporary file, the speech
    service, [os.path.getsize] and [os.unlink] may all raise, and the
    handler around the calls of the player returns as well. *)
Theorem speak_text_never_raises (env : Backends) (text : string) (codes : LangCodes)
    (st : App) :
  outcome (speak_text env text codes) st = Returned tt /\
  exists r, outcome (text_to_speech env text codes) st = Returned r.
Proof.
  split.
  - assert (H : never_raises (speak_text env text codes)).
    { unfold speak_text. destruct (is_empty text); [apply never_raises_ret|].
      apply never_raises_bind; [apply stop_audio_returns|]. intros _.
      apply never_raises_bind.
      - apply never_raises_try. intros e.
        apply never_raises_bind; [apply speak_text_except_returns|].
        intros _. apply never_raises_ret.
      - intros [[p|]|]; try apply never_raises_ret.
        destruct (is_empty p); [apply never_raises_ret|].
        apply never_raises_try. intros e. apply speak_text_except_returns. }
    unfold outcome. destruct (H st) as ([] & st' & E). rewrite E. reflexivity.
  - unfold outcome. destruct (text_to_speech_returns env text codes st) as (r & st' & E).
    rewrite E. eauto.
Qed.

Lemma hoare_try_all {A} (P : App -> Prop) (body : M A) (handler : Exn -> M A)
    (Q : A -> App -> Prop) (E E' : App -> Prop) :
  hoare P body Q E' -> (forall e, hoare E' (handler e) Q E) ->
  hoare P (try_except body is_Exception handler) Q E.
Proof.
  intros Hb Hh st HP. unfold try_except. specialize (Hb st HP).
  destruct (body st) as [[a|e] st']; [exact Hb|]. simpl. apply Hh. exact Hb.
Qed.

Section Synthesis_frame.

Variables (U K : App -> Prop) (p : string).
Hypothesis U_same_core : forall s s', same_core s s' -> U s -> U s'.
Hypothesis U_insert : forall s f, U s -> U (set_disk_of (insert p f) s).
Hypothesis U_untracked : forall s, U s -> p ∉ temp_files s.
Hypothesis U_K : forall s, U s -> K s.
Hypothesis K_append : forall s, U s -> K (set_temp_files (temp_files s ++ [p]) s).

Lemma synthesize_frame (env : Backends) (c : Call) :
  hoare U (synthesize env c p) (fun _ => U) U.
Proof.
  intros st H. unfold synthesize.
  destruct (synthesized env (calls (world st)) c) as [written err].
  assert (H' : U (set_disk_of (insert p (mkFile (Z.max 0 written) false))
                    (set_world (set_calls (calls (world st) ++ [c]) (world st)) st))).
  { apply U_insert. apply (U_same_core st); [repeat split; reflexivity|exact H]. }
  destruct err; exact H'.
Qed.

Lemma cleanup_untracked_frame (E : App -> Prop) :
  hoare U (cleanup_single_file p) (fun _ => K) E.
Proof.
  intros st H. rewrite (cleanup_single_file_untracked p st (U_untracked st H)).
  apply U_K. exact H.
Qed.

Lemma text_to_speech_except_frame (e : Exn) (E : App -> Prop) :
  hoare U (text_to_speech_except (Some p) e) (fun _ => K) E.
Proof.
  unfold text_to_speech_except.
  eapply hoare_bind; [apply message_box_keeps; exact U_same_core|].
  intros u. eapply hoare_bind with (R := fun _ => K).
  - destruct (is_empty p).
    + intros st H. apply U_K. exact H.
    + apply cleanup_untracked_frame.
  - intros u' st H. exact H.
Qed.

Lemma text_to_speech_body_frame (env : Backends) (text : string) (codes : LangCodes) :
  hoare U (text_to_speech_body env text codes p) (fun _ => K) U.
Proof.
  unfold text_to_speech_body. apply hoare_read. intros st0.
  eapply hoare_conseq with (P' := U) (Q' := fun _ => K) (E' := U);
    [|intros st [_ H]; exact H|auto|auto].
  eapply hoare_bind with (R := fun _ => U).
  { destruct (String.eqb (voice_combo (ui st0)) "Edge TTS").
    - destruct (is_empty (edge_voice_combo (ui st0))).
      + apply hoare_raise.
      + apply synthesize_frame.
    - destruct (String.eqb (voice_combo (ui st0)) "Google TTS").
      + apply synthesize_frame.
      + destruct (String.eqb (voice_combo (ui st0)) "System TTS (pyttsx3)").
        * eapply hoare_bind with (R := fun _ => U).
          -- destruct (if is_empty (pyttsx3_voice_combo (ui st0)) then None
                       else pyttsx3_voices st0 !! pyttsx3_voice_combo (ui st0)).
             ++ apply hoare_modify. intros st H.
                apply (U_same_core st); [repeat split; reflexivity|exact H].
             ++ apply hoare_pass.
          -- intros u. apply synthesize_frame.
        * apply hoare_pass. }
  intros u.
  eapply hoare_bind with (R := fun _ => U).
  { destruct (is_empty p).
    - intros st H. exact H.
    - eapply hoare_bind with (R := fun _ => U).
      + unfold os_path_getsize. apply hoare_read. intros st1.
        destruct (disk (world st1) !! p).
        * intros st [_ H]. exact H.
        * intros st [_ H]. exact H.
      + intros sz st H. exact H. }
  intros nonempty. destruct nonempty.
  - eapply hoare_bind with (R := fun _ => K).
    + apply hoare_modify. intros st H. apply K_append. exact H.
    + intros u' st H. exact H.
  - eapply hoare_bind with (R := fun _ => K).
    + destruct (is_empty p).
      * intros st H. apply U_K. exact H.
      * apply cleanup_untracked_frame.
    + intros u' st H. exact H.
Qed.

Lemma text_to_speech_created_frame (env : Backends) (text : string) (codes : LangCodes)
    (E : App -> Prop) :
  hoare U
    (try_except (text_to_speech_body env text codes p) is_Exception
       (text_to_speech_except (Some p)))
    (fun _ => K) E.
Proof.
  eapply hoare_try_all; [apply text_to_speech_body_frame|].
  intros e. apply text_to_speech_except_frame.
Qed.

End Synthesis_frame.

Lemma same_files_same_core (st s s' : App) :
  same_core s s' -> same_files st s -> same_files st s'.
Proof.
  intros (_ & _ & _ & Ht & Hd) (H1 & H2). split; [congruence|].
  intros p f Hp. rewrite Hd. apply H2. exact Hp.
Qed.

Lemma keeps_files_same_core (st s s' : App) :
  same_core s s' -> keeps_files st s -> keeps_files st s'.
Proof.
  intros (_ & _ & _ & Ht & Hd) (H1 & H2). split; [rewrite Ht; exact H1|].
  intros p f Hp. rewrite Hd. apply H2. exact Hp.
Qed.

Lemma same_files_keeps (st s : App) : same_files st s -> keeps_files st s.
Proof.
  intros (H1 & H2). split; [|exact H2]. exists []. rewrite app_nil_r. split; [exact H1|].
  simpl. lia.
Qed.

Lemma text_to_speech_keeps_files (env : Backends) (text : string) (codes : LangCodes)
    (st : App) (E : App -> Prop) :
  tracked_files_ok st ->
  hoare (same_files st) (text_to_speech env text codes) (fun _ => keeps_files st) E.
Proof.
  intros (Hnd & Hdisk).
  unfold text_to_speech. destruct (is_empty text).
  { intros s H. apply same_files_keeps. exact H. }
  eapply hoare_bind with
    (R := fun created s =>
            match created with
            | inl p => same_files st s /\ disk (world st) !! p = None
            | inr _ => keeps_files st s
            end).
  - eapply hoare_try_all with (E' := same_files st).
    + eapply hoare_bind with (R := fun p s => same_files st s /\ disk (world st) !! p = None);
        [|intros p s H; exact H].
      unfold NamedTemporaryFile. apply hoare_read. intros s0.
      destruct (disk (world s0) !! mkstemp env (disk (world s0))) eqn:Hfresh.
      * intros s [_ H]. exact H.
      * eapply hoare_bind
          with (R := fun _ s => same_files st s /\
                                disk (world st) !! mkstemp env (disk (world s0)) = None);
          [|intros u s H; exact H].
        apply hoare_modify. intros s [-> (H1 & H2)].
        assert (Hnone : disk (world st) !! mkstemp env (disk (world s0)) = None).
        { destruct (disk (world st) !! mkstemp env (disk (world s0))) as [f|] eqn:Ef;
            [|reflexivity].
          apply H2 in Ef. congruence. }
        split; [|exact Hnone]. split; [exact H1|].
        intros q f Hq. simpl. rewrite lookup_insert_ne; [apply H2; exact Hq|congruence].
    + intros e. eapply hoare_bind with (R := fun _ => keeps_files st);
        [|intros r s H; exact H].
      unfold text_to_speech_except.
      eapply hoare_bind; [apply message_box_keeps; apply same_files_same_core|].
      intros u. eapply hoare_bind with (R := fun _ => keeps_files st);
        [|intros u' s H; exact H].
      intros s H. apply same_files_keeps. exact H.
  - intros [p|r]; [|intros s H; exact H].
    apply (text_to_speech_created_frame
             (fun s => same_files st s /\ disk (world st) !! p = None) (keeps_files st) p).
    + intros s s' Hc [H1 H2]. split; [exact (same_files_same_core st s s' Hc H1)|exact H2].
    + intros s f [(H1 & H2) Hp]. split; [|exact Hp]. split; [exact H1|].
      intros q g Hq. simpl. rewrite lookup_insert_ne; [apply H2; exact Hq|congruence].
    + intros s [(H1 & _) Hp] Hin. rewrite H1 in Hin.
      destruct (Hdisk _ Hin) as [f Hf]. congruence.
    + intros s [H _]. apply same_files_keeps. exact H.
    + intros s [(H1 & H2) _]. split; [|exact H2]. exists [p]. simpl. rewrite H1.
      split; [reflexivity|lia].
Qed.

(** X10. When the tracked files are pairwise distinct and on disk,
    [speak_text] keeps them: every file that was on disk is there
    unchanged, and [temp_files] is the list of before with at most one
    path added at its end. *)
Theorem speak_text_keeps_earlier_files (env : Backends) (text : string)
    (codes : LangCodes) (st : App) :
  tracked_files_ok st ->
  let st' := exec (speak_text env text codes) st in
  (exists new, temp_files st' = temp_files st ++ new /\ (length new <= 1)%nat) /\
  (forall p f, disk (world st) !! p = Some f -> disk (world st') !! p = Some f).
Proof.
  intros Hok. cbv zeta.
  assert (H : hoare (same_files st) (speak_text env text codes) (fun _ => keeps_files st)
                (keeps_files st)).
  { unfold speak_text. destruct (is_empty text).
    { intros s H. apply same_files_keeps. exact H. }
    eapply hoare_bind; [apply stop_audio_keeps; apply same_files_same_core|].
    intros u.
    eapply hoare_bind with (R := fun _ => keeps_files st).
    - eapply hoare_try_all with (E' := fun _ => False).
      + eapply hoare_bind; [apply text_to_speech_keeps_files; exact Hok|].
        intros r s H. exact H.
      + intros e s [].
    - intros [[p|]|]; try (intros s H; exact H).
      destruct (is_empty p); [intros s H; exact H|].
      eapply hoare_try_all with (E' := fun _ => False).
      + eapply hoare_bind with (R := fun _ => keeps_files st).
        * apply hoare_modify. intros s H.
          apply (keeps_files_same_core st s); [repeat split; reflexivity|exact H].
        * intros u'. apply hoare_modify. intros s H.
          apply (keeps_files_same_core st s); [repeat split; reflexivity|exact H].
      + intros e s []. }
  assert (H0 : same_files st st) by (split; [reflexivity|auto]).
  specialize (H st H0). unfold exec.
  destruct (speak_text env text codes st) as [[u|e] st']; simpl.
  - exact H.
  - exact H.
Qed.

Lemma synthesize_succeeds (env : Backends) (c : Call) (path : string) (n : Z) (st : App) :
  synthesized env (calls (world st)) c = (n, None) ->
  synthesize env c path st =
    (Returned tt, set_disk_of (insert path (mkFile (Z.max 0 n) false)) (with_calls [c] st)).
Proof. intros H. unfold synthesize. rewrite H. reflexivity. Qed.

Lemma os_path_getsize_run (p : string) (f : File) (st : App) :
  disk (world st) !! p = Some f -> os_path_getsize p st = (Returned (size f), st).
Proof. intros H. unfold os_path_getsize, bind, get. rewrite H. reflexivity. Qed.

(** The rest of the [try] body once the back end has written [n] bytes. *)
Lemma text_to_speech_body_tracks (p : string) (n : Z) (st : App) :
  p <> "" -> 0 < n -> disk (world st) !! p = Some (mkFile n false) ->
  (let! nonempty :=
     (if is_empty p then ret false
      else let! sz := os_path_getsize p in ret (0 <? sz)) in
   if nonempty then
     modify (fun st => set_temp_files (temp_files st ++ [p]) st) >>
     ret (Some p)
   else
     (if is_empty p then pass else cleanup_single_file p) >>
     ret None) st
  = (Returned (Some p), set_temp_files (temp_files st ++ [p]) st).
Proof.
  intros Hp Hn Hf. apply is_empty_false in Hp. rewrite Hp.
  assert (E : (let! sz := os_path_getsize p in ret (0 <? sz)) st = (Returned true, st)).
  { rewrite (bind_returned _ _ _ _ _ (os_path_getsize_run p _ st Hf)).
    unfold ret. simpl. replace (0 <? n) with true by (symmetry; apply Z.ltb_lt; exact Hn).
    reflexivity. }
  rewrite (bind_returned _ _ _ _ _ E). reflexivity.
Qed.

Lemma text_to_speech_body_succeeds (env : Backends) (text : string) (codes : LangCodes)
    (p : string) (n : Z) (st : App) :
  voice_combo (ui st) = "Google TTS" \/
  voice_combo (ui st) = "System TTS (pyttsx3)" \/
  (voice_combo (ui st) = "Edge TTS" /\ edge_voice_combo (ui st) <> "") ->
  p <> "" ->
  (forall history c, synthesized env history c = (n, None)) -> 0 < n ->
  exists cs,
    text_to_speech_body env text codes p st =
      (Returned (Some p),
       set_temp_files (temp_files st ++ [p])
         (set_disk_of (insert p (mkFile n false)) (with_calls cs st))).
Proof.
  intros Hservice Hp Hsyn Hn.
  assert (Hmax : Z.max 0 n = n) by lia.
  unfold text_to_speech_body. unfold bind at 1, get.
  destruct Hservice as [H|[H|[H Hv]]]; rewrite H; cbn [String.eqb Ascii.eqb Bool.eqb].
  - exists [gTTS_save text (google codes) p].
    rewrite (bind_returned _ _ _ _ _ (synthesize_succeeds env _ p n st (Hsyn _ _))).
    rewrite Hmax. rewrite (text_to_speech_body_tracks p n); [reflexivity|exact Hp|exact Hn|].
    simpl. apply lookup_insert_eq.
  - destruct (if is_empty (pyttsx3_voice_combo (ui st)) then None
              else pyttsx3_voices st !! pyttsx3_voice_combo (ui st)) as [voice_id|].
    + exists [pyttsx3_setProperty_voice voice_id; pyttsx3_save_to_file text p].
      assert (E : (record_call (pyttsx3_setProperty_voice voice_id) >>
                   synthesize env (pyttsx3_save_to_file text p) p) st =
                  (Returned tt,
                   set_disk_of (insert p (mkFile (Z.max 0 n) false))
                     (with_calls [pyttsx3_save_to_file text p]
                        (with_calls [pyttsx3_setProperty_voice voice_id] st)))).
      { unfold bind, record_call, modify.
        apply (synthesize_succeeds env _ p n _ (Hsyn _ _)). }
      rewrite (bind_returned _ _ _ _ _ E).
      rewrite Hmax. rewrite (text_to_speech_body_tracks p n); [|exact Hp|exact Hn|].
      * unfold with_calls, set_disk_of. simpl. rewrite <- app_assoc. reflexivity.
      * simpl. apply lookup_insert_eq.
    + exists [pyttsx3_save_to_file text p].
      assert (E : (pass >> synthesize env (pyttsx3_save_to_file text p) p) st =
                  (Returned tt,
                   set_disk_of (insert p (mkFile (Z.max 0 n) false))
                     (with_calls [pyttsx3_save_to_file text p] st))).
      { unfold bind, pass, ret.
        apply (synthesize_succeeds env _ p n _ (Hsyn _ _)). }
      rewrite (bind_returned _ _ _ _ _ E).
      rewrite Hmax. rewrite (text_to_speech_body_tracks p n); [reflexivity|exact Hp|exact Hn|].
      simpl. apply lookup_insert_eq.
  - apply is_empty_false in Hv. rewrite Hv.
    exists [edge_tts_save text (edge_voice_combo (ui st)) p].
    rewrite (bind_returned _ _ _ _ _ (synthesize_succeeds env _ p n st (Hsyn _ _))).
    rewrite Hmax. rewrite (text_to_speech_body_tracks p n); [reflexivity|exact Hp|exact Hn|].
    simpl. apply lookup_insert_eq.
Qed.

Lemma try_except_returned {A} (body : M A) (catches : ExnClass -> bool)
    (handler : Exn -> M A) (st st' : App) (a : A) :
  body st = (Returned a, st') -> try_except body catches handler st = (Returned a, st').
Proof. intros H. unfold try_except. rewrite H. reflexivity. Qed.

Lemma text_to_speech_succeeds (env : Backends) (text : string) (codes : LangCodes)
    (n : Z) (st : App) :
  text <> "" ->
  voice_combo (ui st) = "Google TTS" \/
  voice_combo (ui st) = "System TTS (pyttsx3)" \/
  (voice_combo (ui st) = "Edge TTS" /\ edge_voice_combo (ui st) <> "") ->
  mkstemp env (disk (world st)) <> "" ->
  disk (world st) !! mkstemp env (disk (world st)) = None ->
  (forall history c, synthesized env history c = (n, None)) -> 0 < n ->
  exists cs,
    text_to_speech env text codes st =
      (Returned (Some (mkstemp env (disk (world st)))),
       set_temp_files (temp_files st ++ [mkstemp env (disk (world st))])
         (set_disk_of (insert (mkstemp env (disk (world st))) (mkFile n false))
            (with_calls cs st))).
Proof.
  intros Htext Hservice Hname Hfresh Hsyn Hn.
  apply is_empty_false in Htext. unfold text_to_speech. rewrite Htext.
  set (name := mkstemp env (disk (world st))) in *.
  assert (E1 : try_except (let! name := NamedTemporaryFile env in ret (inl name))
                 is_Exception
                 (fun e => let! r := text_to_speech_except None e in ret (inr r)) st
               = (Returned (inl name), set_disk_of (insert name (mkFile 0 false)) st)).
  { apply try_except_returned.
    rewrite (bind_returned _ _ _ _ _ (NamedTemporaryFile_fresh env st Hfresh)).
    reflexivity. }
  rewrite (bind_returned _ _ _ _ _ E1).
  destruct (text_to_speech_body_succeeds env text codes name n
              (set_disk_of (insert name (mkFile 0 false)) st)) as (cs & Ebody);
    [exact Hservice|exact Hname|exact Hsyn|exact Hn|].
  exists cs. rewrite (try_except_returned _ _ _ _ _ _ Ebody).
  f_equal. unfold set_disk_of, with_calls, set_temp_files. simpl.
  rewrite insert_insert_eq. reflexivity.
Qed.

(** X11. With a non-empty text, one of the three voice services selected
    (for Edge TTS with a voice chosen), a fresh and non-empty temporary
    name and a speech service that writes [n > 0] bytes, [speak_text]
    leaves that one file on disk, tracked last, as the current playing file
    and the source of the player, which plays; no dialog is shown. *)
Theorem speak_text_plays_new_file (env : Backends) (text : string) (codes : LangCodes)
    (n : Z) (st : App) :
  text <> "" ->
  voice_combo (ui st) = "Google TTS" \/
  voice_combo (ui st) = "System TTS (pyttsx3)" \/
  (voice_combo (ui st) = "Edge TTS" /\ edge_voice_combo (ui st) <> "") ->
  mkstemp env (disk (world st)) <> "" ->
  disk (world st) !! mkstemp env (disk (world st)) = None ->
  (forall history c, synthesized env history c = (n, None)) -> 0 < n ->
  let name := mkstemp env (disk (world st)) in
  let st' := exec (speak_text env text codes) st in
  temp_files st' = temp_files st ++ [name] /\
  current_playing_file st' = Some name /\
  player st' = {| playing := true; media_source := Some name |} /\
  disk (world st') = <[name := mkFile n false]> (disk (world st)) /\
  dialogs (world st') = dialogs (world st).
Proof.
  intros Htext Hservice Hname Hfresh Hsyn Hn. cbv zeta.
  destruct (stop_audio_run st) as (st0 & E0 & Ht & Hw).
  assert (Hui : ui st0 = ui st).
  { revert E0. unfold stop_audio, bind, get, modify, pass, ret.
    destruct (playing (player st)); intros [= <-]; reflexivity. }
  destruct (text_to_speech_succeeds env text codes n st0) as (cs & E1);
    [exact Htext|rewrite Hui; exact Hservice|rewrite Hw; exact Hname
    |rewrite Hw; exact Hfresh|exact Hsyn|exact Hn|].
  rewrite Hw in E1. set (name := mkstemp env (disk (world st))) in *.
  apply is_empty_false in Htext, Hname.
  unfold exec, speak_text. rewrite Htext.
  rewrite (bind_returned _ _ _ _ _ E0).
  assert (E2 : try_except
                 (let! temp_file := text_to_speech env text codes in ret (Some temp_file))
                 is_Exception (fun e => speak_text_except None e >> ret None) st0
               = (Returned (Some (Some name)),
                  set_temp_files (temp_files st0 ++ [name])
                    (set_disk_of (insert name (mkFile n false)) (with_calls cs st0)))).
  { apply try_except_returned. rewrite (bind_returned _ _ _ _ _ E1). reflexivity. }
  rewrite (bind_returned _ _ _ _ _ E2). rewrite Hname.
  unfold try_except, bind, modify, player_play. simpl.
  rewrite Ht, Hw. repeat split.
Qed.

(** X12. When the media ends with [p] as the current playing file, the slot
    returns and no file is current afterwards.  A tracked [p] that can be
    unlinked is gone from the disk and, once, from [temp_files]; a [p] that
    cannot be unlinked, or is not tracked, leaves disk and [temp_files] as
    they were.  No other path is touched. *)
Theorem end_of_media_forgets_current_file (p : string) (st : App) :
  current_playing_file st = Some p -> p <> "" ->
  let st' := exec handle_end_of_media st in
  outcome handle_end_of_media st = Returned tt /\
  current_playing_file st' = None /\
  (p ∈ temp_files st -> deletable (disk (world st)) p = true ->
     disk (world st') !! p = None /\
     Py.remove p (temp_files st) = Some (temp_files st')) /\
  (deletable (disk (world st)) p = false ->
     disk (world st') = disk (world st) /\ temp_files st' = temp_files st) /\
  ((p ∉ temp_files st) ->
     disk (world st') = disk (world st) /\ temp_files st' = temp_files st) /\
  (forall q, q <> p -> disk (world st') !! q = disk (world st) !! q).
Proof.
  intros Hcur Hp. cbv zeta. apply is_empty_false in Hp.
  assert (Erun : handle_end_of_media st =
                 (cleanup_single_file p >> modify (set_current_playing_file None)) st).
  { unfold handle_end_of_media. unfold bind at 1, get. rewrite Hcur, Hp. reflexivity. }
  unfold outcome, exec. rewrite Erun. clear Erun.
  destruct (cleanup_single_file_cases p st)
    as [(Hin & Hd & l & El & E)|[(Hin & Hd & line & E)|(Hout & E)]];
    rewrite !(bind_returned _ _ _ _ _ E); simpl.
  - split; [reflexivity|]. split; [reflexivity|]. split.
    { intros _ _. split; [apply lookup_delete_eq|exact El]. }
    split; [intros H; congruence|]. split; [intros H; contradiction|].
    intros q Hq. apply lookup_delete_ne. congruence.
  - split; [reflexivity|]. split; [reflexivity|]. split; [intros _ H; congruence|].
    repeat split; reflexivity.
  - split; [reflexivity|]. split; [reflexivity|]. split; [intros H; contradiction|].
    repeat split; reflexivity.
Qed.

(** X13. [cleanup_all_temp_files] runs from [closeEvent] and once more from
    [atexit].  With pairwise distinct tracked paths the second run returns
    and changes neither [temp_files] nor the disk. *)
Theorem cleanup_all_temp_files_twice (st : App) :
  NoDup (temp_files st) ->
  let once := exec cleanup_all_temp_files st in
  let twice := exec cleanup_all_temp_files once in
  outcome cleanup_all_temp_files once = Returned tt /\
  temp_files twice = temp_files once /\
  disk (world twice) = disk (world once).
Proof.
  intros Hnd. cbv zeta. unfold outcome, exec.
  destruct (cleanup_all_temp_files_run st Hnd) as (st1 & E1 & Ht1 & Hd1).
  rewrite E1. simpl.
  assert (Hnd1 : NoDup (temp_files st1)) by (rewrite Ht1; apply NoDup_filter; exact Hnd).
  destruct (cleanup_all_temp_files_run st1 Hnd1) as (st2 & E2 & Ht2 & Hd2).
  rewrite E2. simpl.
  assert (Hstuck : forall q, q ∈ temp_files st1 -> deletable (disk (world st1)) q = false).
  { intros q Hq. rewrite Ht1 in Hq. apply list_elem_of_filter in Hq as [Hq _].
    unfold deletable. rewrite Hd1. rewrite Hq, andb_false_r. exact Hq. }
  split; [reflexivity|]. split.
  - rewrite Ht2. apply filter_all. exact Hstuck.
  - apply map_eq. intros q. rewrite Hd2.
    destruct (bool_decide (q ∈ temp_files st1)) eqn:Hq; [|reflexivity].
    apply bool_decide_eq_true in Hq. rewrite (Hstuck q Hq). reflexivity.
Qed.

(* ===================================================================== *)
(** ** Translation: what a request reads and writes                      *)
(* ===================================================================== *)

(** The provider chain reads the saved keys, the stored examples and the
    record of calls, and nothing else of the object. *)
Lemma provider_translate_reads (env : Backends) (service src dest text : string)
    (st1 st2 : App) :
  api_keys st1 = api_keys st2 ->
  translation_examples st1 = translation_examples st2 ->
  calls (world st1) = calls (world st2) ->
  fst (provider_translate env service src dest text st1) =
    fst (provider_translate env service src dest text st2) /\
  exists cs,
    snd (provider_translate env service src dest text st1) = with_calls cs st1 /\
    snd (provider_translate env service src dest text st2) = with_calls cs st2.
Proof.
  intros Hk He Hc.
  unfold provider_translate.
  repeat match goal with |- context [if String.eqb ?a ?b then _ else _] =>
    destruct (String.eqb a b) end;
  unfold require_api_key, s2twp, bind, get, ret, raise;
  rewrite <- ?Hk, <- ?He;
  repeat (rewrite ?call_run, ?calls_with_calls, <- ?Hc, <- ?Hk, <- ?He; cbv beta iota;
          match goal with
          | |- context [api_keys st1 !! ?k] => destruct (api_keys st1 !! k) as [key|]
          | |- context [is_empty ?k] => destruct (is_empty k)
          | |- context [reply ?e ?h ?c] => destruct (reply e h c)
          | |- context [if String.eqb ?a ?b then _ else _] => destruct (String.eqb a b)
          end);
  rewrite ?call_run, ?calls_with_calls, <- ?Hc, <- ?Hk, <- ?He; cbv beta iota; unfold fst, snd;
  (split; [reflexivity|]);
  first [ exists []; rewrite !with_calls_nil; split; reflexivity
        | eexists; split; reflexivity
        | eexists; rewrite !with_calls_app; split; reflexivity ].
Qed.

Lemma set_last_source_text_same (st : App) :
  set_last_source_text (last_source_text st) st = st.
Proof. destruct st. reflexivity. Qed.

(** X1. [translate_text] returns from every state, and all it changes are the
    text of the target pane, the record of calls and the last source text:
    the timer, the direction, the source pane, the read-only flag of the
    target pane, both language combos, the stored examples, the saved
    keys, the tracked temporary files and the disk are as before. *)
Theorem translate_text_changes_little (env : Backends) (st : App) :
  let st' := exec (translate_text env) st in
  (exists txt last cs,
     translate_text env st =
       (Returned tt,
        with_text (target_side st) txt (with_calls cs (set_last_source_text last st)))) /\
  translate_timer st' = translate_timer st /\
  translate_left_to_right st' = translate_left_to_right st /\
  pane (translate_left_to_right st) st' = pane (translate_left_to_right st) st /\
  isReadOnly (pane (target_side st) st') = isReadOnly (pane (target_side st) st) /\
  lang_combo true st' = lang_combo true st /\
  lang_combo false st' = lang_combo false st /\
  translation_examples st' = translation_examples st /\
  api_keys st' = api_keys st /\
  temp_files st' = temp_files st /\
  disk (world st') = disk (world st).
Proof.
  cbv zeta.
  assert (H : exists txt last cs,
     translate_text env st =
       (Returned tt,
        with_text (target_side st) txt (with_calls cs (set_last_source_text last st)))).
  { destruct (decide (source_text_of st = "")) as [Hb|Hsrc].
    - exists "", (last_source_text st), [].
      rewrite set_last_source_text_same, with_calls_nil. apply translate_text_blank, Hb.
    - pose proof (provider_translate_frame env (translator_combo (ui st))
                    (src_lang_name_of st) (dest_lang_name_of st) (source_text_of st)
                    (set_last_source_text (source_text_of st) st)) as (Hdir & _).
      rewrite (translate_text_run env st Hsrc Hdir).
      destruct (provider_translate_adds_calls env (translator_combo (ui st))
                  (src_lang_name_of st) (dest_lang_name_of st) (source_text_of st)
                  (set_last_source_text (source_text_of st) st)) as [cs ->].
      eexists _, _, cs. reflexivity. }
  split; [exact H|]. destruct H as (txt & last & cs & E). unfold exec. rewrite E.
  unfold target_side. destruct (translate_left_to_right st) eqn:Hd; simpl; rewrite ?Hd;
    repeat split.
Qed.

Lemma swapped_request (st : App) :
  source_text_of (swapped st) = source_text_of st /\
  src_lang_name_of (swapped st) = src_lang_name_of st /\
  dest_lang_name_of (swapped st) = dest_lang_name_of st /\
  target_side (swapped st) = negb (target_side st).
Proof.
  unfold source_text_of, src_lang_name_of, dest_lang_name_of, target_side.
  destruct (translate_left_to_right st) eqn:Hd; simpl; rewrite Hd; repeat split.
Qed.

(** X3. Between two events a swap turns the panes around and keeps the
    request: the source text, the source language and the destination
    language are those of before, read from the other side, and the target
    side is the other one.  So a translation after the swap makes the
    calls of a translation without it and writes the same text, into the
    other pane. *)
Theorem swap_languages_mirrors_request (env : Backends) (st : App) :
  valid_state st ->
  let st' := exec swap_languages st in
  source_text_of st' = source_text_of st /\
  src_lang_name_of st' = src_lang_name_of st /\
  dest_lang_name_of st' = dest_lang_name_of st /\
  target_side st' = negb (target_side st) /\
  calls (world (exec (translate_text env) st')) = calls (world (exec (translate_text env) st)) /\
  toPlainText (pane (target_side st') (exec (translate_text env) st')) =
    toPlainText (pane (target_side st) (exec (translate_text env) st)).
Proof.
  intros Hv st'.
  assert (Es : st' = swapped st)
    by (subst st'; unfold exec; rewrite (swap_languages_run st Hv); reflexivity).
  rewrite Es. clear st' Es.
  destruct (swapped_request st) as (Hs & Hsl & Hdl & Ht).
  split; [exact Hs|]. split; [exact Hsl|]. split; [exact Hdl|]. split; [exact Ht|].
  unfold exec.
  destruct (decide (source_text_of st = "")) as [Hb|Hsrc].
  - rewrite (translate_text_blank env st Hb).
    rewrite (translate_text_blank env (swapped st)) by (rewrite Hs; exact Hb).
    simpl snd. rewrite !pane_with_text. split; [|reflexivity].
    destruct (target_side st), (target_side (swapped st)); reflexivity.
  - assert (Hsrc' : source_text_of (swapped st) <> "") by (rewrite Hs; exact Hsrc).
    pose proof (provider_translate_frame env (translator_combo (ui st))
                  (src_lang_name_of st) (dest_lang_name_of st) (source_text_of st)
                  (set_last_source_text (source_text_of st) st)) as (Hdir & _).
    pose proof (provider_translate_frame env (translator_combo (ui (swapped st)))
                  (src_lang_name_of (swapped st)) (dest_lang_name_of (swapped st))
                  (source_text_of (swapped st))
                  (set_last_source_text (source_text_of (swapped st)) (swapped st)))
      as (Hdir' & _).
    rewrite (translate_text_run env st Hsrc Hdir).
    rewrite (translate_text_run env (swapped st) Hsrc' Hdir').
    simpl snd. rewrite !pane_with_text. rewrite Hs, Hsl, Hdl.
    change (translator_combo (ui (swapped st))) with (translator_combo (ui st)).
    destruct (provider_translate_reads env (translator_combo (ui st))
                (src_lang_name_of st) (dest_lang_name_of st) (source_text_of st)
                (set_last_source_text (source_text_of st) (swapped st))
                (set_last_source_text (source_text_of st) st))
      as (Hfst & cs & E1 & E2); [reflexivity|reflexivity|reflexivity|].
    rewrite Hfst, E1, E2. split; [|reflexivity].
    destruct (target_side st), (target_side (swapped st)); reflexivity.
Qed.

(** A blank text put into the source pane clears the target pane and
    leaves the timer as it is. *)
Lemma setPlainText_source_blank (side : bool) (txt : string) (st : App) :
  textChanged_connected (pane side st) = true ->
  side = translate_left_to_right st ->
  strip txt = "" ->
  setPlainText side txt st
    = (Returned tt, with_text (negb side) "" (with_text side txt st)).
Proof.
  intros Hconn Hside Htxt.
  unfold setPlainText, setPlainText_with at 1, bind at 1, modify at 1.
  fold (with_text side txt st). unfold bind at 1, get at 1.
  assert (Hc : textChanged_connected (pane side (with_text side txt st)) = true).
  { destruct side; simpl in *; congruence. }
  rewrite Hc.
  unfold handle_text_changed, handle_text_changed_with at 1, bind at 1, get at 1.
  unfold with_text at 1. rewrite direction_set_pane. rewrite <- Hside.
  rewrite eqb_reflx. simpl negb. cbv iota.
  fold (with_text side txt st). rewrite pane_with_text, Htxt. simpl is_empty. cbv iota.
  apply setPlainText_with_target.
  unfold with_text. rewrite direction_set_pane. rewrite Hside. reflexivity.
Qed.

(** The user types into the source pane. *)
Lemma UserTypes_source (env : Backends) (txt : string) (st : App) :
  valid_state st ->
  exec (on_event env (UserTypes (translate_left_to_right st) txt)) st =
    if is_empty (strip txt)
    then with_text (negb (translate_left_to_right st)) ""
           (with_text (translate_left_to_right st) txt st)
    else set_translate_timer (Some 1200) (with_text (translate_left_to_right st) txt st).
Proof.
  intros (Hl & Hr & _ & _ & Hrol & Hror).
  assert (Hro : isReadOnly (pane (translate_left_to_right st) st) = false).
  { destruct (translate_left_to_right st); simpl in *; congruence. }
  assert (Hconn : textChanged_connected (pane (translate_left_to_right st) st) = true).
  { destruct (translate_left_to_right st); assumption. }
  unfold exec, on_event, bind at 1, get at 1. rewrite Hro.
  destruct (is_empty (strip txt)) eqn:Hb.
  - apply is_empty_true in Hb.
    rewrite (setPlainText_source_blank _ _ _ Hconn eq_refl Hb). reflexivity.
  - apply is_empty_false in Hb.
    rewrite (setPlainText_source_schedules _ _ _ Hconn eq_refl Hb). reflexivity.
Qed.

Lemma TimerFires_run (env : Backends) (st : App) :
  exec (on_event env TimerFires) st =
    match translate_timer st with
    | Some _ => exec (translate_text env) (set_translate_timer None st)
    | None => st
    end.
Proof.
  unfold exec, on_event, bind at 1, get at 1.
  destruct (translate_timer st); reflexivity.
Qed.

(** [translate_text] does not read the target pane: whatever text it
    holds, the run is the same. *)
Lemma translate_text_ignores_target (env : Backends) (txt : string) (st : App) :
  translate_text env (with_text (target_side st) txt st) = translate_text env st.
Proof.
  set (st1 := with_text (target_side st) txt st).
  assert (Hs : source_text_of st1 = source_text_of st).
  { subst st1. unfold source_text_of, target_side, with_text.
    destruct (translate_left_to_right st) eqn:Hd; simpl; rewrite Hd; reflexivity. }
  assert (Hsl : src_lang_name_of st1 = src_lang_name_of st).
  { subst st1. unfold src_lang_name_of, target_side, with_text.
    destruct (translate_left_to_right st) eqn:Hd; simpl; rewrite Hd; reflexivity. }
  assert (Hdl : dest_lang_name_of st1 = dest_lang_name_of st).
  { subst st1. unfold dest_lang_name_of, target_side, with_text.
    destruct (translate_left_to_right st) eqn:Hd; simpl; rewrite Hd; reflexivity. }
  assert (Ht : target_side st1 = target_side st).
  { subst st1. unfold target_side, with_text.
    destruct (translate_left_to_right st) eqn:Hd; simpl; rewrite Hd; reflexivity. }
  assert (Htc : translator_combo (ui st1) = translator_combo (ui st)).
  { subst st1. unfold target_side, with_text.
    destruct (translate_left_to_right st); reflexivity. }
  destruct (decide (source_text_of st = "")) as [Hb|Hsrc].
  - rewrite (translate_text_blank env st Hb).
    rewrite (translate_text_blank env st1) by (rewrite Hs; exact Hb).
    rewrite Ht. subst st1. f_equal.
    unfold target_side, with_text. destruct (translate_left_to_right st); reflexivity.
  - assert (Hsrc1 : source_text_of st1 <> "") by (rewrite Hs; exact Hsrc).
    pose proof (provider_translate_frame env (translator_combo (ui st))
                  (src_lang_name_of st) (dest_lang_name_of st) (source_text_of st)
                  (set_last_source_text (source_text_of st) st)) as (Hdir & _).
    pose proof (provider_translate_frame env (translator_combo (ui st1))
                  (src_lang_name_of st1) (dest_lang_name_of st1) (source_text_of st1)
                  (set_last_source_text (source_text_of st1) st1)) as (Hdir1 & _).
    rewrite (translate_text_run env st Hsrc Hdir).
    rewrite (translate_text_run env st1 Hsrc1 Hdir1).
    rewrite Hs, Hsl, Hdl, Ht, Htc.
    destruct (provider_translate_reads env (translator_combo (ui st))
                (src_lang_name_of st) (dest_lang_name_of st) (source_text_of st)
                (set_last_source_text (source_text_of st) st1)
                (set_last_source_text (source_text_of st) st))
      as (Hfst & cs & E1 & E2).
    { subst st1. unfold with_text. destruct (target_side st); reflexivity. }
    { subst st1. unfold with_text. destruct (target_side st); reflexivity. }
    { subst st1. unfold with_text. destruct (target_side st); reflexivity. }
    rewrite Hfst, E1, E2. f_equal. subst st1.
    unfold with_text. destruct (target_side st); reflexivity.
Qed.

Lemma valid_state_with_text (side : bool) (txt : string) (st : App) :
  valid_state st -> valid_state (with_text side txt st).
Proof.
  intros (H1 & H2 & H3 & H4 & H5 & H6). destruct side; repeat split; simpl in *;
    first [assumption|lia].
Qed.

Lemma valid_state_set_translate_timer (t : option Z) (st : App) :
  valid_state st -> valid_state (set_translate_timer t st).
Proof. intros H. exact H. Qed.

(** X4. Between two events, an edit of the source pane that is followed by
    another one before the timer fires leaves no trace: typing [first],
    typing [last] and the timer firing end in the state that typing
    [last] and the timer firing end in.  The first edit only starts a
    timer, which the second one starts again. *)
Theorem superseded_edit_leaves_no_trace (env : Backends) (first last : string)
    (st : App) :
  valid_state st ->
  let source := translate_left_to_right st in
  run_events env [UserTypes source first; UserTypes source last; TimerFires] st =
  run_events env [UserTypes source last; TimerFires] st.
Proof.
  intros Hv source. subst source. cbn [run_events].
  rewrite (UserTypes_source env last st Hv).
  rewrite (UserTypes_source env first st Hv).
  set (d := translate_left_to_right st).
  destruct (is_empty (strip first)) eqn:Hfirst.
  - (* the first text is blank: the target pane was cleared in between *)
    assert (Hv1 : valid_state (with_text (negb d) "" (with_text d first st)))
      by (apply valid_state_with_text, valid_state_with_text, Hv).
    assert (Hd1 : translate_left_to_right (with_text (negb d) "" (with_text d first st)) = d).
    { unfold with_text. rewrite !direction_set_pane. reflexivity. }
    pose proof (UserTypes_source env last _ Hv1) as E. rewrite Hd1 in E. rewrite E. clear E.
    destruct (is_empty (strip last)) eqn:Hlast.
    + f_equal. unfold with_text. subst d.
      destruct st as [dir ? ? ? ? ? ? ? ? [lt rt ? ? ? ? ? ? ?] ? ?]; destruct dir; reflexivity.
    + rewrite !TimerFires_run. simpl translate_timer.
      replace (set_translate_timer None
                 (set_translate_timer (Some 1200)
                    (with_text d last (with_text (negb d) "" (with_text d first st)))))
        with (with_text (target_side (set_translate_timer None
                 (set_translate_timer (Some 1200) (with_text d last st)))) ""
                (set_translate_timer None
                   (set_translate_timer (Some 1200) (with_text d last st)))).
      * unfold exec. rewrite translate_text_ignores_target. reflexivity.
      * unfold with_text, target_side. subst d.
        destruct st as [dir ? ? ? ? ? ? ? ? [lt rt ? ? ? ? ? ? ?] ? ?];
          destruct dir; reflexivity.
  - (* the first text started the timer *)
    assert (Hv1 : valid_state (set_translate_timer (Some 1200) (with_text d first st)))
      by (apply valid_state_set_translate_timer, valid_state_with_text, Hv).
    assert (Hd1 : translate_left_to_right
                    (set_translate_timer (Some 1200) (with_text d first st)) = d).
    { unfold with_text. simpl. rewrite !direction_set_pane. reflexivity. }
    pose proof (UserTypes_source env last _ Hv1) as E. rewrite Hd1 in E. rewrite E. clear E.
    destruct (is_empty (strip last)) eqn:Hlast.
    + rewrite !TimerFires_run.
      set (cleared := with_text (negb d) "" (with_text d last st)).
      replace (with_text (negb d) ""
                 (with_text d last (set_translate_timer (Some 1200) (with_text d first st))))
        with (set_translate_timer (Some 1200) cleared).
      2:{ subst cleared d. unfold with_text.
          destruct st as [dir ? ? ? ? ? ? ? ? [lt rt ? ? ? ? ? ? ?] ? ?];
            destruct dir; reflexivity. }
      simpl translate_timer at 1. cbv iota.
      assert (Hblank : source_text_of (set_translate_timer None cleared) = "").
      { apply is_empty_true in Hlast. subst cleared d.
        unfold source_text_of, with_text.
        destruct st as [dir ? ? ? ? ? ? ? ? [lt rt ? ? ? ? ? ? ?] ? ?];
          destruct dir; simpl; exact Hlast. }
      assert (Hnone : exec (translate_text env) (set_translate_timer None cleared) =
                      set_translate_timer None cleared).
      { unfold exec.
        rewrite (translate_text_blank env (set_translate_timer None cleared) Hblank).
        simpl snd. subst cleared d. unfold with_text, target_side.
        destruct st as [dir ? ? ? ? ? ? ? ? [lt rt ? ? ? ? ? ? ?] ? ?];
          destruct dir; reflexivity. }
      replace (set_translate_timer None (set_translate_timer (Some 1200) cleared))
        with (set_translate_timer None cleared) by reflexivity.
      rewrite Hnone.
      destruct (translate_timer cleared) eqn:Ht.
      * reflexivity.
      * clearbody cleared. destruct cleared; simpl in *; subst; reflexivity.
    + f_equal. unfold with_text. subst d.
      destruct st as [dir ? ? ? ? ? ? ? ? [lt rt ? ? ? ? ? ? ?] ? ?]; destruct dir; reflexivity.
Qed.

(* ===================================================================== *)
(** ** Saved keys and learned examples: facts                            *)
(* ===================================================================== *)

(** *** [strip] is idempotent *)

Lemma append_cons (x : ascii) (a b : string) : String x a +:+ b = String x (a +:+ b).
Proof. reflexivity. Qed.

Lemma append_assoc (a b c : string) : (a +:+ b) +:+ c = a +:+ (b +:+ c).
Proof.
  induction a as [|x a IH]; [reflexivity|]. rewrite !append_cons, IH. reflexivity.
Qed.

Lemma append_nil_r (a : string) : a +:+ "" = a.
Proof. induction a as [|x a IH]; [reflexivity|]. rewrite append_cons, IH. reflexivity. Qed.

Lemma rev_app_acc (s acc : string) : String.rev_app s acc = String.rev s +:+ acc.
Proof.
  unfold String.rev. revert acc. induction s as [|x s IH]; intros acc; simpl; [reflexivity|].
  rewrite IH, (IH (String x "")), append_assoc. reflexivity.
Qed.

Lemma rev_append (a b : string) : String.rev (a +:+ b) = String.rev b +:+ String.rev a.
Proof.
  induction a as [|x a IH].
  - change ("" +:+ b) with b. rewrite append_nil_r. reflexivity.
  - rewrite append_cons. unfold String.rev at 1 3. simpl.
    rewrite !rev_app_acc, IH, append_assoc. reflexivity.
Qed.

Lemma rev_involutive (s : string) : String.rev (String.rev s) = s.
Proof.
  induction s as [|x s IH]; [reflexivity|].
  unfold String.rev at 2. simpl. rewrite rev_app_acc, rev_append, IH. reflexivity.
Qed.

Lemma strip_prefix_Some (p s s' : string) : strip_prefix p s = Some s' <-> s = p +:+ s'.
Proof.
  revert s. induction p as [|a p IH]; intros s; simpl.
  - split; [intros [= ->]; reflexivity|intros ->; reflexivity].
  - rewrite append_cons. destruct s as [|b s]; [split; discriminate|].
    destruct (Ascii.eqb_spec a b) as [->|Hne].
    + rewrite IH. split; [intros ->; reflexivity|intros [= ->]; reflexivity].
    + split; [discriminate|]. intros H. injection H as H1 H2. congruence.
Qed.

Lemma drop_leading_Some (chars : list string) (s s' : string) :
  drop_leading chars s = Some s' -> exists c, c ∈ chars /\ s = c +:+ s'.
Proof.
  induction chars as [|c chars IH]; simpl; [discriminate|].
  destruct (strip_prefix c s) as [r|] eqn:E.
  - intros [= ->]. exists c. split; [left|]. apply strip_prefix_Some, E.
  - intros H. destruct (IH H) as (c' & Hin & Hs). exists c'. split; [right; exact Hin|exact Hs].
Qed.

Lemma drop_leading_None (chars : list string) (s : string) :
  drop_leading chars s = None <-> forall c, c ∈ chars -> strip_prefix c s = None.
Proof.
  induction chars as [|c chars IH]; simpl.
  - split; [intros _ c Hc; inversion Hc|reflexivity].
  - destruct (strip_prefix c s) as [r|] eqn:E.
    + split; [discriminate|]. intros H. rewrite (H c) in E; [discriminate|left].
    + rewrite IH. split.
      * intros H c' Hc'. apply elem_of_cons in Hc' as [->|Hc']; [exact E|apply H, Hc'].
      * intros H c' Hc'. apply H. right. exact Hc'.
Qed.

Lemma length_append (a b : string) :
  String.length (a +:+ b) = (String.length a + String.length b)%nat.
Proof.
  induction a as [|x a IH]; [reflexivity|]. rewrite append_cons. simpl. rewrite IH.
  reflexivity.
Qed.

(** With enough fuel nothing of [chars] is left at the front. *)
Lemma lstrip_fuel_done (chars : list string) (fuel : nat) (s : string) :
  (forall c, c ∈ chars -> c <> "") ->
  (String.length s <= fuel)%nat ->
  drop_leading chars (lstrip_fuel chars fuel s) = None.
Proof.
  intros Hne. revert s. induction fuel as [|fuel IH]; intros s Hlen; simpl.
  - destruct s; [|simpl in Hlen; lia].
    apply drop_leading_None. intros c Hc. specialize (Hne c Hc).
    destruct c; [contradiction|reflexivity].
  - destruct (drop_leading chars s) as [s'|] eqn:E; [|exact E].
    apply IH. destruct (drop_leading_Some _ _ _ E) as (c & Hc & ->).
    specialize (Hne c Hc). rewrite length_append in Hlen.
    destruct c; [contradiction|]. simpl in Hlen. lia.
Qed.

Lemma lstrip_fuel_fixed (chars : list string) (fuel : nat) (s : string) :
  drop_leading chars s = None -> lstrip_fuel chars fuel s = s.
Proof. intros H. destruct fuel; simpl; [reflexivity|]. rewrite H. reflexivity. Qed.

Lemma lstrip_fuel_suffix (chars : list string) (fuel : nat) (s : string) :
  exists pre, s = pre +:+ lstrip_fuel chars fuel s.
Proof.
  revert s. induction fuel as [|fuel IH]; intros s; simpl; [exists ""; reflexivity|].
  destruct (drop_leading chars s) as [s'|] eqn:E; [|exists ""; reflexivity].
  destruct (drop_leading_Some _ _ _ E) as (c & _ & ->).
  destruct (IH s') as (pre & Hpre). exists (c +:+ pre).
  rewrite append_assoc, <- Hpre. reflexivity.
Qed.

Lemma drop_leading_prefix (chars : list string) (t x : string) :
  drop_leading chars (t +:+ x) = None -> drop_leading chars t = None.
Proof.
  rewrite !drop_leading_None. intros H c Hc. specialize (H c Hc).
  destruct (strip_prefix c t) as [r|] eqn:E; [|reflexivity].
  apply strip_prefix_Some in E. subst t.
  assert (E' : strip_prefix c ((c +:+ r) +:+ x) = Some (r +:+ x))
    by (apply strip_prefix_Some, append_assoc).
  congruence.
Qed.

Lemma strip_chars_idempotent (chars : list string) (s : string) :
  (forall c, c ∈ chars -> c <> "") ->
  let t := rstrip_chars chars (lstrip_chars chars s) in
  rstrip_chars chars (lstrip_chars chars t) = t.
Proof.
  intros Hne t.
  assert (Hne' : forall c, c ∈ String.rev <$> chars -> c <> "").
  { intros c Hc ->. apply list_elem_of_fmap in Hc as (c0 & Hr & Hc0).
    specialize (Hne c0 Hc0). apply Hne.
    rewrite <- (rev_involutive c0), <- Hr. reflexivity. }
  set (u := lstrip_chars chars s) in *.
  set (t' := lstrip_chars (String.rev <$> chars) (String.rev u)).
  assert (Et : t = String.rev t') by reflexivity.
  assert (Hu : drop_leading chars u = None) by (apply lstrip_fuel_done; [exact Hne|lia]).
  assert (Ht' : drop_leading (String.rev <$> chars) t' = None)
    by (apply lstrip_fuel_done; [exact Hne'|lia]).
  destruct (lstrip_fuel_suffix (String.rev <$> chars) (String.length (String.rev u))
              (String.rev u)) as (pre & Hpre).
  fold (lstrip_chars (String.rev <$> chars) (String.rev u)) in Hpre. fold t' in Hpre.
  assert (Eu : u = t +:+ String.rev pre).
  { rewrite <- (rev_involutive u), Hpre, rev_append, <- Et. reflexivity. }
  assert (Ht : drop_leading chars t = None).
  { apply (drop_leading_prefix chars t (String.rev pre)). rewrite <- Eu. exact Hu. }
  unfold lstrip_chars at 1. rewrite (lstrip_fuel_fixed _ _ _ Ht).
  unfold rstrip_chars. rewrite Et at 1. rewrite rev_involutive.
  unfold lstrip_chars at 1. rewrite (lstrip_fuel_fixed _ _ _ Ht'). symmetry. exact Et.
Qed.

Lemma whitespace_nonempty (c : string) : c ∈ whitespace -> c <> "".
Proof.
  intros Hc ->. revert Hc. apply (bool_decide_unpack _). vm_compute. exact I.
Qed.

Lemma strip_idempotent (s : string) : strip (strip s) = strip s.
Proof. apply (strip_chars_idempotent whitespace s), whitespace_nonempty. Qed.

Lemma translate_text_result (env : Backends) (st : App) :
  exists txt cs,
    translate_text env st =
      (Returned tt,
       with_text (target_side st) txt
         (with_calls cs
            (set_last_source_text
               (if is_empty (source_text_of st) then last_source_text st
                else source_text_of st) st))).
Proof.
  destruct (decide (source_text_of st = "")) as [Hb|Hsrc].
  - exists "", []. rewrite Hb. simpl is_empty. cbv iota.
    rewrite set_last_source_text_same, with_calls_nil. apply translate_text_blank, Hb.
  - pose proof (provider_translate_frame env (translator_combo (ui st))
                  (src_lang_name_of st) (dest_lang_name_of st) (source_text_of st)
                  (set_last_source_text (source_text_of st) st)) as (Hdir & _).
    rewrite (translate_text_run env st Hsrc Hdir).
    destruct (provider_translate_adds_calls env (translator_combo (ui st))
                (src_lang_name_of st) (dest_lang_name_of st) (source_text_of st)
                (set_last_source_text (source_text_of st) st)) as [cs ->].
    apply is_empty_false in Hsrc. rewrite Hsrc. eexists _, cs. reflexivity.
Qed.

Lemma valid_state_other_fields (st st' : App) :
  ui st' = ui st -> translate_left_to_right st' = translate_left_to_right st ->
  valid_state st -> valid_state st'.
Proof.
  intros Hu Hd. unfold valid_state, pane, lang_combo. rewrite Hu, Hd. tauto.
Qed.

(** X5. [save_correction] pairs the correction with the text that was
    translated last, not with what the source pane holds now: after a click
    on the translate button with a non-blank source, any edit of the
    source pane whose timer has not fired yet, and a non-blank correction,
    a click on the learn button stores the stripped source text of the
    translation with the stripped correction, and clears the correction
    input. *)
Theorem learn_pairs_translated_source (env : Backends) (edit correction : string)
    (st : App) :
  valid_state st ->
  source_text_of st <> "" ->
  strip correction <> "" ->
  let st' :=
    run_events env
      [ClicksTranslate; UserTypes (translate_left_to_right st) edit;
       UserTypesCorrection correction; ClicksLearn] st in
  translation_examples st' =
    learned (translation_examples st) (mkExample (source_text_of st) (strip correction)) /\
  correction_input (ui st') = "".
Proof.
  intros Hv Hsrc Hcorr st'. subst st'. cbn [run_events].
  destruct (translate_text_result env st) as (txt & cs & E).
  pose proof Hsrc as Hsrc'. apply is_empty_false in Hsrc'. rewrite Hsrc' in E.
  set (st1 := with_text (target_side st) txt
                (with_calls cs (set_last_source_text (source_text_of st) st))) in *.
  assert (E1 : exec (on_event env ClicksTranslate) st = st1)
    by (unfold exec, on_event; rewrite E; reflexivity).
  rewrite E1.
  assert (Hv1 : valid_state st1).
  { subst st1. apply valid_state_with_text.
    apply (valid_state_other_fields st); [reflexivity|reflexivity|exact Hv]. }
  assert (Hd1 : translate_left_to_right st1 = translate_left_to_right st).
  { subst st1. unfold with_text. rewrite direction_set_pane. reflexivity. }
  pose proof (UserTypes_source env edit st1 Hv1) as E2. rewrite Hd1 in E2.
  set (st2 := exec (on_event env (UserTypes (translate_left_to_right st) edit)) st1) in *.
  assert (Hlast : last_source_text st2 = source_text_of st).
  { rewrite E2. subst st1. unfold with_text, target_side.
    destruct (is_empty (strip edit)), (translate_left_to_right st); reflexivity. }
  assert (Hex : translation_examples st2 = translation_examples st).
  { rewrite E2. subst st1. unfold with_text, target_side.
    destruct (is_empty (strip edit)), (translate_left_to_right st); reflexivity. }
  clearbody st2.
  set (st3 := exec (on_event env (UserTypesCorrection correction)) st2).
  assert (Hidem : strip (last_source_text st3) = source_text_of st).
  { subst st3. simpl. rewrite Hlast. unfold source_text_of. apply strip_idempotent. }
  assert (Hready : is_empty (strip (last_source_text st3))
                   || is_empty (strip (correction_input (ui st3))) = false).
  { apply both_given; [rewrite Hidem; exact Hsrc|exact Hcorr]. }
  destruct (save_correction_accepted st3 Hready) as (_ & Hlearned & Hclear).
  change (exec (on_event env ClicksLearn) st3) with (exec save_correction st3).
  rewrite Hlearned, Hclear, Hidem. split; [|reflexivity].
  subst st3. simpl. rewrite Hex. reflexivity.
Qed.

Lemma require_api_key_missing (service msg : string) (st : App) :
  default "" (api_keys st !! service) = "" ->
  require_api_key service msg st = (Raised (mkExn ValueError msg), st).
Proof.
  intros H. unfold require_api_key, bind, get.
  destruct (api_keys st !! service) as [k|]; [|reflexivity].
  simpl in H. subst k. reflexivity.
Qed.

Lemma require_api_key_saved (service msg key : string) (st : App) :
  api_keys st !! service = Some key -> key <> "" ->
  require_api_key service msg st = (Returned key, st).
Proof.
  intros H Hk. unfold require_api_key, bind, get. rewrite H.
  apply is_empty_false in Hk. rewrite Hk. reflexivity.
Qed.

Lemma provider_translate_without_key (env : Backends) (service msg src dest text : string)
    (st : App) :
  (service, msg) ∈ key_services ->
  default "" (api_keys st !! service) = "" ->
  provider_translate env service src dest text st = (Raised (mkExn ValueError msg), st).
Proof.
  intros Hin Hkey. unfold key_services in Hin.
  repeat (apply elem_of_cons in Hin as [Hin|Hin]; [injection Hin as -> ->|]);
    [| | |inversion Hin]; unfold provider_translate.
  - change (String.eqb Groq_service Google_service) with false.
    change (String.eqb Groq_service Groq_service) with true. cbv iota.
    unfold bind at 1. rewrite (require_api_key_missing _ _ _ Hkey). reflexivity.
  - change (String.eqb Gemini_service Google_service) with false.
    change (String.eqb Gemini_service Groq_service) with false.
    change (String.eqb Gemini_service Gemini_service) with true. cbv iota.
    unfold bind at 1. rewrite (require_api_key_missing _ _ _ Hkey). reflexivity.
  - change (String.eqb DeepL_service Google_service) with false.
    change (String.eqb DeepL_service Groq_service) with false.
    change (String.eqb DeepL_service Gemini_service) with false.
    change (String.eqb DeepL_service Translators_service) with false.
    change (String.eqb DeepL_service DeepL_service) with true. cbv iota.
    unfold bind at 1. rewrite (require_api_key_missing _ _ _ Hkey). reflexivity.
Qed.

Lemma provider_translate_DeepL (env : Backends) (src dest text key : string) (st : App) :
  api_keys st !! DeepL_service = Some key -> key <> "" ->
  provider_translate env DeepL_service src dest text st =
    call env (DeepL_translate_text key text (deepl (get_lang_code src))
                (deepl (get_lang_code dest))) st.
Proof.
  intros Hkey Hne. unfold provider_translate.
  change (String.eqb DeepL_service Google_service) with false.
  change (String.eqb DeepL_service Groq_service) with false.
  change (String.eqb DeepL_service Gemini_service) with false.
  change (String.eqb DeepL_service Translators_service) with false.
  change (String.eqb DeepL_service DeepL_service) with true. cbv iota.
  unfold bind at 1. rewrite (require_api_key_saved _ _ _ _ Hkey Hne). reflexivity.
Qed.

(** [translate_text] when the chain raises before any call. *)
Lemma translate_text_refused (env : Backends) (e : Exn) (st : App) :
  source_text_of st <> "" ->
  provider_translate env (translator_combo (ui st)) (src_lang_name_of st)
    (dest_lang_name_of st) (source_text_of st)
    (set_last_source_text (source_text_of st) st)
  = (Raised e, set_last_source_text (source_text_of st) st) ->
  translate_text env st =
    (Returned tt,
     with_text (target_side st) (error_text e)
       (set_last_source_text (source_text_of st) st)).
Proof.
  intros Hsrc Hrun.
  pose proof (provider_translate_frame env (translator_combo (ui st))
                (src_lang_name_of st) (dest_lang_name_of st) (source_text_of st)
                (set_last_source_text (source_text_of st) st)) as (Hdir & _).
  rewrite (translate_text_run env st Hsrc Hdir). rewrite Hrun. reflexivity.
Qed.

(** X2. With a non-blank source, one of the three services that ask for a
    key (Groq, Gemini, DeepL) selected, and no key or an empty one saved
    for it, [translate_text] makes no call: the target pane shows
    "翻譯錯誤: " followed by the message of that service, and the source
    text is recorded as the last one. *)
Theorem translate_text_without_key (env : Backends) (msg : string) (st : App) :
  source_text_of st <> "" ->
  (translator_combo (ui st), msg) ∈ key_services ->
  default "" (api_keys st !! translator_combo (ui st)) = "" ->
  let st' := exec (translate_text env) st in
  toPlainText (pane (target_side st) st') = "翻譯錯誤: " +:+ msg /\
  calls (world st') = calls (world st) /\
  last_source_text st' = source_text_of st.
Proof.
  intros Hsrc Hin Hkey st'. subst st'. unfold exec.
  rewrite (translate_text_refused env (mkExn ValueError msg) st Hsrc).
  - simpl snd. rewrite pane_with_text. split; [reflexivity|].
    unfold with_text. destruct (target_side st); split; reflexivity.
  - apply provider_translate_without_key; assumption.
Qed.

(** ** Saving a key *)

Lemma save_api_key_run (api_key_input : string) (st : App) :
  save_api_key api_key_input st =
    (Returned tt,
     set_world (set_dialogs
       (dialogs (world st) ++
          [mkDialog Information "成功"
             (translator_combo (ui st) +:+ " 的 API Key 已保存")]) (world st))
       (set_api_keys (<[translator_combo (ui st) := strip api_key_input]> (api_keys st)) st)).
Proof. reflexivity. Qed.

(** X6. [save_api_key] returns, and what it saves is what the key field
    shows again: [handle_translator_service_changed] afterwards shows the
    stripped input for the service the key was saved for, and for every
    other service what was saved before (nothing: the empty text).  The
    keys of the other services, the timer and the record of calls are as
    before the save. *)
Theorem saved_key_round_trip (api_key_input service : string) (st : App) :
  let st' := exec (save_api_key api_key_input) st in
  outcome (save_api_key api_key_input) st = Returned tt /\
  outcome (handle_translator_service_changed service) st' =
    Returned (if String.eqb service (translator_combo (ui st)) then strip api_key_input
              else default "" (api_keys st !! service)) /\
  (forall other, other <> translator_combo (ui st) ->
     api_keys st' !! other = api_keys st !! other) /\
  translate_timer st' = translate_timer st /\
  calls (world st') = calls (world st).
Proof.
  cbv zeta. unfold outcome, exec. rewrite save_api_key_run. simpl fst. simpl snd.
  split; [reflexivity|]. split.
  - unfold handle_translator_service_changed, bind, get, trigger_translation, timer_start,
      modify, ret. simpl.
    destruct (String.eqb_spec service (translator_combo (ui st))) as [->|Hne].
    + rewrite lookup_insert_eq. reflexivity.
    + rewrite lookup_insert_ne by congruence. reflexivity.
  - split; [|split; reflexivity].
    intros other Hne. simpl. apply lookup_insert_ne. congruence.
Qed.

(** X7. The key [save_api_key] stores is the one [translate_text] hands to
    the provider.  With a non-blank source: a blank input saved for Groq,
    Gemini or DeepL makes the translation stop with that service's
    message and no call; a non-blank input saved for Gemini or DeepL makes
    the translation add exactly one call, which carries the stripped
    input as its key. *)
Theorem saved_key_reaches_provider (env : Backends) (api_key_input : string) (st : App) :
  source_text_of st <> "" ->
  let key := strip api_key_input in
  let st' := exec (save_api_key api_key_input >> translate_text env) st in
  (forall msg, (translator_combo (ui st), msg) ∈ key_services -> key = "" ->
     calls (world st') = calls (world st) /\
     toPlainText (pane (target_side st) st') = "翻譯錯誤: " +:+ msg) /\
  (translator_combo (ui st) = Gemini_service -> key <> "" ->
     calls (world st') = calls (world st) ++
       [Gemini_generate_content key "gemini-1.5-pro-latest"
          (gemini_prompt (src_lang_name_of st) (dest_lang_name_of st) (source_text_of st))]) /\
  (translator_combo (ui st) = DeepL_service -> key <> "" ->
     calls (world st') = calls (world st) ++
       [DeepL_translate_text key (source_text_of st)
          (deepl (get_lang_code (src_lang_name_of st)))
          (deepl (get_lang_code (dest_lang_name_of st)))]).
Proof.
  intros Hsrc key st'. subst st'. unfold exec.
  rewrite (bind_returned _ _ _ _ _ (save_api_key_run api_key_input st)).
  set (st1 := set_world _ _).
  assert (Hsrc1 : source_text_of st1 <> "") by exact Hsrc.
  assert (Hlook : api_keys st1 !! translator_combo (ui st1) = Some key)
    by (subst st1; simpl; apply lookup_insert_eq).
  pose proof (provider_translate_frame env (translator_combo (ui st1))
                (src_lang_name_of st1) (dest_lang_name_of st1) (source_text_of st1)
                (set_last_source_text (source_text_of st1) st1)) as (Hdir & _).
  split; [|split].
  - intros msg Hin Hblank.
    rewrite (translate_text_refused env (mkExn ValueError msg) st1 Hsrc1).
    + simpl snd. change (target_side st) with (target_side st1). rewrite pane_with_text.
      split; [|reflexivity].
      unfold with_text. destruct (target_side st1); reflexivity.
    + apply provider_translate_without_key; [exact Hin|].
      change (api_keys (set_last_source_text (source_text_of st1) st1)) with (api_keys st1).
      rewrite Hlook. exact Hblank.
  - intros Hservice Hkey.
    rewrite (translate_text_run env st1 Hsrc1 Hdir).
    change (translator_combo (ui st1)) with (translator_combo (ui st)) in *.
    rewrite Hservice in *.
    rewrite (provider_translate_Gemini env _ _ _ key) by assumption.
    rewrite call_run. simpl snd.
    unfold with_text. destruct (target_side st1); reflexivity.
  - intros Hservice Hkey.
    rewrite (translate_text_run env st1 Hsrc1 Hdir).
    change (translator_combo (ui st1)) with (translator_combo (ui st)) in *.
    rewrite Hservice in *.
    rewrite (provider_translate_DeepL env _ _ _ key) by assumption.
    rewrite call_run. simpl snd.
    unfold with_text. destruct (target_side st1); reflexivity.
Qed.

(** X14. Started with any saved keys, any stored examples and any files,
    after any sequence of events both [textChanged] signals are connected,
    both language combos show one of their three items, exactly the target
    pane is read-only, the tracked temporary files are pairwise distinct
    and on disk, and the stored examples are at most 10, or at most as
    many as the settings held at start-up when they held more: nothing
    checks the stored list when the program starts, and every accepted
    [save_correction] cuts it to 10. *)
Theorem reachable_state_is_consistent (env : Backends) (evs : list Event)
    (keys : gmap string string) (examples : list Example) (files : gmap string File) :
  let st := run_events env evs (init_app keys examples files) in
  textChanged_connected (left_text (ui st)) = true /\
  textChanged_connected (right_text (ui st)) = true /\
  0 <= left_lang_combo (ui st) < 3 /\
  0 <= right_lang_combo (ui st) < 3 /\
  isReadOnly (left_text (ui st)) = negb (translate_left_to_right st) /\
  isReadOnly (right_text (ui st)) = translate_left_to_right st /\
  (length (translation_examples st) <= Nat.max 10 (length examples))%nat /\
  NoDup (temp_files st) /\
  (forall p, p ∈ temp_files st -> is_Some (disk (world st) !! p)).
Proof.
  intros st.
  destruct (run_events_invariant env (length examples) evs _
              (init_app_invariant keys examples files))
    as ((H1 & H2 & H3 & H4 & H5 & H6) & H7 & H8 & H9).
  fold st in H1, H2, H3, H4, H5, H6, H7, H8, H9.
  repeat split; try assumption; first [apply H3|apply H4].
Qed.

(* ===================================================================== *)
(** ** The speech methods of v1.0: facts                                 *)
(* ===================================================================== *)

Lemma unlink_if_exists_cases (p : string) (st : App) :
  (deletable (disk (world st)) p = true /\
   V10.unlink_if_exists p st = (Returned tt, set_disk_of (delete p) st)) \/
  (held (disk (world st)) p = true /\
   exists e, V10.unlink_if_exists p st = (Raised e, st) /\ is_OSError (exn_class e) = true) \/
  (disk (world st) !! p = None /\ V10.unlink_if_exists p st = (Returned tt, st)).
Proof.
  unfold V10.unlink_if_exists, bind, get, deletable, held.
  destruct (disk (world st) !! p) as [f|] eqn:Hf.
  - rewrite bool_decide_eq_true_2 by (eexists; reflexivity).
    destruct (locked f) eqn:Hl.
    + right. left. split; [reflexivity|].
      destruct (os_unlink_fails p st) as (e & Hrun & Hos).
      { unfold deletable. rewrite Hf, Hl. reflexivity. }
      exists e. split; assumption.
    + left. split; [reflexivity|]. apply os_unlink_deletable.
      unfold deletable. rewrite Hf, Hl. reflexivity.
  - right. right. split; [reflexivity|].
    rewrite bool_decide_eq_false_2; [reflexivity|]. intros [f Hf']. discriminate.
Qed.

Lemma held_not_deletable (d : gmap string File) (p : string) :
  held d p = true -> deletable d p = false.
Proof. unfold held, deletable. destruct (d !! p) as [f|]; [intros ->; reflexivity|discriminate]. Qed.

Lemma V10_stop_audio_playing (p : string) (st : App) :
  playing (player st) = true ->
  current_playing_file st = Some p -> p <> "" ->
  V10.stop_audio st =
    (Returned tt,
     set_current_playing_file None
       (set_single_shots (single_shots st ++ [(100, cleanup_current_playing_file)])
          (set_player {| playing := false; media_source := media_source (player st) |} st))).
Proof.
  intros Hplay Hcur Hp. apply is_empty_false in Hp.
  unfold V10.stop_audio, bind at 1, get at 1. rewrite Hplay.
  unfold bind at 1, modify at 1. rewrite Hcur, Hp. reflexivity.
Qed.

(** X15. In v1.0, [stop_audio] while [p] plays schedules
    [cleanup_single_file(self.current_playing_file)] and then sets
    [current_playing_file] to [None].  The lambda reads the attribute when
    it fires, so it cleans up [None]: the single shot returns with the
    state unchanged, and [p] is on disk and tracked as before the stop. *)
Theorem V10_stop_audio_deletes_nothing (p : string) (st : App) :
  playing (player st) = true ->
  current_playing_file st = Some p -> p <> "" ->
  let stopped := exec V10.stop_audio st in
  single_shots stopped = single_shots st ++ [(100, cleanup_current_playing_file)] /\
  current_playing_file stopped = None /\
  V10.run_deferred cleanup_current_playing_file stopped = (Returned tt, stopped) /\
  disk (world stopped) = disk (world st) /\
  temp_files stopped = temp_files st.
Proof.
  intros Hplay Hcur Hp. cbv zeta. unfold exec.
  rewrite (V10_stop_audio_playing p st Hplay Hcur Hp). simpl. repeat split.
Qed.

Lemma remove_last {A} `{EqDecision A} (x : A) (l : list A) :
  x ∉ l -> Py.remove x (l ++ [x]) = Some l.
Proof.
  induction l as [|y l IH]; intros Hx; simpl.
  - rewrite decide_True by reflexivity. reflexivity.
  - rewrite decide_False by (intros ->; apply Hx; left).
    rewrite IH; [reflexivity|]. intros H. apply Hx. right. exact H.
Qed.

(** One branch of [text_to_speech] of v1.0 whose back end returns. *)
Lemma V10_save_to_temp_file_succeeds (env : Backends) (request : string -> Call)
    (n : Z) (st : App) :
  let name := mkstemp env (disk (world st)) in
  disk (world st) !! name = None -> name <> "" ->
  synthesized env (calls (world st)) (request name) = (n, None) ->
  V10.save_to_temp_file env request st =
    (Returned (Some name),
     set_temp_files (temp_files st ++ [name])
       (set_disk_of (insert name (mkFile (Z.max 0 n) false))
          (with_calls [request name] st))).
Proof.
  intros name Hfresh Hname Hsyn. unfold V10.save_to_temp_file.
  assert (E1 : try_except (let! name := NamedTemporaryFile env in ret (inl name))
                 is_Exception
                 (fun e => let! r := V10.text_to_speech_except None e in ret (inr r)) st
               = (Returned (inl name), set_disk_of (insert name (mkFile 0 false)) st)).
  { apply try_except_returned.
    rewrite (bind_returned _ _ _ _ _ (NamedTemporaryFile_fresh env st Hfresh)).
    reflexivity. }
  rewrite (bind_returned _ _ _ _ _ E1).
  apply is_empty_false in Hname. rewrite Hname.
  apply try_except_returned.
  rewrite (bind_returned _ _ _ _ _
             (synthesize_succeeds env (request name) name n
                (set_disk_of (insert name (mkFile 0 false)) st) Hsyn)).
  unfold bind, modify, ret. f_equal.
  unfold set_disk_of, with_calls, set_temp_files. simpl.
  rewrite insert_insert_eq. reflexivity.
Qed.

(** One branch of [text_to_speech] of v1.0 whose back end raises: the file
    that was created is unlinked again. *)
Lemma V10_save_to_temp_file_fails (env : Backends) (request : string -> Call)
    (n : Z) (e : Exn) (st : App) :
  let name := mkstemp env (disk (world st)) in
  disk (world st) !! name = None -> name <> "" ->
  synthesized env (calls (world st)) (request name) = (n, Some e) ->
  V10.save_to_temp_file env request st =
    (Returned None, printed ("TTS 錯誤: " +:+ exn_str e) (with_calls [request name] st)).
Proof.
  intros name Hfresh Hname Hsyn. unfold V10.save_to_temp_file.
  assert (E1 : try_except (let! name := NamedTemporaryFile env in ret (inl name))
                 is_Exception
                 (fun e => let! r := V10.text_to_speech_except None e in ret (inr r)) st
               = (Returned (inl name), set_disk_of (insert name (mkFile 0 false)) st)).
  { apply try_except_returned.
    rewrite (bind_returned _ _ _ _ _ (NamedTemporaryFile_fresh env st Hfresh)).
    reflexivity. }
  rewrite (bind_returned _ _ _ _ _ E1).
  apply is_empty_false in Hname.
  unfold try_except at 1. unfold bind at 1. unfold synthesize at 1.
  cbn [world set_disk_of set_world calls set_disk]. rewrite Hsyn. simpl is_Exception. cbv iota.
  unfold V10.text_to_speech_except.
  unfold bind at 1. unfold bind at 1. rewrite print_run.
  unfold bind at 1, get at 1. rewrite Hname. simpl negb.
  rewrite bool_decide_eq_true_2
    by (simpl; rewrite lookup_insert_eq; eexists; reflexivity).
  unfold is_Exception. cbn [negb andb]. cbv iota.
  unfold try_except. rewrite os_unlink_deletable
    by (unfold deletable; simpl; rewrite lookup_insert_eq; reflexivity).
  unfold ret. f_equal.
  unfold printed, set_disk_of, with_calls. simpl.
  rewrite insert_insert_eq, delete_insert_eq, delete_id by exact Hfresh.
  destruct st as [? ? ? ? ? ? ? ? ? ? [? ? ? ?] ?]. reflexivity.
Qed.

Lemma V10_text_to_speech_dispatch (env : Backends) (text : string) (codes : LangCodes)
    (st : App) :
  text <> "" ->
  voice_combo (ui st) = "Edge TTS" \/ voice_combo (ui st) = "Google TTS" \/
  voice_combo (ui st) = "System TTS (pyttsx3)" ->
  exists request,
    V10.text_to_speech env text codes st = V10.save_to_temp_file env request st.
Proof.
  intros Htext Hservice. apply is_empty_false in Htext.
  unfold V10.text_to_speech. rewrite Htext. unfold bind at 1, get at 1.
  destruct Hservice as [H|[H|H]]; rewrite H; cbn [String.eqb Ascii.eqb Bool.eqb];
    eexists; reflexivity.
Qed.

(** X17. In v1.0, when the speech service raises after the temporary file
    was created, [speak_text] returns and the file is gone again: disk,
    [temp_files], the current playing file and the player are as before;
    "TTS 錯誤: " with the exception is printed and the warning
    "無法生成語音文件。" is shown. *)
Theorem V10_failed_synthesis_removes_temp_file (env : Backends) (text : string)
    (codes : LangCodes) (n : Z) (e : Exn) (st : App) :
  text <> "" ->
  voice_combo (ui st) = "Edge TTS" \/ voice_combo (ui st) = "Google TTS" \/
  voice_combo (ui st) = "System TTS (pyttsx3)" ->
  mkstemp env (disk (world st)) <> "" ->
  disk (world st) !! mkstemp env (disk (world st)) = None ->
  (forall history c, synthesized env history c = (n, Some e)) ->
  let st' := exec (V10.speak_text env text codes) st in
  outcome (V10.speak_text env text codes) st = Returned tt /\
  disk (world st') = disk (world st) /\
  temp_files st' = temp_files st /\
  current_playing_file st' = current_playing_file st /\
  player st' = player st /\
  stdout (world st') = stdout (world st) ++ ["TTS 錯誤: " +:+ exn_str e] /\
  dialogs (world st') = dialogs (world st) ++ [mkDialog Warning "錯誤" "無法生成語音文件。"].
Proof.
  intros Htext Hservice Hname Hfresh Hsyn. cbv zeta.
  destruct (V10_text_to_speech_dispatch env text codes st Htext Hservice) as (request & E).
  rewrite (V10_save_to_temp_file_fails env request n e st Hfresh Hname (Hsyn _ _)) in E.
  apply is_empty_false in Htext.
  unfold outcome, exec, V10.speak_text. rewrite Htext.
  rewrite !(bind_returned _ _ _ _ _ E). simpl. repeat split.
Qed.

(** X16. In v1.0, a click on a speak button while [p] plays makes the
    single shot of [stop_audio] clean up the new file instead of [p]:
    [handle_speak_button] makes the new file the current one before the
    single shot reads [current_playing_file].  When the single shot fires
    and the media back end does not hold the new file open, that file is
    unlinked and untracked while it is the current file and the source of
    the player: disk and [temp_files] are those of before the click.  When
    the back end holds it open, [os.unlink] raises [PermissionError], the
    error is printed, and the new file stays on disk and tracked.  Either
    way the single shot returns and the old file [p] is left as it was. *)
Theorem V10_restart_unlinks_new_file (env : Backends) (text : string)
    (codes : LangCodes) (n : Z) (p : string) (hold : bool) (st : App) :
  playing (player st) = true ->
  current_playing_file st = Some p -> p <> "" ->
  text <> "" ->
  voice_combo (ui st) = "Edge TTS" \/ voice_combo (ui st) = "Google TTS" \/
  voice_combo (ui st) = "System TTS (pyttsx3)" ->
  mkstemp env (disk (world st)) <> "" ->
  disk (world st) !! mkstemp env (disk (world st)) = None ->
  (mkstemp env (disk (world st)) ∉ temp_files st) ->
  (forall history c, synthesized env history c = (n, None)) ->
  let name := mkstemp env (disk (world st)) in
  let restarted := exec (V10.handle_speak_button env text codes) st in
  let playing_new := exec (on_event env (BackendHolds name hold)) restarted in
  let st' := exec (V10.run_deferred cleanup_current_playing_file) playing_new in
  single_shots restarted = single_shots st ++ [(100, cleanup_current_playing_file)] /\
  current_playing_file restarted = Some name /\
  player restarted = {| playing := true; media_source := Some name |} /\
  disk (world restarted) !! name = Some (mkFile (Z.max 0 n) false) /\
  temp_files restarted = temp_files st ++ [name] /\
  outcome (V10.run_deferred cleanup_current_playing_file) playing_new = Returned tt /\
  current_playing_file st' = Some name /\
  player st' = {| playing := true; media_source := Some name |} /\
  (hold = false ->
     disk (world st') = disk (world st) /\
     temp_files st' = temp_files st /\
     stdout (world st') = stdout (world st)) /\
  (hold = true ->
     disk (world st') = <[name := mkFile (Z.max 0 n) true]> (disk (world st)) /\
     temp_files st' = temp_files st ++ [name] /\
     exists e,
       os_unlink name playing_new = (Raised e, playing_new) /\
       exn_class e = PermissionError /\
       stdout (world st') =
         stdout (world st) ++ ["清理文件 " +:+ name +:+ " 時出錯: " +:+ exn_str e]).
Proof.
  intros Hplay Hcur Hp Htext Hservice Hname Hfresh Huntracked Hsyn name restarted
    playing_new st'.
  pose proof (V10_stop_audio_playing p st Hplay Hcur Hp) as E0.
  set (st0 := set_current_playing_file None _) in E0.
  destruct (V10_text_to_speech_dispatch env text codes st0 Htext Hservice) as (request & E1).
  rewrite (V10_save_to_temp_file_succeeds env request n st0 Hfresh Hname (Hsyn _ _)) in E1.
  change (mkstemp env (disk (world st0))) with name in E1.
  set (st1 := set_temp_files _ _) in E1.
  assert (E2 : V10.handle_speak_button env text codes st =
               (Returned tt,
                set_player {| playing := true; media_source := Some name |}
                  (set_current_playing_file (Some name) st1))).
  { unfold V10.handle_speak_button. rewrite (bind_returned _ _ _ _ _ E0).
    unfold V10.speak_text. apply is_empty_false in Htext. rewrite Htext.
    rewrite (bind_returned _ _ _ _ _ E1).
    apply is_empty_false in Hname. fold name in Hname. rewrite Hname. reflexivity. }
  assert (Er : restarted = set_player {| playing := true; media_source := Some name |}
                             (set_current_playing_file (Some name) st1))
    by (subst restarted; unfold exec; rewrite E2; reflexivity).
  clearbody restarted. subst restarted.
  set (restarted := set_player {| playing := true; media_source := Some name |}
                      (set_current_playing_file (Some name) st1)) in *.
  assert (Ep : playing_new =
               set_disk_of (insert name (mkFile (Z.max 0 n) hold)) restarted).
  { subst playing_new. unfold exec, restarted. simpl. unfold set_disk_of. simpl.
    rewrite alter_insert_eq, insert_insert_eq. reflexivity. }
  clearbody playing_new. subst playing_new.
  set (playing_new := set_disk_of _ restarted) in *.
  assert (Hfile : disk (world playing_new) !! name = Some (mkFile (Z.max 0 n) hold))
    by (simpl; apply lookup_insert_eq).
  assert (Htracked : temp_files playing_new = temp_files st ++ [name]) by reflexivity.
  assert (Hne : is_empty name = false) by (apply is_empty_false; exact Hname).
  assert (E3 : V10.run_deferred cleanup_current_playing_file playing_new =
               try_except
                 (os_unlink name >>
                  let! s := get in
                  if contains name (temp_files s) then temp_files_remove name else pass)
                 is_OSError
                 (fun e => print ("清理文件 " +:+ name +:+ " 時出錯: " +:+ exn_str e))
                 playing_new).
  { unfold V10.run_deferred, bind at 1, get at 1.
    change (current_playing_file playing_new) with (Some name).
    unfold V10.cleanup_single_file, bind at 1, get at 1.
    rewrite Hne, bool_decide_eq_true_2 by (rewrite Hfile; eexists; reflexivity).
    reflexivity. }
  destruct hold.
  - assert (Hdel : deletable (disk (world playing_new)) name = false)
      by (unfold deletable; rewrite Hfile; reflexivity).
    destruct (os_unlink_fails name playing_new Hdel) as (e & Hrun & Hos).
    assert (Hclass : exn_class e = PermissionError).
    { revert Hrun. unfold os_unlink, bind, get, raise. rewrite Hfile. simpl.
      intros H. injection H as <-. reflexivity. }
    assert (E4 : V10.run_deferred cleanup_current_playing_file playing_new =
                 (Returned tt,
                  printed ("清理文件 " +:+ name +:+ " 時出錯: " +:+ exn_str e) playing_new)).
    { rewrite E3. unfold try_except, bind at 1. rewrite Hrun, Hos. apply print_run. }
    subst st'. unfold outcome, exec. rewrite E4. simpl.
    repeat split; try discriminate.
    + rewrite lookup_insert_eq. reflexivity.
    + rewrite insert_insert_eq. reflexivity.
    + exists e. repeat split; assumption.
  - assert (Hdel : deletable (disk (world playing_new)) name = true)
      by (unfold deletable; rewrite Hfile; reflexivity).
    assert (E4 : V10.run_deferred cleanup_current_playing_file playing_new =
                 (Returned tt,
                  set_temp_files (temp_files st) (set_disk_of (delete name) playing_new))).
    { rewrite E3. unfold try_except.
      rewrite (bind_returned _ _ _ _ _ (os_unlink_deletable name _ Hdel)).
      unfold bind at 1, get at 1.
      replace (contains name _) with true
        by (symmetry; apply contains_true; simpl; apply elem_of_app; right; left).
      unfold temp_files_remove, bind, get. simpl temp_files.
      rewrite (remove_last name (temp_files st) Huntracked). reflexivity. }
    subst st'. unfold outcome, exec. rewrite E4. simpl.
    repeat split; try discriminate.
    + rewrite lookup_insert_eq. reflexivity.
    + rewrite insert_insert_eq, delete_insert_eq, delete_id by exact Hfresh. reflexivity.
Qed.

Lemma temp_files_remove_tracked (p : string) (st : App) :
  p ∈ temp_files st -> NoDup (temp_files st) ->
  temp_files_remove p st =
    (Returned tt, set_temp_files (filter (fun q => q <> p) (temp_files st)) st).
Proof.
  intros Hin Hnd. unfold temp_files_remove, bind, get.
  rewrite (remove_elem_of p _ Hin Hnd). reflexivity.
Qed.

(** One round of the loop of [cleanup_temp_files] of v1.0, for a tracked
    path that is not the current one. *)
Lemma V10_sweep_step (p : string) (st : App) :
  p ∈ temp_files st -> NoDup (temp_files st) ->
  exists st1,
    try_except (V10.unlink_if_exists p >> temp_files_remove p) is_OSError
      (fun e => print ("定期清理時出錯: " +:+ exn_str e)) st = (Returned tt, st1) /\
    temp_files st1 =
      (if held (disk (world st)) p then temp_files st
       else filter (fun q => q <> p) (temp_files st)) /\
    disk (world st1) =
      (if deletable (disk (world st)) p then delete p (disk (world st))
       else disk (world st)) /\
    current_playing_file st1 = current_playing_file st.
Proof.
  intros Hin Hnd. unfold try_except.
  destruct (unlink_if_exists_cases p st) as [(Hd & E)|[(Hh & e & E & Hos)|(Hnone & E)]].
  - rewrite (bind_returned _ _ _ _ _ E).
    rewrite temp_files_remove_tracked by assumption.
    eexists. split; [reflexivity|]. simpl. rewrite Hd.
    replace (held (disk (world st)) p) with false; [repeat split|].
    unfold deletable in Hd. unfold held.
    destruct (disk (world st) !! p) as [f|]; [|reflexivity].
    apply negb_true_iff in Hd. congruence.
  - unfold bind at 1. rewrite E, Hos. rewrite print_run.
    eexists. split; [reflexivity|]. simpl.
    rewrite Hh, (held_not_deletable _ _ Hh). repeat split.
  - rewrite (bind_returned _ _ _ _ _ E).
    rewrite temp_files_remove_tracked by assumption.
    eexists. split; [reflexivity|]. simpl.
    unfold held, deletable. rewrite Hnone. repeat split.
Qed.

Lemma held_delete_ne (d : gmap string File) (p q : string) :
  q <> p -> held (delete p d) q = held d q.
Proof. intros H. unfold held. rewrite lookup_delete_ne by congruence. reflexivity. Qed.

(** The loop of [cleanup_temp_files] of v1.0 over the paths [todo], all
    tracked and pairwise distinct. *)
Lemma V10_sweep_loop (todo : list string) : forall st : App,
  NoDup todo -> NoDup (temp_files st) ->
  (forall p, p ∈ todo -> p ∈ temp_files st) ->
  exists st',
    for_each todo (fun temp_file =>
      let! st := get in
      if bool_decide (Some temp_file <> current_playing_file st) then
        try_except
          (V10.unlink_if_exists temp_file >> temp_files_remove temp_file)
          is_OSError
          (fun e => print ("定期清理時出錯: " +:+ exn_str e))
      else pass) st = (Returned tt, st') /\
    temp_files st' =
      filter (fun q => ~ (q ∈ todo /\ Some q <> current_playing_file st /\
                          held (disk (world st)) q = false))
             (temp_files st) /\
    (forall q, disk (world st') !! q =
       if bool_decide (q ∈ todo) && bool_decide (Some q <> current_playing_file st)
          && deletable (disk (world st)) q
       then None else disk (world st) !! q) /\
    current_playing_file st' = current_playing_file st.
Proof.
  induction todo as [|p todo IH]; intros st Hnd Hndt Hsub.
  - exists st. simpl. split; [reflexivity|]. split; [|split]; try reflexivity.
    symmetry. apply filter_all. intros q _ [Hq _]. inversion Hq.
  - apply NoDup_cons in Hnd as [Hp Hnd].
    assert (Hin : p ∈ temp_files st) by (apply Hsub; left).
    simpl for_each. unfold bind at 1. unfold bind at 1, get at 1.
    destruct (decide (Some p <> current_playing_file st)) as [Hcur|Hcur].
    + rewrite (bool_decide_eq_true_2 _ Hcur).
      destruct (V10_sweep_step p st Hin Hndt) as (st1 & E & Htf1 & Hd1 & Hc1).
      rewrite E.
      destruct (IH st1 Hnd) as (st' & Hrun & Htf & Hdisk & Hc).
      { rewrite Htf1. destruct (held (disk (world st)) p); [exact Hndt|].
        apply NoDup_filter. exact Hndt. }
      { intros q Hq. rewrite Htf1.
        destruct (held (disk (world st)) p); [apply Hsub; right; exact Hq|].
        apply list_elem_of_filter. split; [intros ->; contradiction|].
        apply Hsub. right. exact Hq. }
      exists st'. split; [exact Hrun|]. split; [|split].
      * rewrite Htf, Htf1, Hc1, Hd1.
        destruct (held (disk (world st)) p) eqn:Hh.
        -- rewrite (held_not_deletable _ _ Hh).
           apply filter_ext_in. intros q Hq. split.
           ++ intros H (Hq' & Hqc & Hqh). apply H.
              apply elem_of_cons in Hq' as [->|Hq']; [congruence|]. repeat split; assumption.
           ++ intros H (Hq' & Hqc & Hqh). apply H. split; [right; exact Hq'|]. split; assumption.
        -- rewrite list_filter_filter. apply filter_ext_in. intros q Hq. split.
           ++ intros [H Hne] (Hq' & Hqc & Hqh). apply H.
              apply elem_of_cons in Hq' as [->|Hq']; [contradiction|].
              split; [exact Hq'|]. split; [exact Hqc|].
              destruct (deletable (disk (world st)) p); [|exact Hqh].
              rewrite held_delete_ne by exact Hne. exact Hqh.
           ++ intros H. split.
              ** intros (Hq' & Hqc & Hqh). apply H. split; [right; exact Hq'|].
                 split; [exact Hqc|].
                 destruct (decide (q = p)) as [->|Hne]; [exact Hh|].
                 destruct (deletable (disk (world st)) p); [|exact Hqh].
                 rewrite held_delete_ne in Hqh by exact Hne. exact Hqh.
              ** intros ->. apply H. split; [left|]. split; assumption.
      * intros q. rewrite Hdisk, Hc1, Hd1.
        destruct (decide (q = p)) as [->|Hne].
        -- rewrite (bool_decide_eq_true_2 (p ∈ p :: todo)) by left.
           rewrite (bool_decide_eq_false_2 (p ∈ todo)) by exact Hp.
           rewrite (bool_decide_eq_true_2 _ Hcur). simpl.
           destruct (deletable (disk (world st)) p) eqn:Hd; [|reflexivity].
           apply lookup_delete_eq.
        -- assert (Hb : bool_decide (q ∈ p :: todo) = bool_decide (q ∈ todo)).
           { apply bool_decide_ext. rewrite elem_of_cons. tauto. }
           rewrite Hb.
           destruct (deletable (disk (world st)) p) eqn:Hd; [|reflexivity].
           rewrite deletable_delete_ne by exact Hne.
           rewrite lookup_delete_ne by congruence. reflexivity.
      * congruence.
    + rewrite (bool_decide_eq_false_2 _ Hcur). unfold pass at 1, ret at 1.
      destruct (IH st Hnd Hndt) as (st' & Hrun & Htf & Hdisk & Hc).
      { intros q Hq. apply Hsub. right. exact Hq. }
      exists st'. split; [exact Hrun|]. split; [|split; [|exact Hc]].
      * rewrite Htf. apply filter_ext_in. intros q Hq. split.
        -- intros H (Hq' & Hqc & Hqh). apply H.
           apply elem_of_cons in Hq' as [->|Hq']; [contradiction|]. repeat split; assumption.
        -- intros H (Hq' & Hqc & Hqh). apply H. split; [right; exact Hq'|]. split; assumption.
      * intros q. rewrite Hdisk.
        destruct (decide (q = p)) as [->|Hne].
        -- rewrite (bool_decide_eq_false_2 (Some p <> current_playing_file st)) by exact Hcur.
           rewrite !andb_false_r. reflexivity.
        -- assert (Hb : bool_decide (q ∈ p :: todo) = bool_decide (q ∈ todo)).
           { apply bool_decide_ext. rewrite elem_of_cons. tauto. }
           rewrite Hb. reflexivity.
Qed.

(** X18. In v1.0, [cleanup_temp_files] with pairwise distinct tracked paths
    returns and spares the current playing file: what stays tracked are
    the current file and the files the back end holds open, in their
    order; every other tracked file that can be unlinked is gone from the
    disk; the current file, and every path that is not tracked, is on
    disk as before. *)
Theorem V10_cleanup_temp_files_spares_current (st : App) :
  NoDup (temp_files st) ->
  let st' := exec V10.cleanup_temp_files st in
  let swept p := Some p <> current_playing_file st in
  outcome V10.cleanup_temp_files st = Returned tt /\
  temp_files st' =
    filter (fun p => ~ swept p \/ held (disk (world st)) p = true) (temp_files st) /\
  (forall p, p ∈ temp_files st -> swept p -> deletable (disk (world st)) p = true ->
     disk (world st') !! p = None) /\
  (forall p, ~ swept p -> disk (world st') !! p = disk (world st) !! p) /\
  (forall p, p ∉ temp_files st -> disk (world st') !! p = disk (world st) !! p) /\
  current_playing_file st' = current_playing_file st.
Proof.
  intros Hnd. cbv zeta.
  destruct (V10_sweep_loop (temp_files st) st Hnd Hnd) as (st' & E & Htf & Hdisk & Hc);
    [auto|].
  assert (Erun : V10.cleanup_temp_files st = (Returned tt, st')) by exact E.
  unfold outcome, exec. rewrite Erun. simpl. split; [reflexivity|]. split; [|split; [|split; [|split]]].
  - rewrite Htf. apply filter_ext_in. intros p Hp. split.
    + intros H. destruct (decide (Some p <> current_playing_file st)) as [Hs|Hs];
        [|left; exact Hs].
      right. destruct (held (disk (world st)) p) eqn:Hh; [reflexivity|].
      exfalso. apply H. repeat split; assumption.
    + intros [H|H] (_ & Hs & Hh); [contradiction|congruence].
  - intros p Hp Hs Hd. rewrite Hdisk.
    rewrite (bool_decide_eq_true_2 _ Hp), (bool_decide_eq_true_2 _ Hs), Hd. reflexivity.
  - intros p Hs. rewrite Hdisk. rewrite (bool_decide_eq_false_2 _ Hs).
    rewrite andb_false_r. reflexivity.
  - intros p Hp. rewrite Hdisk. rewrite (bool_decide_eq_false_2 _ Hp). reflexivity.
  - exact Hc.
Qed.

Lemma remove_if_tracked (p : string) (st : App) :
  NoDup (temp_files st) ->
  (let! st := get in
   if contains p (temp_files st) then temp_files_remove p else pass) st =
    (Returned tt, set_temp_files (filter (fun q => q <> p) (temp_files st)) st).
Proof.
  intros Hnd. unfold bind at 1, get at 1.
  destruct (decide (p ∈ temp_files st)) as [Hin|Hout].
  - apply contains_true in Hin as Hc. rewrite Hc.
    apply temp_files_remove_tracked; assumption.
  - apply contains_false in Hout as Hc. rewrite Hc. unfold pass, ret. f_equal.
    rewrite filter_all; [destruct st; reflexivity|].
    intros q Hq ->. contradiction.
Qed.

(** X19. In v1.0, when the media ends with [p] as the current playing file
    and the tracked paths pairwise distinct, the slot returns with no
    current file; [p] is unlinked if it is on disk and not held open, and
    it is untracked unless the unlink failed, also when it was not on
    disk. *)
Theorem V10_end_of_media_forgets_current_file (p : string) (st : App) :
  current_playing_file st = Some p -> p <> "" ->
  NoDup (temp_files st) ->
  let st' := exec V10.handle_end_of_media st in
  outcome V10.handle_end_of_media st = Returned tt /\
  current_playing_file st' = None /\
  temp_files st' =
    (if held (disk (world st)) p then temp_files st
     else filter (fun q => q <> p) (temp_files st)) /\
  disk (world st') =
    (if deletable (disk (world st)) p then delete p (disk (world st))
     else disk (world st)).
Proof.
  intros Hcur Hp Hnd. cbv zeta. apply is_empty_false in Hp.
  assert (Erun : V10.handle_end_of_media st =
            V10.try_finally
              (try_except
                 (V10.unlink_if_exists p >>
                  let! st := get in
                  if contains p (temp_files st) then temp_files_remove p else pass)
                 is_OSError
                 (fun e => print ("清理臨時文件時出錯: " +:+ exn_str e)))
              (modify (set_current_playing_file None)) st).
  { unfold V10.handle_end_of_media, bind at 1, get at 1. rewrite Hcur, Hp. reflexivity. }
  unfold outcome, exec. rewrite Erun. clear Erun.
  unfold V10.try_finally, try_except.
  destruct (unlink_if_exists_cases p st) as [(Hd & E)|[(Hh & e & E & Hos)|(Hnone & E)]].
  - rewrite (bind_returned _ _ _ _ _ E).
    rewrite remove_if_tracked by exact Hnd. simpl. rewrite Hd.
    replace (held (disk (world st)) p) with false; [repeat split|].
    unfold deletable in Hd. unfold held.
    destruct (disk (world st) !! p) as [f|]; [|reflexivity].
    apply negb_true_iff in Hd. congruence.
  - unfold bind at 1 3 5 7. rewrite E, Hos. simpl.
    rewrite Hh, (held_not_deletable _ _ Hh). repeat split.
  - rewrite (bind_returned _ _ _ _ _ E).
    rewrite remove_if_tracked by exact Hnd. simpl.
    unfold held, deletable. rewrite Hnone. repeat split.
Qed.

(* ===================================================================== *)
(** ** The voices of Edge TTS: facts                                     *)
(* ===================================================================== *)

Lemma voices_of_append (a b c x g r s : string) (catalog : Catalog) :
  voices_of (catalog_append a b c x catalog) g r s =
    voices_of catalog g r s ++ (if decide ((a, b, c) = (g, r, s)) then [x] else []).
Proof.
  unfold voices_of, catalog_append. cbv zeta.
  destruct (decide (a = g)) as [->|Hg].
  2:{ rewrite lookup_insert_ne by exact Hg.
      rewrite decide_False by congruence. rewrite app_nil_r. reflexivity. }
  rewrite lookup_insert_eq. simpl.
  destruct (decide (b = r)) as [->|Hr].
  2:{ rewrite lookup_insert_ne by exact Hr.
      rewrite decide_False by congruence. rewrite app_nil_r. reflexivity. }
  rewrite lookup_insert_eq. simpl.
  destruct (decide (c = s)) as [->|Hs].
  2:{ rewrite lookup_insert_ne by exact Hs.
      rewrite decide_False by congruence. rewrite app_nil_r. reflexivity. }
  rewrite lookup_insert_eq. simpl. rewrite decide_True by reflexivity. reflexivity.
Qed.

Lemma file_voices_lists (voices : list Voice) : forall (catalog catalog' : Catalog),
  file_voices voices catalog = Some catalog' ->
  forall g r s,
    voices_of catalog' g r s =
      voices_of catalog g r s ++
      (ShortName <$> filter (fun v => catalog_keys v = Some (g, r, s)) voices).
Proof.
  induction voices as [|v voices IH]; intros catalog catalog' H g r s; simpl in H.
  - injection H as <-. rewrite app_nil_r. reflexivity.
  - destruct (catalog_keys v) as [[[a b] c]|] eqn:Hk; [|discriminate].
    rewrite (IH _ _ H), voices_of_append, <- app_assoc. f_equal.
    destruct (decide ((a, b, c) = (g, r, s))) as [E|E].
    + rewrite filter_cons_True by (rewrite Hk, E; reflexivity). reflexivity.
    + rewrite filter_cons_False by (rewrite Hk; congruence). reflexivity.
Qed.

Lemma file_voices_Some (voices : list Voice) : forall catalog : Catalog,
  is_Some (file_voices voices catalog) <->
  Forall (fun v => is_Some (catalog_keys v)) voices.
Proof.
  induction voices as [|v voices IH]; intros catalog; simpl.
  - split; [constructor|eauto].
  - destruct (catalog_keys v) as [[[a b] c]|] eqn:Hk.
    + rewrite IH. split.
      * intros H. constructor; [eauto|exact H].
      * intros H. inversion H. assumption.
    + split; [intros [? ?]; discriminate|].
      intros H. apply Forall_cons in H as [[x Hx] _]. congruence.
Qed.

(** [locale_parts[1]] exists exactly when the locale holds a hyphen. *)
Lemma catalog_keys_Some (voice : Voice) :
  is_Some (catalog_keys voice) <-> exists a b, Locale voice = a +:+ "-" +:+ b.
Proof.
  unfold catalog_keys.
  assert (H : forall s,
    (exists x y rest, str_split "-" s = x :: y :: rest) <-> exists a b, s = a +:+ "-" +:+ b).
  { induction s as [|c s IH].
    - split; [intros (x & y & rest & E); discriminate|].
      intros (a & b & E).
      destruct a; [change ("" +:+ "-" +:+ b) with (String "-" b) in E
                  |rewrite append_cons in E]; discriminate E.
    - simpl. destruct (Ascii.eqb_spec c "-") as [->|Hc].
      + split; [intros _; exists "", s; reflexivity|].
        intros _. destruct s as [|c' s]; simpl.
        * eauto.
        * destruct (Ascii.eqb c' "-"); [eauto|]. destruct (str_split "-" s); eauto.
      + split.
        * intros (x & y & rest & E).
          destruct (str_split "-" s) as [|p [|q ps]] eqn:Es; try discriminate.
          destruct IH as [IH _]. destruct IH as (a & b & ->); [eauto|].
          exists (String c a), b. reflexivity.
        * intros (a & b & E). destruct a as [|c' a].
          { change ("" +:+ "-" +:+ b) with (String "-" b) in E. injection E as E _.
            congruence. }
          rewrite append_cons in E. injection E as -> ->. destruct IH as [_ IH].
          destruct IH as (x & y & rest & Es); [eauto|]. rewrite Es. eauto. }
  split.
  - intros Hs. apply H. destruct (str_split "-" (Locale voice)) as [|x [|y rest]];
      [destruct Hs; discriminate|destruct Hs; discriminate|eauto].
  - intros Hab. apply H in Hab as (x & y & rest & ->). eauto.
Qed.

(** X20. [_fetch_edge_voices_async] files every voice under its language
    group, region and gender, in the order of the service's list: when
    every locale holds a hyphen it emits [edge_voices_loaded] with a
    catalog whose entry for three keys is the list of the short names of
    the voices with these keys, in their order.  When one locale holds no
    hyphen it emits [error_occurred] with the [IndexError]'s text, and no
    catalog. *)
Theorem fetch_edge_voices_groups_in_order (voices : list Voice) :
  (Forall (fun v => exists a b, Locale v = a +:+ "-" +:+ b) voices ->
   exists catalog,
     fetch_edge_voices (Returned voices) = edge_voices_loaded catalog /\
     forall lang_group region gender,
       voices_of catalog lang_group region gender =
         ShortName <$> filter (fun v => catalog_keys v = Some (lang_group, region, gender))
                              voices) /\
  (~ Forall (fun v => exists a b, Locale v = a +:+ "-" +:+ b) voices ->
   fetch_edge_voices (Returned voices) =
     error_occurred "Edge TTS 載入失敗"
       ("無法獲取線上語音列表，請檢查網路連線。" +:+ newline +:+ "list index out of range")).
Proof.
  assert (Hiff : is_Some (file_voices voices ∅) <->
                 Forall (fun v => exists a b, Locale v = a +:+ "-" +:+ b) voices).
  { rewrite file_voices_Some. apply Forall_iff. intros v. apply catalog_keys_Some. }
  unfold fetch_edge_voices. split.
  - intros Hall. apply Hiff in Hall as [catalog E]. rewrite E.
    exists catalog. split; [reflexivity|]. intros g r s.
    rewrite (file_voices_lists voices ∅ catalog E). reflexivity.
  - intros Hnot. destruct (file_voices voices ∅) eqn:E; [|reflexivity].
    exfalso. apply Hnot, Hiff. eauto.
Qed.

Section Voice_options_facts.

Import VoiceOptions.

Lemma sorted_Permutation (l : list string) : sorted l ≡ₚ l.
Proof. apply merge_sort_Permutation. Qed.

Lemma elem_of_sorted (x : string) (l : list string) : x ∈ sorted l <-> x ∈ l.
Proof. rewrite (sorted_Permutation l). reflexivity. Qed.

Lemma sorted_nil (l : list string) : sorted l = [] <-> l = [].
Proof.
  split.
  - intros H. pose proof (sorted_Permutation l) as Hp. rewrite H in Hp.
    symmetry. apply Permutation_nil_l, Hp.
  - intros ->. reflexivity.
Qed.

Lemma elem_of_keys {A} (k : string) (d : gmap string A) : k ∈ keys d <-> is_Some (d !! k).
Proof.
  unfold keys. rewrite list_elem_of_fmap. split.
  - intros ([k' a] & -> & H). apply elem_of_map_to_list in H. eauto.
  - intros [a H]. exists (k, a). split; [reflexivity|]. apply elem_of_map_to_list, H.
Qed.

Lemma keys_nil {A} (d : gmap string A) : keys d = [] <-> d = ∅.
Proof.
  unfold keys. split.
  - intros H. apply fmap_nil_inv in H. apply map_to_list_empty_iff, H.
  - intros ->. rewrite map_to_list_empty. reflexivity.
Qed.

Lemma first_elem_of (l : list string) : l <> [] -> first l ∈ l.
Proof.
  intros H. unfold first. destruct (sorted l) as [|x l'] eqn:E.
  - apply (proj1 (sorted_nil l)) in E. contradiction.
  - simpl. apply elem_of_sorted. rewrite E. left.
Qed.

Lemma text_clear (c : QComboBox) : text (clear c) = "".
Proof. reflexivity. Qed.

Lemma addItems_clear (l : list string) (c : QComboBox) :
  addItems l (clear c) = refilled l c.
Proof. destruct l; reflexivity. Qed.

Lemma text_refilled (l : list string) (c : QComboBox) :
  text (refilled (sorted l) c) = first l.
Proof.
  unfold text, refilled, first. simpl. destruct (sorted l) as [|x l']; reflexivity.
Qed.

Lemma currentText_elem_of (l : list string) (i : Z) :
  0 <= i < Z.of_nat (length l) -> currentText l i ∈ l.
Proof.
  intros H. unfold currentText. destruct (Z.ltb_spec i 0); [lia|].
  destruct (l !! Z.to_nat i) as [x|] eqn:E.
  - simpl. eapply list_elem_of_lookup_2, E.
  - apply lookup_ge_None in E. lia.
Qed.

Lemma shows_refilled (l : list string) (c : QComboBox) :
  l <> [] -> shows (refilled (sorted l) c) l.
Proof.
  intros H. unfold shows, refilled. simpl. split; [reflexivity|].
  rewrite bool_decide_eq_false_2 by (rewrite sorted_nil; exact H).
  destruct (sorted l) eqn:E; [apply (proj1 (sorted_nil l)) in E; contradiction|].
  simpl length. lia.
Qed.

Lemma shows_text (c : QComboBox) (l : list string) : shows c l -> text c ∈ l.
Proof.
  intros [Hi Hidx]. apply elem_of_sorted. rewrite <- Hi. apply currentText_elem_of, Hidx.
Qed.

(** *** The slots *)

Lemma update_edge_voices_blank (w : Options) : update_edge_voices "" w = w.
Proof. unfold update_edge_voices. rewrite !orb_true_r. reflexivity. Qed.

Lemma update_edge_voices_run (gender : string) (w : Options) :
  text (edge_lang_group_combo w) <> "" -> text (edge_region_combo w) <> "" ->
  gender <> "" ->
  update_edge_voices gender w =
    shown_voices (text (edge_lang_group_combo w)) (text (edge_region_combo w)) gender w.
Proof.
  intros Hg Hr Hs. apply is_empty_false in Hg, Hr, Hs.
  unfold update_edge_voices. rewrite Hg, Hr, Hs. simpl orb. cbv iota zeta.
  unfold shown_voices. simpl. rewrite addItems_clear. reflexivity.
Qed.

Lemma change_gender_clear (w : Options) :
  change_gender_combo clear w = set_edge_gender_combo (clear (edge_gender_combo w)) w.
Proof.
  unfold change_gender_combo, change_combo. simpl.
  destruct (String.eqb _ _); [reflexivity|]. rewrite text_clear.
  apply update_edge_voices_blank.
Qed.

Lemma update_edge_genders_blank (w : Options) : update_edge_genders "" w = w.
Proof. unfold update_edge_genders. rewrite orb_true_r. reflexivity. Qed.

Lemma update_edge_genders_run (region : string) (w : Options) :
  text (edge_lang_group_combo w) <> "" ->
  text (edge_region_combo w) = region -> region <> "" ->
  first (keys (default ∅ (default ∅ (edge_tts_voices w !! text (edge_lang_group_combo w))
                            !! region))) <> "" ->
  update_edge_genders region w = shown_genders (text (edge_lang_group_combo w)) region w.
Proof.
  intros Hg Hr Hrne Hfirst. unfold update_edge_genders.
  apply is_empty_false in Hg as Hg', Hrne as Hr'. rewrite Hg', Hr'. simpl orb. cbv iota zeta.
  rewrite change_gender_clear.
  unfold change_gender_combo, change_combo.
  cbn [edge_gender_combo set_edge_gender_combo edge_tts_voices edge_lang_group_combo].
  rewrite addItems_clear, text_clear, text_refilled.
  apply is_empty_false in Hfirst as Hf.
  assert (Heq : String.eqb "" (first (keys (default ∅
             (default ∅ (edge_tts_voices w !! text (edge_lang_group_combo w)) !! region))))
             = false).
  { apply String.eqb_neq. congruence. }
  rewrite Heq.
  rewrite update_edge_voices_run; [| exact Hg | simpl; rewrite Hr; exact Hrne | exact Hfirst].
  unfold shown_genders. cbn [edge_region_combo set_edge_gender_combo edge_lang_group_combo].
  rewrite Hr. reflexivity.
Qed.

Lemma change_region_clear (w : Options) :
  change_region_combo clear w = set_edge_region_combo (clear (edge_region_combo w)) w.
Proof.
  unfold change_region_combo, change_combo. simpl.
  destruct (String.eqb _ _); [reflexivity|]. rewrite text_clear.
  apply update_edge_genders_blank.
Qed.

Lemma update_edge_regions_blank (w : Options) : update_edge_regions "" w = w.
Proof. reflexivity. Qed.

(** What a well-formed catalog holds below a language group it has. *)
Lemma well_formed_first_region (catalog : Catalog) (g : string) :
  well_formed catalog -> is_Some (catalog !! g) ->
  let r := first (keys (default ∅ (catalog !! g))) in
  g <> "" /\ r <> "" /\ is_Some (default ∅ (catalog !! g) !! r) /\
  keys (default ∅ (catalog !! g)) <> [].
Proof.
  intros Hwf [regions Hg] r. subst r. rewrite Hg. simpl.
  destruct (Hwf g regions Hg) as (Hgne & Hne & Hin).
  assert (Hk : keys regions <> []) by (rewrite keys_nil; exact Hne).
  pose proof (first_elem_of _ Hk) as Hf. apply elem_of_keys in Hf as Hs.
  destruct Hs as [genders Hr]. destruct (Hin _ _ Hr) as (Hrne & _).
  repeat split; try assumption. eauto.
Qed.

Lemma well_formed_first_gender (catalog : Catalog) (g r : string) :
  well_formed catalog -> is_Some (default ∅ (catalog !! g) !! r) ->
  let s := first (keys (default ∅ (default ∅ (catalog !! g) !! r))) in
  r <> "" /\ s <> "" /\ is_Some (default ∅ (default ∅ (catalog !! g) !! r) !! s) /\
  keys (default ∅ (default ∅ (catalog !! g) !! r)) <> [].
Proof.
  intros Hwf [genders Hr] s. subst s. rewrite Hr. simpl.
  destruct (catalog !! g) as [regions|] eqn:Hg;
    [|simpl in Hr; rewrite lookup_empty in Hr; discriminate].
  simpl in Hr. destruct (Hwf g regions Hg) as (_ & _ & Hin).
  destruct (Hin _ _ Hr) as (Hrne & Hne & Hin').
  assert (Hk : keys genders <> []) by (rewrite keys_nil; exact Hne).
  pose proof (first_elem_of _ Hk) as Hf. apply elem_of_keys in Hf as Hs.
  destruct Hs as [names Hs]. destruct (Hin' _ _ Hs) as (Hsne & _).
  repeat split; try assumption. eauto.
Qed.

Lemma well_formed_voices (catalog : Catalog) (g r s : string) :
  well_formed catalog -> is_Some (default ∅ (default ∅ (catalog !! g) !! r) !! s) ->
  s <> "" /\ voices_of catalog g r s <> [].
Proof.
  intros Hwf [names Hs]. unfold voices_of. rewrite Hs. simpl.
  destruct (catalog !! g) as [regions|] eqn:Hg;
    [|simpl in Hs; rewrite lookup_empty in Hs; simpl in Hs; rewrite lookup_empty in Hs;
      discriminate].
  simpl in Hs.
  destruct (regions !! r) as [genders|] eqn:Hr;
    [|simpl in Hs; rewrite lookup_empty in Hs; discriminate].
  simpl in Hs. destruct (Hwf g regions Hg) as (_ & _ & Hin).
  destruct (Hin _ _ Hr) as (_ & _ & Hin'). apply (Hin' _ _ Hs).
Qed.

Lemma update_edge_regions_run (lang_group : string) (w : Options) :
  well_formed (edge_tts_voices w) ->
  text (edge_lang_group_combo w) = lang_group ->
  is_Some (edge_tts_voices w !! lang_group) ->
  update_edge_regions lang_group w = shown_regions lang_group w.
Proof.
  intros Hwf Hg Hin.
  destruct (well_formed_first_region _ _ Hwf Hin) as (Hgne & Hrne & Hr & _).
  destruct (well_formed_first_gender _ _ _ Hwf Hr) as (_ & Hsne & _ & _).
  unfold update_edge_regions. apply is_empty_false in Hgne as Hg'. rewrite Hg'.
  cbv zeta. rewrite change_region_clear.
  unfold change_region_combo, change_combo.
  cbn [edge_region_combo set_edge_region_combo edge_tts_voices].
  rewrite addItems_clear, text_clear, text_refilled.
  assert (Heq : String.eqb "" (first (keys (default ∅ (edge_tts_voices w !! lang_group))))
                = false).
  { apply String.eqb_neq. congruence. }
  rewrite Heq.
  rewrite update_edge_genders_run.
  - cbn [edge_lang_group_combo set_edge_region_combo]. rewrite Hg. reflexivity.
  - cbn [edge_lang_group_combo set_edge_region_combo]. rewrite Hg. exact Hgne.
  - cbn [edge_region_combo set_edge_region_combo]. apply text_refilled.
  - exact Hrne.
  - cbn [edge_lang_group_combo set_edge_region_combo edge_tts_voices]. rewrite Hg.
    exact Hsne.
Qed.

(** *** Consistency of what the slots leave *)

Lemma consistent_shown_voices (g r s : string) (w : Options) :
  well_formed (edge_tts_voices w) ->
  text (edge_lang_group_combo w) = g -> text (edge_region_combo w) = r ->
  text (edge_gender_combo w) = s ->
  shows (edge_lang_group_combo w) (keys (edge_tts_voices w)) ->
  shows (edge_region_combo w) (keys (default ∅ (edge_tts_voices w !! g))) ->
  shows (edge_gender_combo w) (keys (default ∅ (default ∅ (edge_tts_voices w !! g) !! r))) ->
  consistent (shown_voices g r s w).
Proof.
  intros Hwf Hg Hr Hs H1 H2 H3. unfold consistent, shown_voices.
  cbn [edge_tts_voices edge_lang_group_combo edge_region_combo edge_gender_combo
       edge_voice_combo set_edge_voice_combo].
  rewrite Hg, Hr, Hs. split; [exact H1|]. split; [exact H2|]. split; [exact H3|].
  apply shows_refilled.
  apply (well_formed_voices _ g r s Hwf).
  apply elem_of_keys. rewrite <- Hs. apply shows_text. exact H3.
Qed.

Lemma consistent_shown_genders (g r : string) (w : Options) :
  well_formed (edge_tts_voices w) ->
  text (edge_lang_group_combo w) = g -> text (edge_region_combo w) = r ->
  shows (edge_lang_group_combo w) (keys (edge_tts_voices w)) ->
  shows (edge_region_combo w) (keys (default ∅ (edge_tts_voices w !! g))) ->
  consistent (shown_genders g r w).
Proof.
  intros Hwf Hg Hr H1 H2. unfold shown_genders. cbv zeta.
  assert (Hin : is_Some (default ∅ (edge_tts_voices w !! g) !! r)).
  { apply elem_of_keys. rewrite <- Hr. apply shows_text. exact H2. }
  destruct (well_formed_first_gender _ _ _ Hwf Hin) as (_ & _ & _ & Hk).
  apply consistent_shown_voices; try assumption.
  - cbn [edge_gender_combo set_edge_gender_combo]. apply text_refilled.
  - cbn [edge_gender_combo set_edge_gender_combo edge_tts_voices]. apply shows_refilled, Hk.
Qed.

Lemma consistent_shown_regions (g : string) (w : Options) :
  well_formed (edge_tts_voices w) ->
  text (edge_lang_group_combo w) = g ->
  shows (edge_lang_group_combo w) (keys (edge_tts_voices w)) ->
  consistent (shown_regions g w).
Proof.
  intros Hwf Hg H1. unfold shown_regions. cbv zeta.
  assert (Hin : is_Some (edge_tts_voices w !! g)).
  { apply elem_of_keys. rewrite <- Hg. apply shows_text. exact H1. }
  destruct (well_formed_first_region _ _ Hwf Hin) as (_ & _ & _ & Hk).
  apply consistent_shown_genders; try assumption.
  - cbn [edge_region_combo set_edge_region_combo]. apply text_refilled.
  - cbn [edge_region_combo set_edge_region_combo edge_tts_voices]. apply shows_refilled, Hk.
Qed.

Lemma checked_index_valid (l : list string) (i : Z) :
  0 <= i < Z.of_nat (length l) -> checked_index l i = i.
Proof.
  intros H. unfold checked_index.
  destruct (Z.leb_spec 0 i); [|lia]. destruct (Z.ltb_spec i (Z.of_nat (length l))); [|lia].
  reflexivity.
Qed.

Lemma findText_found (t : string) (l : list string) :
  t ∈ l -> 0 <= findText t l < Z.of_nat (length l) /\ currentText l (findText t l) = t.
Proof.
  induction l as [|x l IH]; intros Hin; [inversion Hin|].
  simpl findText. destruct (String.eqb_spec x t) as [->|Hne].
  - simpl. split; [lia|reflexivity].
  - apply elem_of_cons in Hin as [->|Hin]; [contradiction|].
    destruct (IH Hin) as (Hrange & Htext).
    destruct (Z.ltb_spec (findText t l) 0); [lia|].
    split; [simpl length; lia|].
    unfold currentText in *. destruct (Z.ltb_spec (findText t l) 0); [lia|].
    destruct (Z.ltb_spec (findText t l + 1) 0); [lia|].
    replace (Z.to_nat (findText t l + 1)) with (S (Z.to_nat (findText t l))) by lia.
    exact Htext.
Qed.

(** A change of the language group combo that keeps its items and leaves
    a current item: the combos below follow. *)
Lemma change_lang_group_consistent (f : QComboBox -> QComboBox) (w : Options) :
  well_formed (edge_tts_voices w) ->
  items (f (edge_lang_group_combo w)) = sorted (keys (edge_tts_voices w)) ->
  0 <= currentIndex (f (edge_lang_group_combo w))
    < Z.of_nat (length (items (f (edge_lang_group_combo w)))) ->
  (text (f (edge_lang_group_combo w)) = text (edge_lang_group_combo w) -> consistent w) ->
  consistent (change_lang_group_combo f w).
Proof.
  intros Hwf Hitems Hidx Hsame. unfold change_lang_group_combo, change_combo.
  cbn [edge_lang_group_combo set_edge_lang_group_combo].
  assert (Hshows : shows (f (edge_lang_group_combo w)) (keys (edge_tts_voices w)))
    by (split; assumption).
  destruct (String.eqb_spec (text (edge_lang_group_combo w))
              (text (f (edge_lang_group_combo w)))) as [E|E].
  - destruct (Hsame (eq_sym E)) as (_ & H2 & H3 & H4).
    unfold consistent. cbn [edge_tts_voices edge_lang_group_combo edge_region_combo
      edge_gender_combo edge_voice_combo set_edge_lang_group_combo].
    rewrite <- E. split; [exact Hshows|]. split; [exact H2|]. split; assumption.
  - rewrite update_edge_regions_run.
    + apply consistent_shown_regions; [exact Hwf|reflexivity|exact Hshows].
    + exact Hwf.
    + reflexivity.
    + cbn [edge_tts_voices set_edge_lang_group_combo]. apply elem_of_keys.
      apply shows_text. exact Hshows.
Qed.

Lemma change_region_consistent (f : QComboBox -> QComboBox) (w : Options) :
  well_formed (edge_tts_voices w) ->
  consistent w ->
  items (f (edge_region_combo w)) = items (edge_region_combo w) ->
  0 <= currentIndex (f (edge_region_combo w))
    < Z.of_nat (length (items (f (edge_region_combo w)))) ->
  consistent (change_region_combo f w).
Proof.
  intros Hwf (H1 & H2 & H3 & H4) Hitems Hidx. unfold change_region_combo, change_combo.
  cbn [edge_region_combo set_edge_region_combo].
  assert (Hshows : shows (f (edge_region_combo w))
            (keys (default ∅ (edge_tts_voices w !! text (edge_lang_group_combo w))))).
  { split; [rewrite Hitems; apply H2|exact Hidx]. }
  assert (Hg : is_Some (edge_tts_voices w !! text (edge_lang_group_combo w))).
  { apply elem_of_keys. apply shows_text. exact H1. }
  destruct (well_formed_first_region _ _ Hwf Hg) as (Hgne & _).
  destruct (String.eqb_spec (text (edge_region_combo w))
              (text (f (edge_region_combo w)))) as [E|E].
  - unfold consistent. cbn [edge_tts_voices edge_lang_group_combo edge_region_combo
      edge_gender_combo edge_voice_combo set_edge_region_combo].
    rewrite <- E. split; [exact H1|]. split; [exact Hshows|]. split; assumption.
  - assert (Hr : is_Some (default ∅ (edge_tts_voices w !! text (edge_lang_group_combo w))
                            !! text (f (edge_region_combo w)))).
    { apply elem_of_keys. apply shows_text. exact Hshows. }
    destruct (well_formed_first_gender _ _ _ Hwf Hr) as (Hrne & Hsne & _).
    rewrite update_edge_genders_run.
    + apply consistent_shown_genders; [exact Hwf|reflexivity|reflexivity|exact H1|exact Hshows].
    + exact Hgne.
    + reflexivity.
    + exact Hrne.
    + exact Hsne.
Qed.

Lemma change_gender_consistent (f : QComboBox -> QComboBox) (w : Options) :
  well_formed (edge_tts_voices w) ->
  consistent w ->
  items (f (edge_gender_combo w)) = items (edge_gender_combo w) ->
  0 <= currentIndex (f (edge_gender_combo w))
    < Z.of_nat (length (items (f (edge_gender_combo w)))) ->
  consistent (change_gender_combo f w).
Proof.
  intros Hwf (H1 & H2 & H3 & H4) Hitems Hidx. unfold change_gender_combo, change_combo.
  cbn [edge_gender_combo set_edge_gender_combo].
  assert (Hshows : shows (f (edge_gender_combo w))
            (keys (default ∅ (default ∅
               (edge_tts_voices w !! text (edge_lang_group_combo w))
               !! text (edge_region_combo w))))).
  { split; [rewrite Hitems; apply H3|exact Hidx]. }
  assert (Hg : is_Some (edge_tts_voices w !! text (edge_lang_group_combo w))).
  { apply elem_of_keys. apply shows_text. exact H1. }
  destruct (well_formed_first_region _ _ Hwf Hg) as (Hgne & _).
  assert (Hr : is_Some (default ∅ (edge_tts_voices w !! text (edge_lang_group_combo w))
                          !! text (edge_region_combo w))).
  { apply elem_of_keys. apply shows_text. exact H2. }
  destruct (well_formed_first_gender _ _ _ Hwf Hr) as (Hrne & _).
  destruct (String.eqb_spec (text (edge_gender_combo w))
              (text (f (edge_gender_combo w)))) as [E|E].
  - unfold consistent. cbn [edge_tts_voices edge_lang_group_combo edge_region_combo
      edge_gender_combo edge_voice_combo set_edge_gender_combo].
    rewrite <- E. split; [exact H1|]. split; [exact H2|]. split; assumption.
  - assert (Hs : is_Some (default ∅ (default ∅
               (edge_tts_voices w !! text (edge_lang_group_combo w))
               !! text (edge_region_combo w)) !! text (f (edge_gender_combo w)))).
    { apply elem_of_keys. apply shows_text. exact Hshows. }
    destruct (well_formed_voices _ _ _ _ Hwf Hs) as (Hsne & _).
    rewrite update_edge_voices_run; [|exact Hgne|exact Hrne|exact Hsne].
    apply consistent_shown_voices; try assumption; reflexivity.
Qed.

Lemma change_lang_group_clear (w : Options) :
  change_lang_group_combo clear w =
    set_edge_lang_group_combo (clear (edge_lang_group_combo w)) w.
Proof.
  unfold change_lang_group_combo, change_combo. simpl.
  destruct (String.eqb _ _); reflexivity.
Qed.

Ltac split_ifs :=
  repeat match goal with
         | |- context [if ?b then _ else _] => destruct b
         end.

(** Each slot leaves the loaded voices, the service and the combos above
    its own as they are. *)
Lemma update_edge_voices_frame (gender : string) (w : Options) :
  let w' := update_edge_voices gender w in
  edge_tts_voices w' = edge_tts_voices w /\ voice_combo w' = voice_combo w /\
  edge_lang_group_combo w' = edge_lang_group_combo w /\
  edge_region_combo w' = edge_region_combo w /\
  edge_gender_combo w' = edge_gender_combo w.
Proof. cbv zeta. unfold update_edge_voices. split_ifs; repeat split. Qed.

Lemma change_gender_frame (f : QComboBox -> QComboBox) (w : Options) :
  let w' := change_gender_combo f w in
  edge_tts_voices w' = edge_tts_voices w /\ voice_combo w' = voice_combo w /\
  edge_lang_group_combo w' = edge_lang_group_combo w /\
  edge_region_combo w' = edge_region_combo w /\
  edge_gender_combo w' = f (edge_gender_combo w).
Proof.
  cbv zeta. unfold change_gender_combo, change_combo.
  destruct (String.eqb _ _); [repeat split|].
  destruct (update_edge_voices_frame
              (text (edge_gender_combo (set_edge_gender_combo (f (edge_gender_combo w)) w)))
              (set_edge_gender_combo (f (edge_gender_combo w)) w))
    as (H1 & H2 & H3 & H4 & H5).
  rewrite H1, H2, H3, H4, H5. repeat split.
Qed.

Lemma update_edge_genders_frame (region : string) (w : Options) :
  let w' := update_edge_genders region w in
  edge_tts_voices w' = edge_tts_voices w /\ voice_combo w' = voice_combo w /\
  edge_lang_group_combo w' = edge_lang_group_combo w /\
  edge_region_combo w' = edge_region_combo w.
Proof.
  cbv zeta. unfold update_edge_genders. destruct (_ || _); [repeat split|]. cbv zeta.
  destruct (change_gender_frame clear w) as (H1 & H2 & H3 & H4 & _).
  set (w1 := change_gender_combo clear w) in *.
  destruct (change_gender_frame
              (addItems (sorted (keys (default ∅
                 (default ∅ (edge_tts_voices w1 !! text (edge_lang_group_combo w)) !! region)))))
              w1) as (G1 & G2 & G3 & G4 & _).
  rewrite G1, G2, G3, G4, H1, H2, H3, H4. repeat split.
Qed.

Lemma change_region_frame (f : QComboBox -> QComboBox) (w : Options) :
  let w' := change_region_combo f w in
  edge_tts_voices w' = edge_tts_voices w /\ voice_combo w' = voice_combo w /\
  edge_lang_group_combo w' = edge_lang_group_combo w /\
  edge_region_combo w' = f (edge_region_combo w).
Proof.
  cbv zeta. unfold change_region_combo, change_combo.
  destruct (String.eqb _ _); [repeat split|].
  destruct (update_edge_genders_frame
              (text (edge_region_combo (set_edge_region_combo (f (edge_region_combo w)) w)))
              (set_edge_region_combo (f (edge_region_combo w)) w))
    as (H1 & H2 & H3 & H4).
  rewrite H1, H2, H3, H4. repeat split.
Qed.

Lemma update_edge_regions_frame (lang_group : string) (w : Options) :
  let w' := update_edge_regions lang_group w in
  edge_tts_voices w' = edge_tts_voices w /\ voice_combo w' = voice_combo w /\
  edge_lang_group_combo w' = edge_lang_group_combo w.
Proof.
  cbv zeta. unfold update_edge_regions. destruct (is_empty _); [repeat split|]. cbv zeta.
  destruct (change_region_frame clear w) as (H1 & H2 & H3 & _).
  set (w1 := change_region_combo clear w) in *.
  destruct (change_region_frame
              (addItems (sorted (keys (default ∅ (edge_tts_voices w1 !! lang_group)))))
              w1) as (G1 & G2 & G3 & _).
  rewrite G1, G2, G3, H1, H2, H3. repeat split.
Qed.

Lemma change_lang_group_frame (f : QComboBox -> QComboBox) (w : Options) :
  let w' := change_lang_group_combo f w in
  edge_tts_voices w' = edge_tts_voices w /\ voice_combo w' = voice_combo w /\
  edge_lang_group_combo w' = f (edge_lang_group_combo w).
Proof.
  cbv zeta. unfold change_lang_group_combo, change_combo.
  destruct (String.eqb _ _); [repeat split|].
  destruct (update_edge_regions_frame
              (text (edge_lang_group_combo
                       (set_edge_lang_group_combo (f (edge_lang_group_combo w)) w)))
              (set_edge_lang_group_combo (f (edge_lang_group_combo w)) w))
    as (H1 & H2 & H3).
  rewrite H1, H2, H3. repeat split.
Qed.

Lemma update_edge_lang_groups_frame (w : Options) :
  edge_tts_voices (update_edge_lang_groups w) = edge_tts_voices w /\
  voice_combo (update_edge_lang_groups w) = voice_combo w.
Proof.
  unfold update_edge_lang_groups. cbv zeta.
  destruct (change_lang_group_frame clear w) as (A1 & A2 & _).
  set (w2 := change_lang_group_combo clear w) in *.
  destruct (change_lang_group_frame
              (addItems (sorted (keys (edge_tts_voices w2)))) w2) as (B1 & B2 & _).
  set (w3 := change_lang_group_combo _ w2) in *.
  destruct (bool_decide _).
  - destruct (change_lang_group_frame (setCurrentText "中文") w3) as (C1 & C2 & _).
    rewrite C1, C2, B1, B2, A1, A2. split; reflexivity.
  - rewrite B1, B2, A1, A2. split; reflexivity.
Qed.

(** [update_edge_lang_groups] with voices loaded leaves the combos
    consistent, the language group being "中文" when there is one. *)
Lemma update_edge_lang_groups_consistent (w : Options) :
  well_formed (edge_tts_voices w) -> edge_tts_voices w <> ∅ ->
  let w' := update_edge_lang_groups w in
  consistent w' /\
  edge_tts_voices w' = edge_tts_voices w /\
  voice_combo w' = voice_combo w /\
  isEnabled (edge_lang_group_combo w') = isEnabled (edge_lang_group_combo w) /\
  text (edge_lang_group_combo w') =
    (if bool_decide (is_Some (edge_tts_voices w !! "中文")) then "中文"
     else first (keys (edge_tts_voices w))).
Proof.
  intros Hwf Hne. cbv zeta. unfold update_edge_lang_groups. cbv zeta.
  rewrite change_lang_group_clear.
  set (w1 := set_edge_lang_group_combo (clear (edge_lang_group_combo w)) w).
  assert (Hk : keys (edge_tts_voices w) <> []) by (rewrite keys_nil; exact Hne).
  set (w2 := change_lang_group_combo (addItems (sorted (keys (edge_tts_voices w1)))) w1).
  destruct (change_lang_group_frame (addItems (sorted (keys (edge_tts_voices w1)))) w1)
    as (Hcat2 & Hv2 & Hl2). fold w2 in Hcat2, Hv2, Hl2.
  cbn [w1 edge_tts_voices set_edge_lang_group_combo edge_lang_group_combo voice_combo]
    in Hcat2, Hv2, Hl2.
  rewrite addItems_clear in Hl2.
  assert (Hc2 : consistent w2).
  { subst w2. apply change_lang_group_consistent.
    - exact Hwf.
    - cbn [w1 edge_tts_voices set_edge_lang_group_combo edge_lang_group_combo].
      rewrite addItems_clear. reflexivity.
    - cbn [w1 edge_tts_voices set_edge_lang_group_combo edge_lang_group_combo].
      rewrite addItems_clear. apply (shows_refilled _ _ Hk).
    - cbn [w1 edge_tts_voices set_edge_lang_group_combo edge_lang_group_combo].
      rewrite addItems_clear, text_clear, text_refilled. intros Hf. exfalso.
      pose proof (first_elem_of _ Hk) as Hin. apply elem_of_keys in Hin.
      destruct (well_formed_first_region _ _ Hwf Hin) as (Hgne & _). congruence. }
  clearbody w2. rewrite Hcat2.
  destruct (decide (is_Some (edge_tts_voices w !! "中文"))) as [Hzh|Hzh].
  - rewrite (bool_decide_eq_true_2 _ Hzh).
    assert (Hin : "中文" ∈ sorted (keys (edge_tts_voices w)))
      by (apply elem_of_sorted, elem_of_keys, Hzh).
    destruct (findText_found _ _ Hin) as (Hrange & Htext).
    assert (Hf : setCurrentText "中文" (edge_lang_group_combo w2) =
                 {| items := sorted (keys (edge_tts_voices w));
                    currentIndex := findText "中文" (sorted (keys (edge_tts_voices w)));
                    isEnabled := isEnabled (edge_lang_group_combo w) |}).
    { unfold setCurrentText. rewrite Hl2. cbn [items refilled].
      destruct (Z.leb_spec 0 (findText "中文" (sorted (keys (edge_tts_voices w)))));
        [|lia].
      unfold setCurrentIndex, refilled. cbn [orb items currentIndex isEnabled].
      rewrite (checked_index_valid _ _ Hrange). reflexivity. }
    destruct (change_lang_group_frame (setCurrentText "中文") w2) as (Hcat3 & Hv3 & Hl3).
    split; [|split; [|split; [|split]]].
    + apply change_lang_group_consistent.
      * rewrite Hcat2. exact Hwf.
      * rewrite Hcat2, Hf. reflexivity.
      * rewrite Hf. exact Hrange.
      * intros _. exact Hc2.
    + congruence.
    + congruence.
    + rewrite Hl3, Hf. reflexivity.
    + rewrite Hl3, Hf. exact Htext.
  - rewrite (bool_decide_eq_false_2 _ Hzh).
    split; [exact Hc2|]. split; [exact Hcat2|]. split; [exact Hv2|].
    rewrite Hl2. split; [reflexivity|apply text_refilled].
Qed.

Lemma well_formed_empty : well_formed ∅.
Proof. intros g regions H. rewrite lookup_empty in H. discriminate. Qed.

Lemma can_pick_valid (i : Z) (c : QComboBox) :
  can_pick i c = true ->
  isEnabled c = true /\ 0 <= i < Z.of_nat (length (items c)).
Proof.
  unfold can_pick. intros H. apply andb_true_iff in H as [H H3].
  apply andb_true_iff in H as [H1 H2]. apply Z.leb_le in H2. apply Z.ltb_lt in H3.
  split; [exact H1|lia].
Qed.

Lemma setCurrentIndex_valid (i : Z) (c : QComboBox) :
  0 <= i < Z.of_nat (length (items c)) ->
  items (setCurrentIndex i c) = items c /\
  0 <= currentIndex (setCurrentIndex i c) < Z.of_nat (length (items (setCurrentIndex i c))).
Proof.
  intros H. unfold setCurrentIndex. cbn [items currentIndex].
  rewrite (checked_index_valid _ _ H). split; [reflexivity|exact H].
Qed.

Lemma handle_voice_service_changed_keeps (w : Options) :
  well_formed (edge_tts_voices w) ->
  options_invariant (handle_voice_service_changed w) /\
  voice_combo (handle_voice_service_changed w) = voice_combo w /\
  edge_tts_voices (handle_voice_service_changed w) = edge_tts_voices w.
Proof.
  intros Hwf. unfold handle_voice_service_changed. cbv zeta.
  destruct (String.eqb_spec (voice_combo w) "Edge TTS") as [He|He].
  - cbn [edge_tts_voices _create_edge_tts_options].
    destruct (decide (edge_tts_voices w <> ∅)) as [Hne|Hne].
    + rewrite (bool_decide_eq_true_2 _ Hne).
      destruct (update_edge_lang_groups_consistent (_create_edge_tts_options w))
        as (H1 & H2 & H3 & _); [exact Hwf|exact Hne|].
      split; [|split; [exact H3|exact H2]].
      split; [rewrite H2; exact Hwf|]. intros _ _. exact H1.
    + rewrite (bool_decide_eq_false_2 _ Hne).
      split; [|split; reflexivity]. split; [exact Hwf|].
      intros _ H. contradiction.
  - destruct (String.eqb_spec (voice_combo w) "System TTS (pyttsx3)") as [Hs|Hs].
    + destruct (pyttsx3_voices (_create_pyttsx3_options w)); (split; [|split; reflexivity]);
        (split; [exact Hwf|]); intros H; contradiction.
    + split; [|split; reflexivity]. split; [exact Hwf|]. intros H. contradiction.
Qed.

Lemma consistent_same_edge (w w' : Options) :
  edge_tts_voices w' = edge_tts_voices w ->
  edge_lang_group_combo w' = edge_lang_group_combo w ->
  edge_region_combo w' = edge_region_combo w ->
  edge_gender_combo w' = edge_gender_combo w ->
  edge_voice_combo w' = edge_voice_combo w ->
  consistent w -> consistent w'.
Proof. unfold consistent. intros -> -> -> -> ->. tauto. Qed.

Lemma on_voice_event_keeps (ev : VoiceEvent) (w : Options) :
  loads_well_formed ev -> options_invariant w -> options_invariant (on_voice_event ev w).
Proof.
  intros Hev Hinv. pose proof Hinv as (Hwf & Hc). destruct ev as [s|i|i|i|i|cat|vs]; simpl.
  - destruct (String.eqb s (voice_combo w)); [exact Hinv|].
    apply handle_voice_service_changed_keeps. exact Hwf.
  - destruct (can_pick i (edge_lang_group_combo w)) eqn:Hpick; [|exact Hinv].
    apply can_pick_valid in Hpick as (_ & Hi).
    destruct (change_lang_group_frame (setCurrentIndex i) w) as (H1 & H2 & _).
    split; [rewrite H1; exact Hwf|]. rewrite H1, H2. intros He Hne.
    specialize (Hc He Hne). pose proof Hc as (Hl & _).
    destruct (setCurrentIndex_valid i _ Hi) as (Hitems & Hidx).
    apply change_lang_group_consistent; [exact Hwf| |exact Hidx|intros _; exact Hc].
    rewrite Hitems. apply Hl.
  - destruct (can_pick i (edge_region_combo w)) eqn:Hpick; [|exact Hinv].
    apply can_pick_valid in Hpick as (_ & Hi).
    destruct (change_region_frame (setCurrentIndex i) w) as (H1 & H2 & _).
    split; [rewrite H1; exact Hwf|]. rewrite H1, H2. intros He Hne.
    destruct (setCurrentIndex_valid i _ Hi) as (Hitems & Hidx).
    apply change_region_consistent; [exact Hwf|exact (Hc He Hne)|exact Hitems|exact Hidx].
  - destruct (can_pick i (edge_gender_combo w)) eqn:Hpick; [|exact Hinv].
    apply can_pick_valid in Hpick as (_ & Hi).
    destruct (change_gender_frame (setCurrentIndex i) w) as (H1 & H2 & _).
    split; [rewrite H1; exact Hwf|]. rewrite H1, H2. intros He Hne.
    destruct (setCurrentIndex_valid i _ Hi) as (Hitems & Hidx).
    apply change_gender_consistent; [exact Hwf|exact (Hc He Hne)|exact Hitems|exact Hidx].
  - destruct (can_pick i (edge_voice_combo w)) eqn:Hpick; [|exact Hinv].
    apply can_pick_valid in Hpick as (_ & Hi).
    split; [exact Hwf|]. intros He Hne. destruct (Hc He Hne) as (H1 & H2 & H3 & H4).
    destruct (setCurrentIndex_valid i _ Hi) as (Hitems & Hidx).
    unfold consistent. cbn [edge_tts_voices edge_lang_group_combo edge_region_combo
      edge_gender_combo edge_voice_combo set_edge_voice_combo].
    split; [exact H1|]. split; [exact H2|]. split; [exact H3|].
    split; [rewrite Hitems; apply H4|exact Hidx].
  - simpl in Hev. unfold on_edge_voices_loaded. cbv zeta.
    cbn [voice_combo set_edge_tts_voices].
    destruct (String.eqb_spec (voice_combo w) "Edge TTS") as [He|He].
    + destruct (decide (cat = ∅)) as [->|Hne].
      * set (w1 := set_edge_lang_group_combo _ _).
        destruct (update_edge_lang_groups_frame w1) as (Hcat & _).
        split; [rewrite Hcat; apply well_formed_empty|]. intros _ H. contradiction.
      * destruct (update_edge_lang_groups_consistent
                    (set_edge_lang_group_combo
                       (setEnabled true (edge_lang_group_combo (set_edge_tts_voices cat w)))
                       (set_edge_tts_voices cat w)))
          as (H1 & H2 & _); [exact Hev|exact Hne|].
        split; [rewrite H2; exact Hev|]. intros _ _. exact H1.
    + split; [exact Hev|]. intros H. contradiction.
  - unfold on_pyttsx3_voices_loaded. cbv zeta. cbn [voice_combo set_pyttsx3_voices].
    destruct (String.eqb_spec (voice_combo w) "System TTS (pyttsx3)") as [Hs|Hs].
    + split; [exact Hwf|]. cbn [voice_combo set_pyttsx3_voice_combo set_pyttsx3_voices].
      intros He. rewrite Hs in He. discriminate.
    + split; [exact Hwf|]. intros He Hne.
      apply (consistent_same_edge w); try reflexivity. exact (Hc He Hne).
Qed.

(** The loaded voices change only when new ones arrive. *)
Lemma on_voice_event_edge_tts_voices (ev : VoiceEvent) (w : Options) :
  edge_tts_voices (on_voice_event ev w) =
    match ev with
    | EdgeVoicesLoaded voices => voices
    | _ => edge_tts_voices w
    end.
Proof.
  destruct ev as [s|i|i|i|i|cat|vs]; simpl.
  - destruct (String.eqb s (voice_combo w)); [reflexivity|].
    unfold handle_voice_service_changed. cbv zeta.
    destruct (String.eqb _ "Edge TTS").
    + destruct (bool_decide _); [|reflexivity].
      destruct (update_edge_lang_groups_frame
                  (_create_edge_tts_options (set_voice_combo s w))) as (H & _).
      rewrite H. reflexivity.
    + destruct (String.eqb _ _); [|reflexivity].
      destruct (pyttsx3_voices _); reflexivity.
  - destruct (can_pick _ _); [|reflexivity].
    apply (change_lang_group_frame (setCurrentIndex i) w).
  - destruct (can_pick _ _); [|reflexivity].
    apply (change_region_frame (setCurrentIndex i) w).
  - destruct (can_pick _ _); [|reflexivity].
    apply (change_gender_frame (setCurrentIndex i) w).
  - destruct (can_pick _ _); reflexivity.
  - unfold on_edge_voices_loaded. cbv zeta. destruct (String.eqb _ _); [|reflexivity].
    destruct (update_edge_lang_groups_frame
                (set_edge_lang_group_combo
                   (setEnabled true (edge_lang_group_combo (set_edge_tts_voices cat w)))
                   (set_edge_tts_voices cat w))) as (H & _).
    rewrite H. reflexivity.
  - unfold on_pyttsx3_voices_loaded. cbv zeta. destruct (String.eqb _ _); reflexivity.
Qed.

Lemma init_options_invariant : options_invariant init_options.
Proof. apply handle_voice_service_changed_keeps. apply well_formed_empty. Qed.

Lemma reachable_options_invariant (w : Options) : reachable_options w -> options_invariant w.
Proof.
  induction 1 as [|w ev _ IH Hev]; [apply init_options_invariant|].
  apply on_voice_event_keeps; assumption.
Qed.

(** X22. Whatever the user picks and whenever the voices arrive: while
    Edge TTS is the selected service and voices are loaded, each of the
    four combos lists, sorted, what the catalog holds under the texts
    selected in the combos before it, with one item current; so the voice
    shown is a voice of the language group, region and gender shown. *)
Theorem edge_voice_combo_follows_selection (w : Options) :
  reachable_options w ->
  voice_combo w = "Edge TTS" -> edge_tts_voices w <> ∅ ->
  consistent w /\
  text (edge_voice_combo w) ∈
    voices_of (edge_tts_voices w) (text (edge_lang_group_combo w))
      (text (edge_region_combo w)) (text (edge_gender_combo w)).
Proof.
  intros Hr He Hne. destruct (reachable_options_invariant w Hr) as (_ & Hc).
  specialize (Hc He Hne). split; [exact Hc|].
  destruct Hc as (_ & _ & _ & H4). apply shows_text. exact H4.
Qed.

Lemma catalog_append_well_formed (a b c x : string) (catalog : Catalog) :
  a <> "" -> b <> "" -> c <> "" ->
  well_formed catalog -> well_formed (catalog_append a b c x catalog).
Proof.
  intros Ha Hb Hc Hwf g regions' Hg. unfold catalog_append in Hg. cbv zeta in Hg.
  destruct (decide (a = g)) as [<-|Hag].
  2:{ rewrite lookup_insert_ne in Hg by exact Hag. exact (Hwf g regions' Hg). }
  rewrite lookup_insert_eq in Hg. injection Hg as <-.
  split; [exact Ha|]. split; [apply insert_non_empty|].
  intros r genders' Hr.
  destruct (decide (b = r)) as [<-|Hbr].
  2:{ rewrite lookup_insert_ne in Hr by exact Hbr.
      destruct (catalog !! a) as [regions|] eqn:Hcat;
        [|simpl in Hr; rewrite lookup_empty in Hr; discriminate].
      simpl in Hr. destruct (Hwf a regions Hcat) as (_ & _ & Hin). exact (Hin r genders' Hr). }
  rewrite lookup_insert_eq in Hr. injection Hr as <-.
  split; [exact Hb|]. split; [apply insert_non_empty|].
  intros s names' Hs.
  destruct (decide (c = s)) as [<-|Hcs].
  2:{ rewrite lookup_insert_ne in Hs by exact Hcs.
      destruct (catalog !! a) as [regions|] eqn:Hcat;
        [|simpl in Hs; rewrite lookup_empty in Hs; simpl in Hs; rewrite lookup_empty in Hs;
          discriminate].
      simpl in Hs. destruct (regions !! b) as [genders|] eqn:Hreg;
        [|simpl in Hs; rewrite lookup_empty in Hs; discriminate].
      simpl in Hs. destruct (Hwf a regions Hcat) as (_ & _ & Hin).
      destruct (Hin b genders Hreg) as (_ & _ & Hin'). exact (Hin' s names' Hs). }
  rewrite lookup_insert_eq in Hs. injection Hs as <-.
  split; [exact Hc|]. intros H. apply app_eq_nil in H as [_ H]. discriminate.
Qed.

Lemma append_nonempty_r (a b : string) : b <> "" -> a +:+ b <> "".
Proof.
  intros Hb H. destruct a as [|x a]; [apply Hb; exact H|].
  rewrite append_cons in H. discriminate.
Qed.

Lemma file_voices_well_formed (voices : list Voice) : forall catalog catalog' : Catalog,
  Forall (fun v => Gender v <> "" /\
            forall g r s, catalog_keys v = Some (g, r, s) -> g <> "") voices ->
  well_formed catalog ->
  file_voices voices catalog = Some catalog' -> well_formed catalog'.
Proof.
  induction voices as [|v voices IH]; intros catalog catalog' Hall Hwf H; simpl in H.
  - injection H as <-. exact Hwf.
  - apply Forall_cons in Hall as [[Hgen Hgrp] Hall].
    destruct (catalog_keys v) as [[[g r] s]|] eqn:Hk; [|discriminate].
    apply (IH _ _ Hall) in H; [exact H|].
    apply catalog_append_well_formed; [|  |  |exact Hwf].
    + apply (Hgrp g r s). reflexivity.
    + unfold catalog_keys in Hk.
      destruct (str_split "-" (Locale v)) as [|x [|y rest]]; try discriminate.
      injection Hk as _ <- _. apply append_nonempty_r. rewrite append_cons. discriminate.
    + unfold catalog_keys in Hk.
      destruct (str_split "-" (Locale v)) as [|x [|y rest]]; try discriminate.
      injection Hk as _ _ <-. exact Hgen.
Qed.

Lemma file_voices_nonempty (voices : list Voice) (catalog : Catalog) :
  voices <> [] -> file_voices voices ∅ = Some catalog -> catalog <> ∅.
Proof.
  intros Hne Hfile. destruct voices as [|v voices]; [contradiction|]. intros ->.
  pose proof (file_voices_lists _ _ _ Hfile) as Hlists.
  simpl in Hfile. destruct (catalog_keys v) as [[[g r] s]|] eqn:Hk; [|discriminate].
  specialize (Hlists g r s). unfold voices_of in Hlists at 1 2.
  rewrite !lookup_empty in Hlists. simpl in Hlists. rewrite !lookup_empty in Hlists.
  simpl in Hlists. rewrite filter_cons_True in Hlists by exact Hk. discriminate.
Qed.

(** X21. When the voices the loader fetched (at least one, each with a
    language code and a gender) arrive while Edge TTS is selected,
    [on_edge_voices_loaded] enables the language combo and fills all four:
    the language combo shows "中文" if a voice has that group and the
    first group otherwise, and the voice combo shows the short name of a
    fetched voice whose language group, region and gender are the three
    texts shown. *)
Theorem fetched_voices_fill_the_combos (voices : list Voice) (catalog : Catalog)
    (w : Options) :
  voices <> [] ->
  Forall (fun v => Gender v <> "" /\
            forall g r s, catalog_keys v = Some (g, r, s) -> g <> "") voices ->
  fetch_edge_voices (Returned voices) = edge_voices_loaded catalog ->
  voice_combo w = "Edge TTS" ->
  let w' := on_edge_voices_loaded catalog w in
  consistent w' /\
  isEnabled (edge_lang_group_combo w') = true /\
  text (edge_lang_group_combo w') =
    (if bool_decide (is_Some (catalog !! "中文")) then "中文" else first (keys catalog)) /\
  exists v, v ∈ voices /\ ShortName v = text (edge_voice_combo w') /\
    catalog_keys v = Some (text (edge_lang_group_combo w'), text (edge_region_combo w'),
                           text (edge_gender_combo w')).
Proof.
  intros Hne Hall Hfetch He w'.
  unfold fetch_edge_voices in Hfetch.
  destruct (file_voices voices ∅) as [cat|] eqn:Hfile; [|discriminate].
  injection Hfetch as ->.
  assert (Hwf : well_formed catalog)
    by (apply (file_voices_well_formed voices ∅ catalog Hall well_formed_empty Hfile)).
  assert (Hcat : catalog <> ∅) by exact (file_voices_nonempty voices catalog Hne Hfile).
  subst w'. unfold on_edge_voices_loaded. cbv zeta. cbn [voice_combo set_edge_tts_voices].
  rewrite He. cbn [String.eqb Ascii.eqb Bool.eqb].
  destruct (update_edge_lang_groups_consistent
              (set_edge_lang_group_combo
                 (setEnabled true (edge_lang_group_combo (set_edge_tts_voices catalog w)))
                 (set_edge_tts_voices catalog w)))
    as (H1 & H2 & H3 & H4 & H5); [exact Hwf|exact Hcat|].
  split; [exact H1|]. split; [exact H4|]. split; [exact H5|].
  destruct H1 as (_ & _ & _ & Hv). apply shows_text in Hv. rewrite H2 in Hv.
  cbn [edge_tts_voices set_edge_lang_group_combo set_edge_tts_voices] in Hv.
  rewrite (file_voices_lists _ _ _ Hfile) in Hv. unfold voices_of in Hv at 1.
  rewrite !lookup_empty in Hv. simpl in Hv. rewrite !lookup_empty in Hv. simpl in Hv.
  apply list_elem_of_fmap in Hv as (v & Hname & Hin).
  apply list_elem_of_filter in Hin as [Hk Hin].
  exists v. split; [exact Hin|]. split; [symmetry; exact Hname|exact Hk].
Qed.

(** X23. After leaving Edge TTS for another service and coming back with
    the voices loaded, the four combos are filled again, but the language
    combo stays disabled: [_create_edge_tts_options] disables it and only
    [on_edge_voices_loaded] enables it.  No pick in it does anything. *)
Theorem lang_group_combo_disabled_after_return (other : string) (i : Z) (w : Options) :
  reachable_options w ->
  voice_combo w = "Edge TTS" -> edge_tts_voices w <> ∅ ->
  other <> "Edge TTS" ->
  let w' := on_voice_event (PicksService "Edge TTS") (on_voice_event (PicksService other) w) in
  consistent w' /\
  isEnabled (edge_lang_group_combo w') = false /\
  on_voice_event (PicksLangGroup i) w' = w'.
Proof.
  intros Hr He Hne Hother w'.
  destruct (reachable_options_invariant w Hr) as (Hwf & _).
  assert (H1 : voice_combo (on_voice_event (PicksService other) w) = other /\
               edge_tts_voices (on_voice_event (PicksService other) w) = edge_tts_voices w).
  { change (on_voice_event (PicksService other) w)
      with (if String.eqb other (voice_combo w) then w
            else handle_voice_service_changed (set_voice_combo other w)).
    rewrite He. apply String.eqb_neq in Hother. rewrite Hother.
    destruct (handle_voice_service_changed_keeps (set_voice_combo other w) Hwf)
      as (_ & Hv & Hc).
    split; assumption. }
  destruct H1 as (Hv1 & Hc1). set (w1 := on_voice_event (PicksService other) w) in *.
  assert (E : w' = update_edge_lang_groups
                     (_create_edge_tts_options (set_voice_combo "Edge TTS" w1))).
  { subst w'.
    change (on_voice_event (PicksService "Edge TTS") w1)
      with (if String.eqb "Edge TTS" (voice_combo w1) then w1
            else handle_voice_service_changed (set_voice_combo "Edge TTS" w1)).
    rewrite Hv1.
    replace (String.eqb "Edge TTS" other) with false
      by (symmetry; apply String.eqb_neq; congruence).
    unfold handle_voice_service_changed. cbv zeta.
    cbn [voice_combo set_voice_combo String.eqb Ascii.eqb Bool.eqb
         edge_tts_voices _create_edge_tts_options].
    rewrite Hc1. rewrite (bool_decide_eq_true_2 _ Hne). reflexivity. }
  destruct (update_edge_lang_groups_consistent
              (_create_edge_tts_options (set_voice_combo "Edge TTS" w1)))
    as (G1 & G2 & G3 & G4 & G5).
  { cbn [edge_tts_voices _create_edge_tts_options set_voice_combo]. rewrite Hc1. exact Hwf. }
  { cbn [edge_tts_voices _create_edge_tts_options set_voice_combo]. rewrite Hc1. exact Hne. }
  rewrite <- E in G1, G4. clearbody w'.
  split; [exact G1|]. split; [exact G4|].
  change (on_voice_event (PicksLangGroup i) w')
    with (if can_pick i (edge_lang_group_combo w')
          then change_lang_group_combo (setCurrentIndex i) w' else w').
  unfold can_pick. rewrite G4. reflexivity.
Qed.

Lemma sample_voices_filed : file_voices sample_voices ∅ = Some sample_catalog.
Proof.
  unfold sample_catalog.
  assert (H : is_Some (file_voices sample_voices ∅)).
  { apply file_voices_Some. repeat constructor; vm_compute; eauto. }
  destruct H as [catalog ->]. reflexivity.
Qed.

Lemma sample_voices_keyed :
  Forall (fun v => Gender v <> "" /\
            forall g r s, catalog_keys v = Some (g, r, s) -> g <> "") sample_voices.
Proof.
  repeat constructor; try discriminate;
    intros g r s H; vm_compute in H; injection H as <- _ _; discriminate.
Qed.

Lemma sample_catalog_well_formed : well_formed sample_catalog.
Proof.
  apply (file_voices_well_formed sample_voices ∅ sample_catalog sample_voices_keyed
           well_formed_empty sample_voices_filed).
Qed.

Lemma sample_options_reachable : reachable_options sample_options.
Proof.
  apply reachable_options_step; [|exact I].
  apply reachable_options_step; [apply reachable_options_init|]. exact sample_catalog_well_formed.
Qed.

Lemma sample_catalog_nonempty : sample_catalog <> ∅.
Proof. apply (file_voices_nonempty sample_voices); [discriminate|exact sample_voices_filed]. Qed.

Lemma sample_options_voices : edge_tts_voices sample_options = sample_catalog.
Proof. unfold sample_options. rewrite !on_voice_event_edge_tts_voices. reflexivity. Qed.

Lemma edge_voice_combo_follows_selection_witness :
  reachable_options sample_options /\
  voice_combo sample_options = "Edge TTS" /\
  edge_tts_voices sample_options <> ∅ /\
  text (edge_lang_group_combo sample_options) = "中文" /\
  text (edge_region_combo sample_options) = "台灣 (zh-TW)" /\
  text (edge_gender_combo sample_options) = "Female" /\
  items (edge_voice_combo sample_options) =
    ["zh-TW-HsiaoChenNeural"; "zh-TW-HsiaoYuNeural"] /\
  text (edge_voice_combo sample_options) ∈
    voices_of (edge_tts_voices sample_options) (text (edge_lang_group_combo sample_options))
      (text (edge_region_combo sample_options)) (text (edge_gender_combo sample_options)).
Proof.
  assert (H1 : voice_combo sample_options = "Edge TTS") by (vm_compute; reflexivity).
  assert (H2 : edge_tts_voices sample_options <> ∅).
  { rewrite sample_options_voices. exact sample_catalog_nonempty. }
  destruct (edge_voice_combo_follows_selection sample_options sample_options_reachable H1 H2)
    as (_ & H3).
  split; [exact sample_options_reachable|]. split; [exact H1|]. split; [exact H2|].
  split; [vm_compute; reflexivity|]. split; [vm_compute; reflexivity|].
  split; [vm_compute; reflexivity|]. split; [vm_compute; reflexivity|exact H3].
Defined.

Lemma fetched_voices_fill_the_combos_witness :
  let w' := on_edge_voices_loaded sample_catalog init_options in
  sample_voices <> [] /\
  fetch_edge_voices (Returned sample_voices) = edge_voices_loaded sample_catalog /\
  voice_combo init_options = "Edge TTS" /\
  isEnabled (edge_lang_group_combo w') = true /\
  items (edge_lang_group_combo w') = ["中文"; "英文"] /\
  text (edge_lang_group_combo w') = "中文" /\
  text (edge_region_combo w') = "中國 (zh-CN)" /\
  text (edge_gender_combo w') = "Female" /\
  text (edge_voice_combo w') = "zh-CN-XiaoxiaoNeural".
Proof.
  assert (H1 : sample_voices <> []) by discriminate.
  assert (H2 : fetch_edge_voices (Returned sample_voices) = edge_voices_loaded sample_catalog)
    by (vm_compute; reflexivity).
  assert (H3 : voice_combo init_options = "Edge TTS") by reflexivity.
  destruct (fetched_voices_fill_the_combos sample_voices sample_catalog init_options
              H1 sample_voices_keyed H2 H3) as (_ & H4 & _).
  cbv zeta. split; [exact H1|]. split; [exact H2|]. split; [exact H3|].
  split; [exact H4|]. repeat split; vm_compute; reflexivity.
Defined.

Lemma lang_group_combo_disabled_after_return_witness :
  let w' := on_voice_event (PicksService "Edge TTS")
              (on_voice_event (PicksService "Google TTS") sample_options) in
  reachable_options sample_options /\
  isEnabled (edge_lang_group_combo sample_options) = true /\
  isEnabled (edge_lang_group_combo w') = false /\
  text (edge_lang_group_combo w') = "中文" /\
  on_voice_event (PicksLangGroup 1) w' = w'.
Proof.
  assert (H1 : voice_combo sample_options = "Edge TTS") by (vm_compute; reflexivity).
  assert (H2 : edge_tts_voices sample_options <> ∅).
  { rewrite sample_options_voices. exact sample_catalog_nonempty. }
  assert (H3 : "Google TTS" <> "Edge TTS") by discriminate.
  destruct (lang_group_combo_disabled_after_return "Google TTS" 1 sample_options
              sample_options_reachable H1 H2 H3) as (_ & H4 & H5).
  cbv zeta. split; [exact sample_options_reachable|]. split; [vm_compute; reflexivity|].
  split; [exact H4|]. split; [vm_compute; reflexivity|exact H5].
Defined.

End Voice_options_facts.

(* ===================================================================== *)
(** ** Sessions that meet the hypotheses                                 *)
(* ===================================================================== *)

Lemma spoken_once_reachable : reachable speech_env spoken_once.
Proof. apply run_events_reachable. apply reachable_init. Qed.

Lemma speak_text_keeps_earlier_files_witness :
  let st := spoken_once in
  let st' := exec (speak_text speech_env "Hello" (get_lang_code "英文")) st in
  tracked_files_ok st /\
  temp_files st' = ["/tmp/tmpa1.mp3"; "/tmp/tmpb2.mp3"] /\
  disk (world st') !! "/tmp/tmpa1.mp3" = Some (mkFile 4096 false).
Proof.
  assert (H1 : tracked_files_ok spoken_once).
  { exact (reachable_tracked_files_ok speech_env _ spoken_once_reachable). }
  destruct (speak_text_keeps_earlier_files speech_env "Hello" (get_lang_code "英文")
              spoken_once H1) as (_ & Hdisk).
  cbv zeta. split; [exact H1|]. split; [vm_compute; reflexivity|].
  apply Hdisk. vm_compute. reflexivity.
Defined.

Lemma speak_text_plays_new_file_witness :
  let st := with_voice_service "Google TTS" (init_app ∅ [] ∅) in
  let st' := exec (speak_text speech_env "Hello" (get_lang_code "英文")) st in
  temp_files st' = ["/tmp/tmpa1.mp3"] /\
  current_playing_file st' = Some "/tmp/tmpa1.mp3" /\
  player st' = {| playing := true; media_source := Some "/tmp/tmpa1.mp3" |} /\
  disk (world st') !! "/tmp/tmpa1.mp3" = Some (mkFile 4096 false).
Proof.
  assert (Htext : "Hello" <> "") by discriminate.
  assert (Hname : mkstemp speech_env
                    (disk (world (with_voice_service "Google TTS" (init_app ∅ [] ∅)))) <> "")
    by (vm_compute; discriminate).
  assert (Hfresh : disk (world (with_voice_service "Google TTS" (init_app ∅ [] ∅)))
                     !! mkstemp speech_env
                          (disk (world (with_voice_service "Google TTS" (init_app ∅ [] ∅))))
                   = None) by (vm_compute; reflexivity).
  assert (Hsyn : forall history c, synthesized speech_env history c = (4096, None))
    by (intros history c; reflexivity).
  assert (Hpos : 0 < 4096) by lia.
  destruct (speak_text_plays_new_file speech_env "Hello" (get_lang_code "英文") 4096
              (with_voice_service "Google TTS" (init_app ∅ [] ∅))
              Htext (or_introl eq_refl) Hname Hfresh Hsyn Hpos)
    as (H1 & H2 & H3 & H4 & _).
  cbv zeta. rewrite H1, H2, H3, H4. repeat split.
Defined.

Lemma end_of_media_forgets_current_file_witness :
  let st := spoken_once in
  let st' := exec handle_end_of_media st in
  current_playing_file st = Some "/tmp/tmpa1.mp3" /\
  current_playing_file st' = None /\
  disk (world st') !! "/tmp/tmpa1.mp3" = None /\
  Py.remove "/tmp/tmpa1.mp3" (temp_files st) = Some (temp_files st').
Proof.
  assert (H1 : current_playing_file spoken_once = Some "/tmp/tmpa1.mp3")
    by (vm_compute; reflexivity).
  destruct (end_of_media_forgets_current_file "/tmp/tmpa1.mp3" spoken_once H1)
    as (_ & H2 & H3 & _); [discriminate|].
  destruct H3 as (H3 & H4).
  - apply (bool_decide_unpack _). vm_compute. exact I.
  - vm_compute. reflexivity.
  - cbv zeta. split; [exact H1|]. split; [exact H2|]. split; [exact H3|exact H4].
Defined.

Lemma cleanup_all_temp_files_twice_witness :
  let once := exec cleanup_all_temp_files playing_second_file in
  let twice := exec cleanup_all_temp_files once in
  NoDup (temp_files playing_second_file) /\
  temp_files once = ["/tmp/tmpb2.mp3"] /\
  temp_files twice = ["/tmp/tmpb2.mp3"] /\
  disk (world twice) = disk (world once).
Proof.
  assert (H1 : NoDup (temp_files playing_second_file))
    by (apply (bool_decide_unpack _); vm_compute; exact I).
  destruct (cleanup_all_temp_files_twice playing_second_file H1) as (_ & H2 & H3).
  cbv zeta. split; [exact H1|]. split; [vm_compute; reflexivity|].
  split; [rewrite H2; vm_compute; reflexivity|exact H3].
Defined.

Lemma english_to_chinese_valid (service : string) : valid_state (english_to_chinese service).
Proof. repeat split; simpl; lia. Qed.

Lemma swap_languages_mirrors_request_witness :
  let st := english_to_chinese Google_service in
  let st' := exec swap_languages st in
  valid_state st /\
  source_text_of st' = "Hello" /\
  src_lang_name_of st' = "英文" /\
  dest_lang_name_of st' = "中文" /\
  target_side st' = true /\
  calls (world (exec (translate_text sample_env) st')) =
    [GoogleTranslator_translate "en" "zh-TW" "Hello"] /\
  toPlainText (left_text (ui (exec (translate_text sample_env) st'))) = "你好".
Proof.
  pose proof (english_to_chinese_valid Google_service) as H1.
  destruct (swap_languages_mirrors_request sample_env _ H1) as (H2 & H3 & H4 & H5 & H6 & H7).
  cbv zeta. split; [exact H1|].
  rewrite H2, H3, H4, H5, H6. repeat split; vm_compute; reflexivity.
Defined.

Lemma superseded_edit_leaves_no_trace_witness :
  let st := english_to_chinese Google_service in
  valid_state st /\
  run_events sample_env [UserTypes true "He"; UserTypes true "Hello"; TimerFires] st =
  run_events sample_env [UserTypes true "Hello"; TimerFires] st /\
  calls (world (run_events sample_env
                  [UserTypes true "He"; UserTypes true "Hello"; TimerFires] st)) =
    [GoogleTranslator_translate "en" "zh-TW" "Hello"].
Proof.
  pose proof (english_to_chinese_valid Google_service) as H1.
  pose proof (superseded_edit_leaves_no_trace sample_env "He" "Hello" _ H1) as H2.
  cbv zeta in *. split; [exact H1|]. split; [exact H2|].
  vm_compute. reflexivity.
Defined.

Lemma learn_pairs_translated_source_witness :
  let st := english_to_chinese Google_service in
  let st' :=
    run_events sample_env
      [ClicksTranslate; UserTypes true "Bye"; UserTypesCorrection " 哈囉 "; ClicksLearn] st in
  valid_state st /\ source_text_of st <> "" /\ strip " 哈囉 " <> "" /\
  translation_examples st' = [mkExample "Hello" "哈囉"] /\
  correction_input (ui st') = "".
Proof.
  pose proof (english_to_chinese_valid Google_service) as H1.
  assert (H2 : source_text_of (english_to_chinese Google_service) <> "")
    by (vm_compute; discriminate).
  assert (H3 : strip " 哈囉 " <> "") by (vm_compute; discriminate).
  destruct (learn_pairs_translated_source sample_env "Bye" " 哈囉 " _ H1 H2 H3) as (H4 & H5).
  cbv zeta. split; [exact H1|]. split; [exact H2|]. split; [exact H3|].
  split; [|exact H5]. etransitivity; [exact H4|]. vm_compute. reflexivity.
Defined.

Lemma translate_text_without_key_witness :
  let st := english_to_chinese DeepL_service in
  let st' := exec (translate_text sample_env) st in
  source_text_of st <> "" /\
  toPlainText (pane (target_side st) st') = "翻譯錯誤: 請先設置 DeepL API Key" /\
  calls (world st') = [] /\
  last_source_text st' = "Hello".
Proof.
  assert (H1 : source_text_of (english_to_chinese DeepL_service) <> "")
    by (vm_compute; discriminate).
  assert (H2 : (translator_combo (ui (english_to_chinese DeepL_service)),
                "請先設置 DeepL API Key") ∈ key_services).
  { apply (bool_decide_unpack _). vm_compute. exact I. }
  assert (H3 : default "" (api_keys (english_to_chinese DeepL_service)
                             !! translator_combo (ui (english_to_chinese DeepL_service))) = "")
    by (vm_compute; reflexivity).
  destruct (translate_text_without_key sample_env _ _ H1 H2 H3) as (H4 & H5 & H6).
  cbv zeta. split; [exact H1|]. split; [exact H4|]. split; [exact H5|exact H6].
Defined.

Lemma saved_key_reaches_provider_witness :
  let st := english_to_chinese DeepL_service in
  source_text_of st <> "" /\
  calls (world (exec (save_api_key " key-1 " >> translate_text sample_env) st)) =
    [DeepL_translate_text "key-1" "Hello" "EN-US" "ZH"] /\
  toPlainText (pane (target_side st)
                 (exec (save_api_key "  " >> translate_text sample_env) st)) =
    "翻譯錯誤: 請先設置 DeepL API Key".
Proof.
  assert (H1 : source_text_of (english_to_chinese DeepL_service) <> "")
    by (vm_compute; discriminate).
  destruct (saved_key_reaches_provider sample_env " key-1 " _ H1) as (_ & _ & H2).
  destruct (saved_key_reaches_provider sample_env "  " _ H1) as (H3 & _ & _).
  cbv zeta. split; [exact H1|]. split.
  - rewrite H2; [vm_compute; reflexivity|reflexivity|vm_compute; discriminate].
  - destruct (H3 "請先設置 DeepL API Key") as (_ & H4).
    + apply (bool_decide_unpack _). vm_compute. exact I.
    + vm_compute. reflexivity.
    + exact H4.
Defined.

Lemma V10_stop_audio_deletes_nothing_witness :
  let st := playing_second_file in
  let stopped := exec V10.stop_audio st in
  playing (player st) = true /\
  current_playing_file st = Some "/tmp/tmpb2.mp3" /\
  single_shots stopped = [(100, cleanup_current_playing_file)] /\
  exec (V10.run_deferred cleanup_current_playing_file) stopped = stopped /\
  disk (world stopped) !! "/tmp/tmpb2.mp3" = Some (mkFile 8192 true) /\
  temp_files stopped = ["/tmp/tmpa1.mp3"; "/tmp/tmpb2.mp3"].
Proof.
  assert (H1 : playing (player playing_second_file) = true) by reflexivity.
  assert (H2 : current_playing_file playing_second_file = Some "/tmp/tmpb2.mp3")
    by reflexivity.
  assert (H3 : "/tmp/tmpb2.mp3" <> "") by discriminate.
  destruct (V10_stop_audio_deletes_nothing _ _ H1 H2 H3) as (H4 & _ & H5 & H6 & H7).
  cbv zeta. split; [exact H1|]. split; [exact H2|]. split; [exact H4|].
  split; [unfold exec at 1; rewrite H5; reflexivity|].
  split; [rewrite H6; vm_compute; reflexivity|exact H7].
Defined.

Lemma V10_failed_synthesis_removes_temp_file_witness :
  let st := with_voice_service "Google TTS" (init_app ∅ [] ∅) in
  let st' := exec (V10.speak_text failing_speech_env "Hello" (get_lang_code "英文")) st in
  disk (world st') = ∅ /\
  temp_files st' = [] /\
  stdout (world st') = ["TTS 錯誤: No audio was received"] /\
  dialogs (world st') = [mkDialog Warning "錯誤" "無法生成語音文件。"].
Proof.
  assert (Htext : "Hello" <> "") by discriminate.
  assert (Hname : mkstemp failing_speech_env
                    (disk (world (with_voice_service "Google TTS" (init_app ∅ [] ∅)))) <> "")
    by (vm_compute; discriminate).
  assert (Hfresh : disk (world (with_voice_service "Google TTS" (init_app ∅ [] ∅)))
                     !! mkstemp failing_speech_env
                          (disk (world (with_voice_service "Google TTS" (init_app ∅ [] ∅))))
                   = None) by (vm_compute; reflexivity).
  assert (Hsyn : forall history c,
            synthesized failing_speech_env history c =
              (0, Some (mkExn RuntimeError "No audio was received")))
    by (intros history c; reflexivity).
  destruct (V10_failed_synthesis_removes_temp_file failing_speech_env "Hello"
              (get_lang_code "英文") 0 (mkExn RuntimeError "No audio was received")
              (with_voice_service "Google TTS" (init_app ∅ [] ∅))
              Htext (or_intror (or_introl eq_refl)) Hname Hfresh Hsyn)
    as (_ & H1 & H2 & _ & _ & H3 & H4).
  cbv zeta. rewrite H1, H2, H3, H4. repeat split.
Defined.

Lemma V10_restart_unlinks_new_file_witness :
  let st := spoken_once in
  let name := mkstemp speech_env (disk (world st)) in
  let restarted :=
    exec (V10.handle_speak_button speech_env "Hello" (get_lang_code "英文")) st in
  let released :=
    exec (V10.run_deferred cleanup_current_playing_file)
      (exec (on_event speech_env (BackendHolds name false)) restarted) in
  let kept :=
    exec (V10.run_deferred cleanup_current_playing_file)
      (exec (on_event speech_env (BackendHolds name true)) restarted) in
  name = "/tmp/tmpb2.mp3" /\
  playing (player st) = true /\
  current_playing_file st = Some "/tmp/tmpa1.mp3" /\
  current_playing_file restarted = Some "/tmp/tmpb2.mp3" /\
  temp_files released = ["/tmp/tmpa1.mp3"] /\
  disk (world released) = <["/tmp/tmpa1.mp3" := mkFile 4096 false]> ∅ /\
  temp_files kept = ["/tmp/tmpa1.mp3"; "/tmp/tmpb2.mp3"] /\
  disk (world kept) !! "/tmp/tmpb2.mp3" = Some (mkFile 4096 true).
Proof.
  assert (Hplay : playing (player spoken_once) = true) by (vm_compute; reflexivity).
  assert (Hcur : current_playing_file spoken_once = Some "/tmp/tmpa1.mp3")
    by (vm_compute; reflexivity).
  assert (Hp : "/tmp/tmpa1.mp3" <> "") by discriminate.
  assert (Htext : "Hello" <> "") by discriminate.
  assert (Hservice : voice_combo (ui spoken_once) = "Edge TTS" \/
                     voice_combo (ui spoken_once) = "Google TTS" \/
                     voice_combo (ui spoken_once) = "System TTS (pyttsx3)")
    by (right; left; vm_compute; reflexivity).
  assert (Hname : mkstemp speech_env (disk (world spoken_once)) <> "")
    by (vm_compute; discriminate).
  assert (Hfresh : disk (world spoken_once) !! mkstemp speech_env (disk (world spoken_once))
                   = None) by (vm_compute; reflexivity).
  assert (Hnew : mkstemp speech_env (disk (world spoken_once)) ∉ temp_files spoken_once).
  { apply (bool_decide_unpack _). vm_compute. exact I. }
  assert (Hsyn : forall history c, synthesized speech_env history c = (4096, None))
    by (intros history c; reflexivity).
  destruct (V10_restart_unlinks_new_file speech_env "Hello" (get_lang_code "英文") 4096
              "/tmp/tmpa1.mp3" false spoken_once Hplay Hcur Hp Htext Hservice Hname Hfresh
              Hnew Hsyn)
    as (_ & H1 & _ & _ & _ & _ & _ & _ & Hreleased & _).
  destruct (Hreleased eq_refl) as (H2 & H3 & _).
  destruct (V10_restart_unlinks_new_file speech_env "Hello" (get_lang_code "英文") 4096
              "/tmp/tmpa1.mp3" true spoken_once Hplay Hcur Hp Htext Hservice Hname Hfresh
              Hnew Hsyn)
    as (_ & _ & _ & _ & _ & _ & _ & _ & _ & Hkept).
  destruct (Hkept eq_refl) as (H4 & H5 & _).
  cbv zeta. split; [vm_compute; reflexivity|]. split; [exact Hplay|].
  split; [exact Hcur|]. rewrite H1, H2, H3, H4, H5.
  repeat split; vm_compute; reflexivity.
Defined.

Lemma V10_cleanup_temp_files_spares_current_witness :
  let st := set_disk_of (alter (fun f => mkFile (size f) false) "/tmp/tmpb2.mp3")
              playing_second_file in
  let st' := exec V10.cleanup_temp_files st in
  NoDup (temp_files st) /\
  current_playing_file st = Some "/tmp/tmpb2.mp3" /\
  temp_files st' = ["/tmp/tmpb2.mp3"] /\
  disk (world st') !! "/tmp/tmpa1.mp3" = None /\
  disk (world st') !! "/tmp/tmpb2.mp3" = Some (mkFile 8192 false).
Proof.
  set (st := set_disk_of (alter (fun f => mkFile (size f) false) "/tmp/tmpb2.mp3")
               playing_second_file).
  assert (H1 : NoDup (temp_files st))
    by (apply (bool_decide_unpack _); vm_compute; exact I).
  destruct (V10_cleanup_temp_files_spares_current st H1) as (_ & H2 & H3 & H4 & _).
  cbv zeta. split; [exact H1|]. split; [reflexivity|]. split; [|split].
  - rewrite H2. vm_compute. reflexivity.
  - apply H3.
    + apply (bool_decide_unpack _). vm_compute. exact I.
    + discriminate.
    + vm_compute. reflexivity.
  - rewrite H4; [vm_compute; reflexivity|]. intros H. apply H. reflexivity.
Defined.

Lemma V10_end_of_media_forgets_current_file_witness :
  let st := playing_second_file in
  let st' := exec V10.handle_end_of_media st in
  current_playing_file st = Some "/tmp/tmpb2.mp3" /\
  NoDup (temp_files st) /\
  current_playing_file st' = None /\
  temp_files st' = ["/tmp/tmpa1.mp3"; "/tmp/tmpb2.mp3"] /\
  disk (world st') = disk (world st).
Proof.
  assert (H1 : current_playing_file playing_second_file = Some "/tmp/tmpb2.mp3")
    by reflexivity.
  assert (H2 : "/tmp/tmpb2.mp3" <> "") by discriminate.
  assert (H3 : NoDup (temp_files playing_second_file))
    by (apply (bool_decide_unpack _); vm_compute; exact I).
  destruct (V10_end_of_media_forgets_current_file _ _ H1 H2 H3) as (_ & H4 & H5 & H6).
  cbv zeta. split; [exact H1|]. split; [exact H3|]. split; [exact H4|].
  split; [rewrite H5; vm_compute; reflexivity|].
  rewrite H6. replace (deletable (disk (world playing_second_file)) "/tmp/tmpb2.mp3")
    with false by (vm_compute; reflexivity). reflexivity.
Defined.
